(** * The EKS resolver of the awsappsignals processor

    A shallow embedding of
    [plugins/processors/awsappsignals/internal/resolver/eks.go]: the name
    parsing helpers, the pod and service event handlers, the deferred
    deleter, the service-to-workload mapper and the attribute enrichment
    entry point, together with the properties stated about them.

    Go strings are byte sequences and are modelled by [string] (a sequence
    of [ascii] bytes); the [sync.Map] indexes are [gmap]s keyed by strings;
    [mapset.Set[string]] is a [gset string].  The informers call their
    handlers one at a time and every access to a [sync.Map] is atomic; a
    call of a handler, a run of the mapper and the resumption of a deleter
    goroutine are each taken as one step on the shared store. *)

From Stdlib Require Import ZArith Ascii String DecimalString.
From stdpp Require Import gmap strings list fin_maps.

(** ** Strings *)

Module Strings.

(** Number of occurrences of the byte [c] in [s]. *)
Fixpoint count (c : ascii) (s : string) : nat :=
  match s with
  | EmptyString => 0
  | String a s' => (if Ascii.eqb a c then 1 else 0) + count c s'
  end.

(** [strings.Split(s, sep)] for a one-byte separator, which is how the
    resolver calls it: the pieces of [s] between the occurrences of
    [sep], in order; a string without [sep] is returned whole. *)
Fixpoint Split (s : string) (sep : ascii) : list string :=
  match s with
  | EmptyString => [EmptyString]
  | String a s' =>
      if Ascii.eqb a sep then EmptyString :: Split s' sep
      else match Split s' sep with
           | piece :: pieces => String a piece :: pieces
           | [] => [String a EmptyString]
           end
  end.

(** Every byte of [s] satisfies [p]. *)
Fixpoint all (p : ascii -> bool) (s : string) : bool :=
  match s with
  | EmptyString => true
  | String a s' => p a && all p s'
  end.

(** [strings.ContainsRune]-like membership of a byte in a string, used
    for bracket classes built from a constant alphabet. *)
Fixpoint mem (a : ascii) (s : string) : bool :=
  match s with
  | EmptyString => false
  | String b s' => Ascii.eqb a b || mem a s'
  end.

(** [s[:n]] and [s[n:]], saturating at the end of [s]. *)
Fixpoint take (n : nat) (s : string) : string :=
  match n, s with
  | S n', String a s' => String a (take n' s')
  | _, _ => EmptyString
  end.

End Strings.

(** ** Namespaced names: [name@namespace] *)

Definition attachNamespace (resourceName namespace : string) : string :=
  resourceName +:+ "@" +:+ namespace.

Definition extractResourceAndNamespace (serviceOrWorkloadAndNamespace : string)
  : string * string :=
  match Strings.Split serviceOrWorkloadAndNamespace "@" with
  | [name; namespace] => (name, namespace)
  | _ => ("", "")
  end.

(** ** Regular expressions

    The two patterns of the resolver are compiled by [regexp.MustCompile].
    They use only byte classes, greedy repetitions of a byte class,
    concatenation and capturing groups, and are anchored at both ends, so
    the engine below covers exactly that fragment.  Go's matcher prefers
    the leftmost match and, among those, the one a backtracking search
    finds first; [backtrack] lists the ways a pattern can consume a prefix
    of the input in that order of preference. *)

Module Regexp.

Inductive Regexp : Type :=
| Class (c : ascii -> bool)
| Repeat (c : ascii -> bool) (min : nat) (max : option nat)
| Concat (r1 r2 : Regexp)
| Capture (r : Regexp).

(** [\d]: an ASCII digit. *)
Definition digit (a : ascii) : bool :=
  let n := nat_of_ascii a in (48 <=? n)%nat && (n <=? 57)%nat.

(** [.] without the [s] flag: any byte but the line feed. *)
Definition dot (a : ascii) : bool := negb (Ascii.eqb a "010").

(** A literal byte, and a bracket class [[...]] listing its bytes. *)
Definition lit (b : ascii) (a : ascii) : bool := Ascii.eqb a b.
Definition oneOf (alphabet : string) (a : ascii) : bool := Strings.mem a alphabet.

(** The remainders left by a greedy repetition [c{min,max}] on [s], the
    longest run first. *)
Fixpoint repeat (c : ascii -> bool) (min : nat) (max : option nat) (s : string)
  : list string :=
  let stop := match min with O => [s] | S _ => [] end in
  match s with
  | EmptyString => stop
  | String a s' =>
      if c a && negb (bool_decide (max = Some O))
      then repeat c (pred min) (pred <$> max) s' ++ stop
      else stop
  end.

(** The part of [s] consumed when [rest] is what remains of it. *)
Definition consumed (s rest : string) : string :=
  Strings.take (String.length s - String.length rest) s.

(** All the ways [r] matches a prefix of [s]: the captured groups (in the
    order of their opening parentheses) and the remaining input. *)
Fixpoint backtrack (r : Regexp) (s : string) : list (list string * string) :=
  match r with
  | Class c =>
      match s with
      | String a s' => if c a then [([], s')] else []
      | EmptyString => []
      end
  | Repeat c min max => (fun rest => ([], rest)) <$> repeat c min max s
  | Concat r1 r2 =>
      '(caps1, s1) ← backtrack r1 s;
      '(caps2, s2) ← backtrack r2 s1;
      [(caps1 ++ caps2, s2)]
  | Capture r =>
      (fun '(caps, rest) => (consumed s rest :: caps, rest)) <$> backtrack r s
  end.

(** [re.FindStringSubmatch(s)] for a pattern [^r$]: the whole match
    followed by the groups, or [None] (Go's [nil]) when there is no match. *)
Definition FindStringSubmatch (r : Regexp) (s : string) : option (list string) :=
  match filter (fun m => m.2 = EmptyString) (backtrack r s) with
  | (caps, _) :: _ => Some (s :: caps)
  | [] => None
  end.

(** [re.MatchString(s)] for a pattern [^r$]. *)
Definition MatchString (r : Regexp) (s : string) : bool :=
  bool_decide (filter (fun m => m.2 = EmptyString) (backtrack r s) ≠ []).

(** What the patterns mean: [Matches r w caps] when [r] matches the whole
    of [w] with the groups capturing [caps]. *)
Inductive Matches : Regexp -> string -> list string -> Prop :=
| Matches_Class c a :
    c a = true -> Matches (Class c) (String a EmptyString) []
| Matches_Repeat c min max w :
    Strings.all c w = true -> min <= String.length w ->
    (forall m, max = Some m -> String.length w <= m) ->
    Matches (Repeat c min max) w []
| Matches_Concat r1 r2 w1 w2 caps1 caps2 :
    Matches r1 w1 caps1 -> Matches r2 w2 caps2 ->
    Matches (Concat r1 r2) (w1 +:+ w2) (caps1 ++ caps2)
| Matches_Capture r w caps :
    Matches r w caps -> Matches (Capture r) w (w :: caps).

End Regexp.

Import Regexp.

(** ** Name parsing *)

Definition kubeAllowedStringAlphaNums : string := "bcdfghjklmnpqrstvwxz2456789".

(** [^(.+)-[bcdfghjklmnpqrstvwxz2456789]{10}$] *)
Definition deploymentFromReplicaSetPattern : Regexp :=
  Concat (Capture (Repeat dot 1 None))
    (Concat (Class (lit "-"))
       (Repeat (oneOf kubeAllowedStringAlphaNums) 10 (Some 10))).

(** [^(.+)-[bcdfghjklmnpqrstvwxz2456789]{5}$] *)
Definition replicaSetFromPodPattern : Regexp :=
  Concat (Capture (Repeat dot 1 None))
    (Concat (Class (lit "-"))
       (Repeat (oneOf kubeAllowedStringAlphaNums) 5 (Some 5))).

(** The error of the Go function is [None]; its message is not modelled. *)
Definition extractWorkloadNameFromRS (replicaSetName : string) : option string :=
  match FindStringSubmatch deploymentFromReplicaSetPattern replicaSetName with
  | Some match_ => Some (default "" (match_ !! 1%nat))
  | None => None
  end.

Definition extractWorkloadNameFromPodName (podName : string) : option string :=
  match FindStringSubmatch replicaSetFromPodPattern podName with
  | Some match_ => Some (default "" (match_ !! 1%nat))
  | None => None
  end.

(** ** [IP:port] values *)

(** [\d{1,3}] *)
Definition octet : Regexp := Repeat digit 1 (Some 3).

(** [IP_PORT_PATTERN], [^(\d{1,3}\.\d{1,3}\.\d{1,3}\.\d{1,3}):(\d+)$] *)
Definition ipPortRegex : Regexp :=
  Concat
    (Capture
       (Concat octet (Concat (Class (lit "."))
       (Concat octet (Concat (Class (lit "."))
       (Concat octet (Concat (Class (lit ".")) octet)))))))
    (Concat (Class (lit ":")) (Capture (Repeat digit 1 None))).

(** The Go function returns [(ip, port, true)] or [("", "", false)]; the
    latter is [None] here. *)
Definition extractIPPort (ipPort : string) : option (string * string) :=
  if negb (MatchString ipPortRegex ipPort) then None
  else match FindStringSubmatch ipPortRegex ipPort with
       | Some [_; ip; port] => Some (ip, port)
       | _ => None
       end.

(** ** Cluster objects

    The fields of [corev1.Pod] and [corev1.Service] that the resolver
    reads.  [HostPort] is an [int32]. *)

Record ContainerPort := { HostPort : Z }.

Record Container := { Ports : list ContainerPort }.

Record OwnerReference := { owner_Kind : string; owner_Name : string }.

Record Pod := {
  pod_Name : string;
  pod_Namespace : string;
  pod_OwnerReferences : list OwnerReference;
  pod_Labels : gmap string string;
  pod_HostNetwork : bool;
  pod_Containers : list Container;
  pod_HostIP : string;
  pod_PodIP : string
}.

Record Service := {
  svc_Name : string;
  svc_Namespace : string;
  svc_ClusterIP : string;
  svc_Selector : gmap string string
}.

(** [strconv.Itoa] *)
Definition Itoa (i : Z) : string := NilZero.string_of_int (Z.to_int i).

Definition getHostNetworkPorts (pod : Pod) : list string :=
  if negb (pod_HostNetwork pod) then []
  else
    container ← pod_Containers pod;
    port ← Ports container;
    if decide (HostPort port ≠ 0%Z) then [Itoa (HostPort port)] else [].

Definition getServiceAndNamespace (service : Service) : string :=
  attachNamespace (svc_Name service) (svc_Namespace service).

(** One iteration of the loop over the owner references of
    [getWorkloadAndNamespace], after its [break] test: the new value of
    [workloadAndNamespace]. *)
Definition ownerStep (pod : Pod) (workloadAndNamespace : string)
    (ownerRef : OwnerReference) : string :=
  if decide (owner_Kind ownerRef = "ReplicaSet") then
    match extractWorkloadNameFromRS (owner_Name ownerRef) with
    | Some workloadName => attachNamespace workloadName (pod_Namespace pod)
    | None =>
        match extractWorkloadNameFromPodName (pod_Name pod) with
        | Some workloadName => attachNamespace workloadName (pod_Namespace pod)
        | None => workloadAndNamespace
        end
    end
  else if decide (owner_Kind ownerRef = "StatefulSet") then
    attachNamespace (owner_Name ownerRef) (pod_Namespace pod)
  else if decide (owner_Kind ownerRef = "DaemonSet") then
    attachNamespace (owner_Name ownerRef) (pod_Namespace pod)
  else workloadAndNamespace.

Fixpoint ownerLoop (pod : Pod) (workloadAndNamespace : string)
    (refs : list OwnerReference) : string :=
  match refs with
  | [] => workloadAndNamespace
  | ownerRef :: refs' =>
      if decide (workloadAndNamespace ≠ "") then workloadAndNamespace
      else ownerLoop pod (ownerStep pod workloadAndNamespace ownerRef) refs'
  end.

(** The empty string stands for "no workload derived". *)
Definition getWorkloadAndNamespace (pod : Pod) : string :=
  ownerLoop pod "" (pod_OwnerReferences pod).

(** The set of [key=value] strings of a label or selector map. *)
Definition labelSet (labels : gmap string string) : gset string :=
  list_to_set ((fun kv => kv.1 +:+ "=" +:+ kv.2) <$> map_to_list labels).

(** ** The shared store

    The watchers, the mapper and the resolver hold pointers to the same
    [sync.Map]s; the store below is that shared memory, and an [Index]
    names one of the maps the way a [*sync.Map] argument does.  The
    goroutines started by [DeleteWithDelay] are kept, asleep, in
    [sleeping], each with the instant its [time.Sleep] ends; [clock] is
    the current instant in nanoseconds.  A log entry keeps the level, the
    message and the string fields of a [zap] call. *)

Inductive Index :=
| IpToPod
| PodToWorkloadAndNamespace
| WorkloadAndNamespaceToLabels
| IpToServiceAndNamespace
| ServiceAndNamespaceToSelectors
| ServiceToWorkload.

#[global] Instance Index_eq_dec : EqDecision Index.
Proof. solve_decision. Defined.

Record Deletion := { due : Z; target : Index; key : string }.

Inductive Level := DebugLevel | InfoLevel.

#[global] Instance Level_eq_dec : EqDecision Level.
Proof. solve_decision. Defined.

Record LogEntry := {
  level : Level;
  message : string;
  fields : list (string * string)
}.

Record State := {
  ipToPod : gmap string string;
  podToWorkloadAndNamespace : gmap string string;
  ipToServiceAndNamespace : gmap string string;
  serviceAndNamespaceToSelectors : gmap string (gset string);
  workloadAndNamespaceToLabels : gmap string (gset string);
  serviceToWorkload : gmap string string;
  workloadPodCount : gmap string Z;
  clock : Z;
  sleeping : list Deletion;
  logged : list LogEntry
}.

Definition with_ipToPod (f : gmap string string -> gmap string string)
    (st : State) : State :=
  {| ipToPod := f (ipToPod st);
     podToWorkloadAndNamespace := podToWorkloadAndNamespace st;
     ipToServiceAndNamespace := ipToServiceAndNamespace st;
     serviceAndNamespaceToSelectors := serviceAndNamespaceToSelectors st;
     workloadAndNamespaceToLabels := workloadAndNamespaceToLabels st;
     serviceToWorkload := serviceToWorkload st;
     workloadPodCount := workloadPodCount st;
     clock := clock st; sleeping := sleeping st; logged := logged st |}.

Definition with_podToWorkloadAndNamespace
    (f : gmap string string -> gmap string string) (st : State) : State :=
  {| ipToPod := ipToPod st;
     podToWorkloadAndNamespace := f (podToWorkloadAndNamespace st);
     ipToServiceAndNamespace := ipToServiceAndNamespace st;
     serviceAndNamespaceToSelectors := serviceAndNamespaceToSelectors st;
     workloadAndNamespaceToLabels := workloadAndNamespaceToLabels st;
     serviceToWorkload := serviceToWorkload st;
     workloadPodCount := workloadPodCount st;
     clock := clock st; sleeping := sleeping st; logged := logged st |}.

Definition with_ipToServiceAndNamespace
    (f : gmap string string -> gmap string string) (st : State) : State :=
  {| ipToPod := ipToPod st;
     podToWorkloadAndNamespace := podToWorkloadAndNamespace st;
     ipToServiceAndNamespace := f (ipToServiceAndNamespace st);
     serviceAndNamespaceToSelectors := serviceAndNamespaceToSelectors st;
     workloadAndNamespaceToLabels := workloadAndNamespaceToLabels st;
     serviceToWorkload := serviceToWorkload st;
     workloadPodCount := workloadPodCount st;
     clock := clock st; sleeping := sleeping st; logged := logged st |}.

Definition with_serviceAndNamespaceToSelectors
    (f : gmap string (gset string) -> gmap string (gset string))
    (st : State) : State :=
  {| ipToPod := ipToPod st;
     podToWorkloadAndNamespace := podToWorkloadAndNamespace st;
     ipToServiceAndNamespace := ipToServiceAndNamespace st;
     serviceAndNamespaceToSelectors := f (serviceAndNamespaceToSelectors st);
     workloadAndNamespaceToLabels := workloadAndNamespaceToLabels st;
     serviceToWorkload := serviceToWorkload st;
     workloadPodCount := workloadPodCount st;
     clock := clock st; sleeping := sleeping st; logged := logged st |}.

Definition with_workloadAndNamespaceToLabels
    (f : gmap string (gset string) -> gmap string (gset string))
    (st : State) : State :=
  {| ipToPod := ipToPod st;
     podToWorkloadAndNamespace := podToWorkloadAndNamespace st;
     ipToServiceAndNamespace := ipToServiceAndNamespace st;
     serviceAndNamespaceToSelectors := serviceAndNamespaceToSelectors st;
     workloadAndNamespaceToLabels := f (workloadAndNamespaceToLabels st);
     serviceToWorkload := serviceToWorkload st;
     workloadPodCount := workloadPodCount st;
     clock := clock st; sleeping := sleeping st; logged := logged st |}.

Definition with_serviceToWorkload
    (f : gmap string string -> gmap string string) (st : State) : State :=
  {| ipToPod := ipToPod st;
     podToWorkloadAndNamespace := podToWorkloadAndNamespace st;
     ipToServiceAndNamespace := ipToServiceAndNamespace st;
     serviceAndNamespaceToSelectors := serviceAndNamespaceToSelectors st;
     workloadAndNamespaceToLabels := workloadAndNamespaceToLabels st;
     serviceToWorkload := f (serviceToWorkload st);
     workloadPodCount := workloadPodCount st;
     clock := clock st; sleeping := sleeping st; logged := logged st |}.

Definition with_workloadPodCount
    (f : gmap string Z -> gmap string Z) (st : State) : State :=
  {| ipToPod := ipToPod st;
     podToWorkloadAndNamespace := podToWorkloadAndNamespace st;
     ipToServiceAndNamespace := ipToServiceAndNamespace st;
     serviceAndNamespaceToSelectors := serviceAndNamespaceToSelectors st;
     workloadAndNamespaceToLabels := workloadAndNamespaceToLabels st;
     serviceToWorkload := serviceToWorkload st;
     workloadPodCount := f (workloadPodCount st);
     clock := clock st; sleeping := sleeping st; logged := logged st |}.

Definition with_clock (f : Z -> Z) (st : State) : State :=
  {| ipToPod := ipToPod st;
     podToWorkloadAndNamespace := podToWorkloadAndNamespace st;
     ipToServiceAndNamespace := ipToServiceAndNamespace st;
     serviceAndNamespaceToSelectors := serviceAndNamespaceToSelectors st;
     workloadAndNamespaceToLabels := workloadAndNamespaceToLabels st;
     serviceToWorkload := serviceToWorkload st;
     workloadPodCount := workloadPodCount st;
     clock := f (clock st); sleeping := sleeping st; logged := logged st |}.

Definition with_sleeping (f : list Deletion -> list Deletion)
    (st : State) : State :=
  {| ipToPod := ipToPod st;
     podToWorkloadAndNamespace := podToWorkloadAndNamespace st;
     ipToServiceAndNamespace := ipToServiceAndNamespace st;
     serviceAndNamespaceToSelectors := serviceAndNamespaceToSelectors st;
     workloadAndNamespaceToLabels := workloadAndNamespaceToLabels st;
     serviceToWorkload := serviceToWorkload st;
     workloadPodCount := workloadPodCount st;
     clock := clock st; sleeping := f (sleeping st); logged := logged st |}.

Definition with_logged (f : list LogEntry -> list LogEntry)
    (st : State) : State :=
  {| ipToPod := ipToPod st;
     podToWorkloadAndNamespace := podToWorkloadAndNamespace st;
     ipToServiceAndNamespace := ipToServiceAndNamespace st;
     serviceAndNamespaceToSelectors := serviceAndNamespaceToSelectors st;
     workloadAndNamespaceToLabels := workloadAndNamespaceToLabels st;
     serviceToWorkload := serviceToWorkload st;
     workloadPodCount := workloadPodCount st;
     clock := clock st; sleeping := sleeping st; logged := f (logged st) |}.

(** The state built by [NewPodWatcher], [NewServiceWatcher] and
    [getEksResolver]: every index empty, nothing scheduled. *)
Definition newState : State :=
  {| ipToPod := ∅; podToWorkloadAndNamespace := ∅;
     ipToServiceAndNamespace := ∅; serviceAndNamespaceToSelectors := ∅;
     workloadAndNamespaceToLabels := ∅; serviceToWorkload := ∅;
     workloadPodCount := ∅; clock := 0; sleeping := []; logged := [] |}.

(** [logger.Debug] and [logger.Info] *)
Definition Debug (msg : string) (fs : list (string * string)) : State -> State :=
  with_logged (fun l => l ++ [{| level := DebugLevel; message := msg; fields := fs |}]).

Definition Info (msg : string) (fs : list (string * string)) : State -> State :=
  with_logged (fun l => l ++ [{| level := InfoLevel; message := msg; fields := fs |}]).

(** [m.Delete(key)] on the map that [m] points to. *)
Definition Delete (m : Index) (k : string) : State -> State :=
  match m with
  | IpToPod => with_ipToPod (delete k)
  | PodToWorkloadAndNamespace => with_podToWorkloadAndNamespace (delete k)
  | WorkloadAndNamespaceToLabels => with_workloadAndNamespaceToLabels (delete k)
  | IpToServiceAndNamespace => with_ipToServiceAndNamespace (delete k)
  | ServiceAndNamespaceToSelectors => with_serviceAndNamespaceToSelectors (delete k)
  | ServiceToWorkload => with_serviceToWorkload (delete k)
  end.

(** ** The deferred deleter *)

(** [time.Duration] counts nanoseconds. *)
Definition Second : Z := 1000000000.
Definition Minute : Z := 60 * Second.
Definition deletionDelay : Z := 2 * Minute.

(** The [Deleter] interface. *)
Class Deleter (D : Type) := DeleteWithDelay : D -> Index -> string -> State -> State.

Record TimedDeleter := { Delay : Z }.

(** [TimedDeleter.DeleteWithDelay] starts a goroutine and returns: the
    maps are not touched by the call.  The goroutine sleeps for [Delay]
    from the instant of the call, then deletes. *)
#[global] Instance TimedDeleter_Deleter : Deleter TimedDeleter :=
  fun td m k st =>
    with_sleeping
      (fun gs => gs ++ [{| due := clock st + Delay td; target := m; key := k |}]) st.

(** The deleter that [getEksResolver] builds. *)
Definition defaultDeleter : TimedDeleter := {| Delay := deletionDelay |}.

(** The goroutine at position [i] of [sleeping] resumes: [time.Sleep]
    returns no earlier than the requested duration, so this happens only
    once the clock has reached [due]; it then runs [m.Delete(key)] and
    ends. *)
Definition wake (i : nat) (st : State) : option State :=
  match sleeping st !! i with
  | Some g =>
      if decide (due g ≤ clock st)%Z
      then Some (Delete (target g) (key g) (with_sleeping (delete i) st))
      else None
  | None => None
  end.

(** Time passes. *)
Definition tick (dt : Z) : State -> State := with_clock (fun t => t + Z.max 0 dt)%Z.

(** ** Service events *)

Definition onAddOrUpdateService (service : Service) (st : State) : State :=
  let st1 :=
    if decide (svc_ClusterIP service ≠ "" ∧ svc_ClusterIP service ≠ "None")
    then with_ipToServiceAndNamespace
           (insert (svc_ClusterIP service) (getServiceAndNamespace service)) st
    else st in
  let labels := labelSet (svc_Selector service) in
  if decide (0 < size labels)
  then with_serviceAndNamespaceToSelectors
         (insert (getServiceAndNamespace service) labels) st1
  else st1.

Definition onDeleteService `{Deleter D} (service : Service) (deleter : D)
    (st : State) : State :=
  let st1 :=
    if decide (svc_ClusterIP service ≠ "" ∧ svc_ClusterIP service ≠ "None")
    then DeleteWithDelay deleter IpToServiceAndNamespace (svc_ClusterIP service) st
    else st in
  DeleteWithDelay deleter ServiceAndNamespaceToSelectors
    (getServiceAndNamespace service) st1.

(** ** Pod events *)

(** The keys [HostIP:port] of a pod, one per entry of
    [getHostNetworkPorts]. *)
Definition hostIPPorts (pod : Pod) : list string :=
  (fun port => pod_HostIP pod +:+ ":" +:+ port) <$> getHostNetworkPorts pod.

Definition removeHostNetworkRecords `{Deleter D} (pod : Pod) (deleter : D)
    (st : State) : State :=
  foldl (fun st k => DeleteWithDelay deleter IpToPod k st) st (hostIPPorts pod).

(** The two Go maps used as sets are [gset]s; Go ranges over them in an
    unspecified order, here the order of [elements]. *)
Definition updateHostNetworkRecords `{Deleter D} (newPod oldPod : Pod)
    (deleter : D) (st : State) : State :=
  let newHostIPPorts : gset string := list_to_set (hostIPPorts newPod) in
  let oldHostIPPorts : gset string := list_to_set (hostIPPorts oldPod) in
  let st1 :=
    foldl (fun st oldHostIPPort =>
             if decide (oldHostIPPort ∉ newHostIPPorts)
             then DeleteWithDelay deleter IpToPod oldHostIPPort st else st)
          st (elements oldHostIPPorts) in
  foldl (fun st newHostIPPort =>
           if decide (newHostIPPort ∉ oldHostIPPorts)
           then with_ipToPod (insert newHostIPPort (pod_Name newPod)) st else st)
        st1 (elements newHostIPPorts).

Definition handlePodAdd (pod : Pod) (st : State) : State :=
  if pod_HostNetwork pod then
    foldl (fun st k => with_ipToPod (insert k (pod_Name pod)) st) st (hostIPPorts pod)
  else if decide (pod_PodIP pod ≠ "") then
    with_ipToPod (insert (pod_PodIP pod) (pod_Name pod)) st
  else st.

Definition handlePodUpdate `{Deleter D} (newPod oldPod : Pod) (deleter : D)
    (st : State) : State :=
  if pod_HostNetwork oldPod && pod_HostNetwork newPod then
    updateHostNetworkRecords newPod oldPod deleter st
  else if pod_HostNetwork oldPod && negb (pod_HostNetwork newPod) then
    let st1 := removeHostNetworkRecords oldPod deleter st in
    if decide (pod_PodIP newPod ≠ "")
    then with_ipToPod (insert (pod_PodIP newPod) (pod_Name newPod)) st1
    else st1
  else if negb (pod_HostNetwork oldPod) && pod_HostNetwork newPod then
    let st1 :=
      if decide (pod_PodIP oldPod ≠ "")
      then DeleteWithDelay deleter IpToPod (pod_PodIP oldPod) st else st in
    foldl (fun st k => with_ipToPod (insert k (pod_Name newPod)) st) st1
      (hostIPPorts newPod)
  else if negb (pod_HostNetwork oldPod) && negb (pod_HostNetwork newPod)
          && bool_decide (pod_PodIP oldPod ≠ pod_PodIP newPod) then
    let st1 :=
      if decide (pod_PodIP oldPod ≠ "")
      then DeleteWithDelay deleter IpToPod (pod_PodIP oldPod) st else st in
    if decide (pod_PodIP newPod ≠ "")
    then with_ipToPod (insert (pod_PodIP newPod) (pod_Name newPod)) st1
    else st1
  else st.

(** Go's [int] is 64 bits wide and wraps around. *)
Definition int_wrap (z : Z) : Z := ((z + 2 ^ 63) mod 2 ^ 64 - 2 ^ 63)%Z.

(** [workloadPodCount[w]]: a missing key reads as 0. *)
Definition podCount (st : State) (w : string) : Z :=
  default 0%Z (workloadPodCount st !! w).

(** [oldObj] is [nil] for an Add; the type assertion of the Update branch
    would panic on it, which [PodWatcher.Run] never causes. *)
Definition onAddOrUpdatePod `{Deleter D} (newObj : Pod) (oldObj : option Pod)
    (isAdd : bool) (deleter : D) (st : State) : State :=
  let pod := newObj in
  let st1 :=
    if isAdd then handlePodAdd pod st
    else match oldObj with
         | Some oldPod => handlePodUpdate pod oldPod deleter st
         | None => st
         end in
  let workloadAndNamespace := getWorkloadAndNamespace pod in
  if decide (workloadAndNamespace ≠ "") then
    let st2 :=
      with_podToWorkloadAndNamespace
        (insert (pod_Name pod) workloadAndNamespace) st1 in
    let podLabels := labelSet (pod_Labels pod) in
    let st3 :=
      if decide (0 < size podLabels)
      then with_workloadAndNamespaceToLabels
             (insert workloadAndNamespace podLabels) st2
      else st2 in
    if isAdd then
      Debug "Added pod"
        [("pod", pod_Name pod); ("workload", workloadAndNamespace)]
        (with_workloadPodCount
           (insert workloadAndNamespace
              (int_wrap (podCount st3 workloadAndNamespace + 1))) st3)
    else st3
  else st1.

Definition onDeletePod `{Deleter D} (pod : Pod) (deleter : D) (st : State)
  : State :=
  let st1 :=
    if decide (pod_PodIP pod ≠ "") then
      DeleteWithDelay deleter IpToPod (pod_PodIP pod) st
    else if decide (pod_HostIP pod ≠ "") then
      foldl (fun st k => DeleteWithDelay deleter IpToPod k st) st
        (hostIPPorts pod)
    else st in
  let st2 :=
    match podToWorkloadAndNamespace st1 !! pod_Name pod with
    | Some workloadAndNamespace =>
        let st' :=
          Debug "workload pod count" [("workload", workloadAndNamespace)]
            (with_workloadPodCount
               (insert workloadAndNamespace
                  (int_wrap (podCount st1 workloadAndNamespace - 1))) st1) in
        if decide (podCount st' workloadAndNamespace = 0%Z)
        then DeleteWithDelay deleter WorkloadAndNamespaceToLabels
               workloadAndNamespace st'
        else st'
    | None => st1
    end in
  DeleteWithDelay deleter PodToWorkloadAndNamespace (pod_Name pod) st2.

(** ** The service to workload mapper *)

(** The inner [Range]: the workloads of the service's namespace whose
    labels contain the selectors, in the order the map is iterated. *)
Definition matchingWorkloads (serviceNamespace : string)
    (serviceLabels : gset string) (st : State) : list string :=
  (map_to_list (workloadAndNamespaceToLabels st)) ≫=
    (fun kv =>
       let workloadNamespace := (extractResourceAndNamespace kv.1).2 in
       if decide (workloadNamespace = serviceNamespace
                  ∧ workloadNamespace ≠ "" ∧ serviceLabels ⊆ kv.2)
       then [kv.1] else []).

(** The body of the outer [Range] for one service. *)
Definition mapService `{Deleter D} (deleter : D) (st : State)
    (kv : string * gset string) : State :=
  let serviceAndNamespace := kv.1 in
  let serviceNamespace := (extractResourceAndNamespace serviceAndNamespace).2 in
  let workloads := matchingWorkloads serviceNamespace kv.2 st in
  let st1 :=
    foldl (fun st w =>
             Debug "Found workload for service"
               [("service", serviceAndNamespace); ("workload", w)] st)
          st workloads in
  match workloads with
  | _ :: _ :: _ =>
      Info "Multiple workloads found for service. You will get unexpected results."
        [("service", serviceAndNamespace)] st1
  | [workload] =>
      with_serviceToWorkload (insert serviceAndNamespace workload) st1
  | [] =>
      DeleteWithDelay deleter ServiceToWorkload serviceAndNamespace
        (Debug "No workload found for service"
           [("service", serviceAndNamespace)] st1)
  end.

Definition MapServiceToWorkload `{Deleter D} (deleter : D) (st : State)
  : State :=
  foldl (mapService deleter) (Debug "Map service to workload at:" [] st)
    (map_to_list (serviceAndNamespaceToSelectors st)).

(** ** The resolver *)

(** The error of the Go method is [None]. *)
Definition GetWorkloadAndNamespaceByIP (e : State) (ip : string)
  : option (string * string) :=
  match
    match ipToPod e !! ip with
    | Some pod =>
        match podToWorkloadAndNamespace e !! pod with
        | Some workloadKey => Some (extractResourceAndNamespace workloadKey)
        | None => None
        end
    | None => None
    end
  with
  | Some found => Some found
  | None =>
      match ipToServiceAndNamespace e !! ip with
      | Some serviceAndNamespace =>
          match serviceToWorkload e !! serviceAndNamespace with
          | Some workloadKey => Some (extractResourceAndNamespace workloadKey)
          | None => None
          end
      | None => None
      end
  end.

(** ** Attribute enrichment *)

(** A [pcommon.Value]: a string, or a value of another type together with
    what [AsString] renders it as. *)
Inductive Value :=
| ValueStr (s : string)
| ValueOther (rendered : string).

Definition AsString (v : Value) : string :=
  match v with ValueStr s => s | ValueOther s => s end.

(** [attributes.PutStr(k, v)] *)
Definition PutStr (k v : string) (attributes : gmap string Value)
  : gmap string Value := <[k := ValueStr v]> attributes.

(** Modelled from the spec: the attribute keys [AttributeRemoteService] and
    [AttributeRemoteNamespace] are declared outside the files at hand; the
    specification names them [aws.remote.service] and
    [aws.remote.namespace]. *)
Definition AttributeRemoteService : string := "aws.remote.service".
Definition AttributeRemoteNamespace : string := "aws.remote.namespace".

(** A Go [error]: [None] is [nil]. *)
Definition error : Type := option string.

Section Enrich.

(** [net.ParseIP] of the Go standard library: the 16 bytes of the address,
    or [None] for [nil]. *)
Variable ParseIP : string -> option (list Z).

Definition isIP (ipString : string) : bool :=
  match ParseIP ipString with Some _ => true | None => false end.

(** The first [if] of [Process]: the attributes after it and [ipStr]. *)
Definition lookupFull (e : State) (valueStr : string)
    (attributes : gmap string Value) : gmap string Value * string :=
  match extractIPPort valueStr with
  | Some (ip, _) =>
      match GetWorkloadAndNamespaceByIP e valueStr with
      | Some (workload, namespace) =>
          (PutStr AttributeRemoteNamespace namespace
             (PutStr AttributeRemoteService workload attributes), "")
      | None => (attributes, ip)
      end
  | None => if isIP valueStr then (attributes, valueStr) else (attributes, "")
  end.

(** [eksResolver.Process]: the attributes and the resolver (its logger)
    after the call, and the returned error. *)
Definition Process (e : State) (attributes resourceAttributes : gmap string Value)
  : gmap string Value * State * error :=
  match attributes !! AttributeRemoteService with
  | Some value =>
      let valueStr := AsString value in
      let '(attributes1, ipStr) := lookupFull e valueStr attributes in
      if decide (ipStr ≠ "") then
        match GetWorkloadAndNamespaceByIP e ipStr with
        | Some (workload, namespace) =>
            (PutStr AttributeRemoteNamespace namespace
               (PutStr AttributeRemoteService workload attributes1), e, None)
        | None =>
            (PutStr AttributeRemoteService "UnknownRemoteService" attributes1,
             Debug "failed to Process ip" [("ip", ipStr)] e, None)
        end
      else (attributes1, e, None)
  | None => (attributes, e, None)
  end.

End Enrich.

(** The dotted-decimal addresses that [net.ParseIP] accepts (four decimal
    fields of at most 255, without leading zeros), as the 16-byte form of
    an IPv4 address.  It serves to run [Process] on IPv4 examples. *)
Definition parseField (s : string) : option Z :=
  if Strings.all digit s
     && bool_decide (1 ≤ String.length s ≤ 3)
     && (bool_decide (String.length s = 1) || negb (bool_decide (Strings.take 1 s = "0")))
  then
    let n := Z.of_uint (default Decimal.Nil (NilEmpty.uint_of_string s)) in
    if decide (n ≤ 255)%Z then Some n else None
  else None.

Definition ParseIPv4 (s : string) : option (list Z) :=
  match Strings.Split s "." with
  | [a; b; c; d] =>
      a ← parseField a; b ← parseField b; c ← parseField c; d ← parseField d;
      Some ([0; 0; 0; 0; 0; 0; 0; 0; 0; 0; 255; 255; a; b; c; d]%Z)
  | _ => None
  end.

(** ** Runs of the resolver

    What happens to the store, one step at a time: the informers deliver
    pod and service events to the handlers registered by [PodWatcher.Run]
    and [ServiceWatcher.Run], the mapper runs, time passes, and sleeping
    deleter goroutines resume. *)

Inductive Event :=
| PodAdd (pod : Pod)
| PodUpdate (oldPod newPod : Pod)
| PodDelete (pod : Pod)
| ServiceAdd (service : Service)
| ServiceUpdate (oldService newService : Service)
| ServiceDelete (service : Service)
| MapperRun
| Elapse (dt : Z)
| Resume (i : nat).

Definition step (deleter : TimedDeleter) (st : State) (ev : Event) : State :=
  match ev with
  | PodAdd pod =>
      onAddOrUpdatePod pod None true deleter
        (Debug "list and watch for pods: ADD" [] st)
  | PodUpdate oldPod newPod =>
      onAddOrUpdatePod newPod (Some oldPod) false deleter
        (Debug "list and watch for pods: UPDATE" [] st)
  | PodDelete pod =>
      onDeletePod pod deleter (Debug "list and watch for pods: DELETE" [] st)
  | ServiceAdd service =>
      onAddOrUpdateService service
        (Debug "list and watch for services: ADD" [] st)
  | ServiceUpdate _ newService =>
      onAddOrUpdateService newService
        (Debug "list and watch for services: UPDATE" [] st)
  | ServiceDelete service =>
      onDeleteService service deleter
        (Debug "list and watch for services: DELETE" [] st)
  | MapperRun => MapServiceToWorkload deleter st
  | Elapse dt => tick dt st
  | Resume i => default st (wake i st)
  end.

Definition run (deleter : TimedDeleter) (st : State) (evs : list Event) : State :=
  foldl (step deleter) st evs.

(** ** The stop channel *)

(** A [safeChannel]: whether [ch] is still open, and the [closed] flag.
    The mutex makes [Close] atomic. *)
Record safeChannel := { ch_open : bool; closed : bool }.

(** [close(ch)] panics ([None]) on a channel that is closed already. *)
Definition close (open : bool) : option bool :=
  if open then Some false else None.

Definition safeChannel_Close (sc : safeChannel) : option safeChannel :=
  if negb (closed sc) then
    match close (ch_open sc) with
    | Some ch => Some {| ch_open := ch; closed := true |}
    | None => None
    end
  else Some sc.

(** The channel that [getEksResolver] builds:
    [&safeChannel{ch: make(chan struct{}), closed: false}]. *)
Definition newSafeChannel : safeChannel := {| ch_open := true; closed := false |}.

(** [eksResolver.Stop]: the channel after the call and the returned
    error, or [None] for a panic. *)
Definition Stop (safeStopCh : safeChannel) : option (safeChannel * error) :=
  match safeChannel_Close safeStopCh with
  | Some sc => Some (sc, None)
  | None => None
  end.

(** ** The hosted-in attributes *)

(** [strings.HasPrefix] and [strings.TrimPrefix]. *)
Definition HasPrefix (s prefix : string) : bool := String.prefix prefix s.

Definition TrimPrefix (s prefix : string) : string :=
  if HasPrefix s prefix
  then String.substring (String.length prefix)
         (String.length s - String.length prefix) s
  else s.

(** The resource attributes are ranged over, in the order of the slice
    that backs a [pcommon.Map]; they are a list of entries here, and
    [Get] finds the first entry of a key. *)
Fixpoint Get (resourceAttributes : list (string * Value)) (k : string)
  : option Value :=
  match resourceAttributes with
  | [] => None
  | (k', v) :: rest => if decide (k' = k) then Some v else Get rest k
  end.

(** The constants of the [semconv] package. *)
Definition AttributeK8SNamespaceName : string := "k8s.namespace.name".
Definition AttributeCloudProvider : string := "cloud.provider".
Definition AttributeCloudProviderAWS : string := "aws".

Record eksHostedInAttributeResolver := {
  clusterName : string;
  attributeMap : gmap string string
}.

Section HostedIn.

(** The attribute keys [HostedInAttributeK8SNamespace] and
    [HostedInAttributeClusterName] are declared outside the files at
    hand. *)
Variables HostedInAttributeK8SNamespace HostedInAttributeClusterName : string.

Definition newEKSHostedInAttributeResolver : eksHostedInAttributeResolver :=
  {| clusterName := "";
     attributeMap := {[ AttributeK8SNamespaceName := HostedInAttributeK8SNamespace ]} |}.

(** The [Range] over the resource attributes: the cluster name of the
    first entry whose key starts with the tag prefix and whose value is
    the string [owned]; the loop stops there. *)
Fixpoint findClusterName (resourceAttributes : list (string * Value))
  : option string :=
  match resourceAttributes with
  | [] => None
  | (k, value) :: rest =>
      if HasPrefix k "ec2.tag.kubernetes.io/cluster/"
         && match value with
            | ValueStr s => bool_decide (s = "owned")
            | ValueOther _ => false
            end
      then Some (TrimPrefix k "ec2.tag.kubernetes.io/cluster/")
      else findClusterName rest
  end.

(** [resourceAttributes.Get] of an absent key returns an invalid [Value].
    What [AsString] makes of it is up to the pdata library, which is not
    among the files at hand: [None] stands for a panic. *)
Variable invalidAsString : option string.

(** [platform.AsString()] after
    [platform, _ := resourceAttributes.Get(semconv.AttributeCloudProvider)]. *)
Definition platformOf (resourceAttributes : list (string * Value))
  : option string :=
  match Get resourceAttributes AttributeCloudProvider with
  | Some v => Some (AsString v)
  | None => invalidAsString
  end.

(** [eksHostedInAttributeResolver.Process]: the attributes and the
    resolver after the call and the returned error, or [None] for a
    panic.  The Go map [attributeMap] is ranged over in the order of
    [map_to_list]. *)
Definition HostedIn_Process (h : eksHostedInAttributeResolver)
    (attributes : gmap string Value) (resourceAttributes : list (string * Value))
  : option (gmap string Value * eksHostedInAttributeResolver * error) :=
  let attributes1 :=
    foldl (fun attributes kv =>
             match Get resourceAttributes kv.1 with
             | Some val => PutStr kv.2 (AsString val) attributes
             | None => attributes
             end)
          attributes (map_to_list (attributeMap h)) in
  if decide (clusterName h ≠ "") then
    Some (PutStr HostedInAttributeClusterName (clusterName h) attributes1, h, None)
  else
    match platformOf resourceAttributes with
    | Some platform =>
        if decide (platform = AttributeCloudProviderAWS) then
          match findClusterName resourceAttributes with
          | Some name =>
              Some (PutStr HostedInAttributeClusterName name attributes1,
                    {| clusterName := name; attributeMap := attributeMap h |},
                    None)
          | None => Some (attributes1, h, None)
          end
        else Some (attributes1, h, None)
    | None => None
    end.

End HostedIn.

(** ** The drop rules *)

Section Dropper.

(** [ActionItem], its field [SelectorMatchers] and [matchesSelectors] are
    declared outside the files at hand; [matchesSelectors] takes the
    attributes, the matchers of an action and a flag, and returns whether
    they match and an error. *)
Variables ActionItem Matchers : Type.
Variable SelectorMatchers : ActionItem -> Matchers.
Variable matchesSelectors : gmap string Value -> Matchers -> bool -> bool * error.

(** The loop of [ShouldBeDropped] over [d.Actions]. *)
Fixpoint dropLoop (actions : list ActionItem) (attributes : gmap string Value)
  : bool * error :=
  match actions with
  | [] => (false, None)
  | element :: rest =>
      let '(isMatched, err) :=
        matchesSelectors attributes (SelectorMatchers element) false in
      if isMatched then (true, None)
      else match err with
           | Some e => (false, Some e)
           | None => dropLoop rest attributes
           end
  end.

(** [DropActions.ShouldBeDropped], on the [Actions] of the receiver; a
    [nil] slice is the empty list. *)
Definition ShouldBeDropped (Actions : list ActionItem)
    (attributes : gmap string Value) : bool * error :=
  if Nat.eqb (length Actions) 0 then (false, None)
  else dropLoop Actions attributes.

End Dropper.

Arguments dropLoop {ActionItem Matchers}.
Arguments ShouldBeDropped {ActionItem Matchers}.

(** ** Notions used by the properties *)

(** Both name patterns have the shape [^(.+)-[alphabet]{n}$]. *)
Definition suffixPattern (n : nat) : Regexp :=
  Concat (Capture (Repeat dot 1 None))
    (Concat (Class (lit "-"))
       (Repeat (oneOf kubeAllowedStringAlphaNums) n (Some n))).

(** One to three digits. *)
Definition isOctet (w : string) : Prop :=
  Strings.all digit w = true /\ 1 <= String.length w <= 3.

(** Four such fields separated by dots, then, after a colon, at least one
    digit. *)
Definition IPPortShape (ip port : string) : Prop :=
  (exists a b c d,
     ip = a +:+ "." +:+ b +:+ "." +:+ c +:+ "." +:+ d
     /\ isOctet a /\ isOctet b /\ isOctet c /\ isOctet d)
  /\ port ≠ "" /\ Strings.all digit port = true.

(** The two chains of lookups of the resolver: endpoint to pod to
    workload, and cluster IP to service to workload. *)
Definition podChain (e : State) (ip : string) : option string :=
  ipToPod e !! ip ≫= fun pod => podToWorkloadAndNamespace e !! pod.

Definition serviceChain (e : State) (ip : string) : option string :=
  ipToServiceAndNamespace e !! ip ≫= fun svc => serviceToWorkload e !! svc.

(** [m.Load(key)] on the map that [m] points to: the value stored under
    the key, a string or a label set. *)
Definition Load (m : Index) (k : string) (st : State)
  : option (string + gset string) :=
  match m with
  | IpToPod => inl <$> ipToPod st !! k
  | PodToWorkloadAndNamespace => inl <$> podToWorkloadAndNamespace st !! k
  | WorkloadAndNamespaceToLabels => inr <$> workloadAndNamespaceToLabels st !! k
  | IpToServiceAndNamespace => inl <$> ipToServiceAndNamespace st !! k
  | ServiceAndNamespaceToSelectors => inr <$> serviceAndNamespaceToSelectors st !! k
  | ServiceToWorkload => inl <$> serviceToWorkload st !! k
  end.

(** No cluster IP of a headless service is a key of
    [ipToServiceAndNamespace]. *)
Definition noHeadless (st : State) : Prop :=
  ipToServiceAndNamespace st !! "" = None
  /\ ipToServiceAndNamespace st !! "None" = None.

(** The goroutine that [DeleteWithDelay] starts from the state [st]. *)
Definition scheduled (td : TimedDeleter) (st : State) (m : Index) (k : string)
  : Deletion :=
  {| due := clock st + Delay td; target := m; key := k |}.

(** The pending deletions of pod names. *)
Definition podDeletions (st : State) : list Deletion :=
  filter (fun g => target g = PodToWorkloadAndNamespace) (sleeping st).


(** [grows td s s']: from [s] to [s'] the clock has not moved, the
    goroutines that were added sleep until [Delay td] after the instant of
    [s], and no key has left an index. *)
Definition grows (td : TimedDeleter) (s s' : State) : Prop :=
  clock s' = clock s
  /\ (forall g, g ∈ sleeping s' -> g ∈ sleeping s \/ due g = (clock s + Delay td)%Z)
  /\ (forall m k, is_Some (Load m k s) -> is_Some (Load m k s')).

(** The keys that [handlePodAdd] stores for a pod, and the keys whose
    deletion [onDeletePod] schedules for it. *)
Definition storedEndpoints (pod : Pod) : list string :=
  if pod_HostNetwork pod then hostIPPorts pod
  else if decide (pod_PodIP pod ≠ "") then [pod_PodIP pod]
  else [].

Definition deletedEndpoints (pod : Pod) : list string :=
  if decide (pod_PodIP pod ≠ "") then [pod_PodIP pod]
  else if decide (pod_HostIP pod ≠ "") then hostIPPorts pod
  else [].

(** The pods that are live after an event, by name, each with the object
    that the informer delivered last. *)
Definition liveStep (live : gmap string Pod) (ev : Event) : gmap string Pod :=
  match ev with
  | PodAdd pod => <[pod_Name pod := pod]> live
  | PodUpdate _ newPod => <[pod_Name newPod := newPod]> live
  | PodDelete pod => delete (pod_Name pod) live
  | _ => live
  end.

Definition livePods (evs : list Event) : gmap string Pod := foldl liveStep ∅ evs.

(** The number of live pods whose derived workload is [w]. *)
Definition liveCount (live : gmap string Pod) (w : string) : nat :=
  size (filter (fun kv => getWorkloadAndNamespace kv.2 = w) live).

(** An event that arrives in order, in the state [st] with the pods of
    [live] alive: a pod is added under a name that no live pod has and of
    which no earlier pod has left an entry or a pending deletion in
    [podToWorkloadAndNamespace]; a pod is updated or deleted while it is
    live, and an update keeps its derived workload. *)
Definition orderly (st : State) (live : gmap string Pod) (ev : Event) : Prop :=
  match ev with
  | PodAdd pod =>
      live !! pod_Name pod = None
      /\ podToWorkloadAndNamespace st !! pod_Name pod = None
      /\ Forall (fun g => ~ (target g = PodToWorkloadAndNamespace
                             /\ key g = pod_Name pod)) (sleeping st)
  | PodUpdate oldPod newPod =>
      live !! pod_Name newPod = Some oldPod
      /\ getWorkloadAndNamespace newPod = getWorkloadAndNamespace oldPod
  | PodDelete pod => is_Some (live !! pod_Name pod)
  | _ => True
  end.

Fixpoint orderlyRun (deleter : TimedDeleter) (st : State)
    (live : gmap string Pod) (evs : list Event) : Prop :=
  match evs with
  | [] => True
  | ev :: evs' =>
      orderly st live ev
      /\ orderlyRun deleter (step deleter st ev) (liveStep live ev) evs'
  end.

(** What holds between the store and the live pods along an orderly run. *)
Definition consistent (st : State) (live : gmap string Pod) : Prop :=
  (forall name pod,
     live !! name = Some pod ->
     podToWorkloadAndNamespace st !! name
     = if decide (getWorkloadAndNamespace pod = "") then None
       else Some (getWorkloadAndNamespace pod))
  /\ (forall g, g ∈ podDeletions st -> live !! key g = None)
  /\ (forall w, w ≠ "" -> podCount st w = Z.of_nat (liveCount live w)).

(** The workload [w] is a candidate for a service of namespace
    [serviceNamespace] with the selectors [serviceLabels]: it has labels
    on record, it is in the same, non-empty, namespace, and its labels
    contain the selectors. *)
Definition candidate (st : State) (serviceNamespace : string)
    (serviceLabels : gset string) (w : string) : Prop :=
  exists labels,
    workloadAndNamespaceToLabels st !! w = Some labels
    /\ (extractResourceAndNamespace w).2 = serviceNamespace
    /\ serviceNamespace ≠ ""
    /\ serviceLabels ⊆ labels.

(** The services for which a run of the mapper finds no candidate. *)
Definition unmatchedServices (st : State) : list string :=
  (filter
     (fun kv => matchingWorkloads (extractResourceAndNamespace kv.1).2 kv.2 st = [])
     (map_to_list (serviceAndNamespaceToSelectors st))).*1.

(** The entry logged at info level for a service with several candidates. *)
Definition ambiguityEntry (serviceAndNamespace : string) : LogEntry :=
  {| level := InfoLevel;
     message := "Multiple workloads found for service. You will get unexpected results.";
     fields := [("service", serviceAndNamespace)] |}.

(** ** Notions used by the further properties *)

(** Every endpoint of the pod is a key of [ipToPod], under the name of
    the pod. *)
Definition knowsEndpoints (st : State) (pod : Pod) : Prop :=
  forall k, k ∈ storedEndpoints pod -> ipToPod st !! k = Some (pod_Name pod).

(** Four dot-separated fields of one to three digits. *)
Definition dottedQuad (ip : string) : Prop :=
  exists a b c d,
    ip = a +:+ "." +:+ b +:+ "." +:+ c +:+ "." +:+ d
    /\ isOctet a /\ isOctet b /\ isOctet c /\ isOctet d.

(** ** Cluster objects and stores of the scenarios *)

(** The pod and the service of scenario 1, the pod after a change of its
    labels and of its IP, and a pod of a second Deployment that carries the
    labels selected by the service. *)
Definition cartPod : Pod :=
  {| pod_Name := "cart-6d9f7c4b8z-ab3k9"; pod_Namespace := "shop";
     pod_OwnerReferences :=
       [{| owner_Kind := "ReplicaSet"; owner_Name := "cart-6d9f7c4b8z" |}];
     pod_Labels := {[ "app" := "cart" ]};
     pod_HostNetwork := false; pod_Containers := [];
     pod_HostIP := "10.2.0.1"; pod_PodIP := "10.1.0.5" |}.

Definition cartService : Service :=
  {| svc_Name := "cart"; svc_Namespace := "shop"; svc_ClusterIP := "10.100.0.9";
     svc_Selector := {[ "app" := "cart" ]} |}.

Definition cartPodRelabelled : Pod :=
  {| pod_Name := "cart-6d9f7c4b8z-ab3k9"; pod_Namespace := "shop";
     pod_OwnerReferences :=
       [{| owner_Kind := "ReplicaSet"; owner_Name := "cart-6d9f7c4b8z" |}];
     pod_Labels := {[ "app" := "cart"; "tier" := "web" ]};
     pod_HostNetwork := false; pod_Containers := [];
     pod_HostIP := "10.2.0.1"; pod_PodIP := "10.1.0.6" |}.

Definition canaryPod : Pod :=
  {| pod_Name := "cart-canary-5c8d7f9b6x-q7w2z"; pod_Namespace := "shop";
     pod_OwnerReferences :=
       [{| owner_Kind := "ReplicaSet"; owner_Name := "cart-canary-5c8d7f9b6x" |}];
     pod_Labels := {[ "app" := "cart"; "track" := "canary" ]};
     pod_HostNetwork := false; pod_Containers := [];
     pod_HostIP := "10.2.0.1"; pod_PodIP := "10.1.0.7" |}.

(** A headless service. *)
Definition headlessService : Service :=
  {| svc_Name := "db"; svc_Namespace := "prod"; svc_ClusterIP := "None";
     svc_Selector := {[ "app" := "db" ]} |}.

(** A DaemonSet pod on the host network, as the cluster reports it: its
    pod IP is the IP of its node. *)
Definition hostNetworkPod : Pod :=
  {| pod_Name := "agent-x2k4v"; pod_Namespace := "kube-system";
     pod_OwnerReferences := [{| owner_Kind := "DaemonSet"; owner_Name := "agent" |}];
     pod_Labels := {[ "app" := "agent" ]};
     pod_HostNetwork := true;
     pod_Containers := [{| Ports := [{| HostPort := 8080 |}] |}];
     pod_HostIP := "10.2.0.1"; pod_PodIP := "10.2.0.1" |}.

(** A pod without owner, and the same pod once a StatefulSet has adopted
    it (scenario 5). *)
Definition orphanPod : Pod :=
  {| pod_Name := "db-0"; pod_Namespace := "prod";
     pod_OwnerReferences := []; pod_Labels := {[ "app" := "db" ]};
     pod_HostNetwork := false; pod_Containers := [];
     pod_HostIP := "10.2.0.1"; pod_PodIP := "10.3.0.2" |}.

Definition adoptedPod : Pod :=
  {| pod_Name := "db-0"; pod_Namespace := "prod";
     pod_OwnerReferences := [{| owner_Kind := "StatefulSet"; owner_Name := "db" |}];
     pod_Labels := {[ "app" := "db" ]};
     pod_HostNetwork := false; pod_Containers := [];
     pod_HostIP := "10.2.0.1"; pod_PodIP := "10.3.0.2" |}.

(** A pod known by its IP and by its workload, and a pod known by its IP
    only. *)
Definition resolvedPodState : State :=
  with_podToWorkloadAndNamespace (insert "cart-6d9f7c4b8z-ab3k9" "cart@shop")
    (with_ipToPod (insert "10.1.0.5" "cart-6d9f7c4b8z-ab3k9") newState).

Definition halfKnownPodState : State :=
  with_ipToPod (insert "10.1.0.5" "cart-6d9f7c4b8z-ab3k9") newState.

(** Scenario 2: a host-network pod is known under [HostIP:port]; here the
    bare host IP is known too, for another pod. *)
Definition hostNetworkState : State :=
  with_podToWorkloadAndNamespace
    (insert "agent-x2k4v" "agent@kube-system")
    (with_podToWorkloadAndNamespace
       (insert "proxy-b7d9m" "proxy@kube-system")
       (with_ipToPod (insert "10.2.0.1:8080" "agent-x2k4v")
          (with_ipToPod (insert "10.2.0.1" "proxy-b7d9m") newState))).

Definition hostPortAttributes : gmap string Value :=
  {[ AttributeRemoteService := ValueStr "10.2.0.1:8080" ]}.

(** Scenario 6: an IP that nothing maps; and a value that is not an IP. *)
Definition unknownIPAttributes : gmap string Value :=
  {[ AttributeRemoteService := ValueStr "10.9.9.9" ]}.

Definition hostNameAttributes : gmap string Value :=
  {[ AttributeRemoteService := ValueStr "cart.shop.svc" ]}.

(** A run in which pods come, change and go in order. *)
Definition cartEvents : list Event :=
  [PodAdd cartPod; PodAdd canaryPod; ServiceAdd cartService; MapperRun;
   PodUpdate cartPod cartPodRelabelled; PodDelete canaryPod; Elapse Minute].

(** The store once the pod of scenario 1 is known, once its service has
    been mapped to its only workload, and once a second workload with the
    selected labels has appeared (scenario 4). *)
Definition knownPodState : State := run defaultDeleter newState [PodAdd cartPod].

Definition mappedState : State :=
  run defaultDeleter newState [PodAdd cartPod; ServiceAdd cartService; MapperRun].

Definition ambiguousState : State :=
  run defaultDeleter mappedState [PodAdd canaryPod].


(** * Properties *)

(** ** The definitions at work *)

(** Scenario 1: the pod of a Deployment resolves by its IP, and so does
    its service by its cluster IP once the mapper has run. *)
Example scenario_deployment_pod :
  getWorkloadAndNamespace cartPod = "cart@shop"
  /\ GetWorkloadAndNamespaceByIP mappedState "10.1.0.5" = Some ("cart", "shop")
  /\ GetWorkloadAndNamespaceByIP mappedState "10.100.0.9" = Some ("cart", "shop").
Proof. vm_compute. done. Qed.

(** Scenario 2: a host-network pod resolves by [HostIP:port] only. *)
Example scenario_host_network :
  let st := run defaultDeleter newState [PodAdd hostNetworkPod] in
  GetWorkloadAndNamespaceByIP st "10.2.0.1:8080" = Some ("agent", "kube-system")
  /\ GetWorkloadAndNamespaceByIP st "10.2.0.1" = None.
Proof. vm_compute. done. Qed.

(** Scenario 3: a deleted pod still resolves a minute later, and no longer
    once the delay has passed and the deleter goroutines have run. *)
Example scenario_deferred_delete :
  let deleted := run defaultDeleter mappedState [PodDelete cartPod; Elapse Minute] in
  let late :=
    run defaultDeleter deleted [Elapse Minute; Elapse Second; Resume 0; Resume 0; Resume 0] in
  GetWorkloadAndNamespaceByIP deleted "10.1.0.5" = Some ("cart", "shop")
  /\ GetWorkloadAndNamespaceByIP (run defaultDeleter deleted [Resume 0]) "10.1.0.5"
     = Some ("cart", "shop")
  /\ GetWorkloadAndNamespaceByIP late "10.1.0.5" = None.
Proof. vm_compute. done. Qed.

(** Scenario 5: the pod of a StatefulSet. *)
Example scenario_stateful_set :
  GetWorkloadAndNamespaceByIP (run defaultDeleter newState [PodAdd adoptedPod])
    "10.3.0.2" = Some ("db", "prod").
Proof. vm_compute. done. Qed.

(** The counts along [cartEvents]. *)
Example cartEvents_counts :
  let st := run defaultDeleter newState cartEvents in
  podCount st "cart@shop" = 1%Z /\ podCount st "cart-canary@shop" = 0%Z
  /\ liveCount (livePods cartEvents) "cart@shop" = 1.
Proof. vm_compute. done. Qed.

Example extractWorkloadNameFromRS_cart :
  extractWorkloadNameFromRS "cart-6d9f7c4b8z" = Some "cart".
Proof. vm_compute. reflexivity. Qed.

Example extractIPPort_host_port :
  extractIPPort "10.2.0.1:8080" = Some ("10.2.0.1", "8080").
Proof. vm_compute. reflexivity. Qed.

Example extractIPPort_bare_ip : extractIPPort "10.2.0.1" = None.
Proof. vm_compute. reflexivity. Qed.

Example ParseIPv4_ok : ParseIPv4 "10.9.9.9" = Some [0; 0; 0; 0; 0; 0; 0; 0; 0; 0; 255; 255; 10; 9; 9; 9]%Z.
Proof. vm_compute. reflexivity. Qed.

Example ParseIPv4_bad : ParseIPv4 "10.9.9.256" = None /\ ParseIPv4 "cart" = None /\ ParseIPv4 "" = None /\ ParseIPv4 "01.2.3.4" = None.
Proof. vm_compute. done. Qed.

(** ** Facts about strings *)

Module StringFacts.

Lemma Split_length s sep : length (Strings.Split s sep) = S (Strings.count sep s).
Proof.
  induction s as [|a s IH]; simpl; [done|].
  destruct (Ascii.eqb a sep); simpl; [by rewrite IH|].
  destruct (Strings.Split s sep) as [|piece pieces]; simpl in *; lia.
Qed.

Lemma Split_no_sep s sep : Strings.count sep s = 0 -> Strings.Split s sep = [s].
Proof.
  induction s as [|a s IH]; simpl; [done|].
  destruct (Ascii.eqb a sep); simpl; [lia|].
  intros H. by rewrite IH.
Qed.

Lemma Split_app s1 s2 sep :
  Strings.count sep s1 = 0 ->
  Strings.Split (s1 +:+ String sep s2) sep = s1 :: Strings.Split s2 sep.
Proof.
  induction s1 as [|a s1 IH]; simpl.
  - intros _. by rewrite Ascii.eqb_refl.
  - destruct (Ascii.eqb a sep); simpl; [lia|].
    intros H. by rewrite IH.
Qed.

Lemma length_app (s1 s2 : string) :
  String.length (s1 +:+ s2) = String.length s1 + String.length s2.
Proof. induction s1 as [|x s1 IH]; simpl; [done|by rewrite IH]. Qed.

Lemma take_app (s1 s2 : string) : Strings.take (String.length s1) (s1 +:+ s2) = s1.
Proof. induction s1 as [|x s1 IH]; simpl; [by destruct s2|by rewrite IH]. Qed.

Lemma app_inv_length (a b c d : string) :
  a +:+ b = c +:+ d -> String.length a = String.length c -> a = c /\ b = d.
Proof.
  revert c. induction a as [|x a IH]; intros [|y c]; simpl; try done.
  intros [= -> H] [= Hl]. destruct (IH _ H Hl) as [-> ->]. done.
Qed.

Lemma app_inv_length_r (a b c d : string) :
  a +:+ b = c +:+ d -> String.length b = String.length d -> a = c /\ b = d.
Proof.
  intros H Hl. apply app_inv_length; [done|].
  apply (f_equal String.length) in H. rewrite !length_app in H. lia.
Qed.

Lemma app_cons x (a b : string) : String x a +:+ b = String x (a +:+ b).
Proof. reflexivity. Qed.

Lemma app_assoc (a b c : string) : (a +:+ b) +:+ c = a +:+ (b +:+ c).
Proof. induction a as [|x a IH]; [done|]. rewrite !app_cons. by f_equal. Qed.

Lemma app_nil_r (a : string) : a +:+ "" = a.
Proof. induction a as [|x a IH]; [done|]. rewrite app_cons. by f_equal. Qed.

Lemma all_app p (a b : string) : Strings.all p (a +:+ b) = Strings.all p a && Strings.all p b.
Proof.
  induction a as [|x a IH]; [done|].
  rewrite app_cons. simpl. by rewrite IH, andb_assoc.
Qed.

Lemma count_app c (a b : string) :
  Strings.count c (a +:+ b) = Strings.count c a + Strings.count c b.
Proof.
  induction a as [|x a IH]; [done|].
  rewrite app_cons. simpl. rewrite IH. lia.
Qed.

End StringFacts.

(** ** Namespaced names *)

(** C10.  Splitting what [attachNamespace] builds gives back the name and
    the namespace when neither contains [@]; a string whose number of [@]
    is not exactly one splits to two empty strings. *)
Theorem extractResourceAndNamespace_spec (n ns s : string) :
  (Strings.count "@" n = 0 -> Strings.count "@" ns = 0 ->
   extractResourceAndNamespace (attachNamespace n ns) = (n, ns))
  /\ (Strings.count "@" s ≠ 1 -> extractResourceAndNamespace s = ("", "")).
Proof.
  split.
  - intros Hn Hns. unfold extractResourceAndNamespace, attachNamespace.
    change (n +:+ "@" +:+ ns) with (n +:+ String "@" ns).
    rewrite StringFacts.Split_app by done.
    by rewrite StringFacts.Split_no_sep.
  - intros Hs. unfold extractResourceAndNamespace.
    pose proof (StringFacts.Split_length s "@") as Hlen.
    destruct (Strings.Split s "@") as [|a [|b [|c l]]]; try done.
    simpl in Hlen. lia.
Qed.

Lemma extractResourceAndNamespace_spec_witness :
  (Strings.count "@" "cart" = 0 /\ Strings.count "@" "shop" = 0
   /\ extractResourceAndNamespace (attachNamespace "cart" "shop") = ("cart", "shop"))
  /\ (Strings.count "@" "a@b@c" ≠ 1
      /\ extractResourceAndNamespace "a@b@c" = ("", "")).
Proof.
  split.
  - split; [reflexivity|]. split; [reflexivity|].
    apply (extractResourceAndNamespace_spec "cart" "shop" ""); reflexivity.
  - assert (H : Strings.count "@" "a@b@c" ≠ 1) by (vm_compute; lia).
    split; [exact H|].
    apply (extractResourceAndNamespace_spec "" "" "a@b@c"). exact H.
Defined.

(** The namespace half of a key built by [attachNamespace]. *)
Lemma attachNamespace_ne_empty n ns : attachNamespace n ns ≠ "".
Proof. unfold attachNamespace. by destruct n. Qed.

(** ** The pattern matcher against the meaning of the patterns *)

Module RegexpFacts.

Import StringFacts.

Lemma repeat_sound c s : forall min max rest,
  rest ∈ repeat c min max s ->
  exists w, s = w +:+ rest /\ Strings.all c w = true
            /\ min <= String.length w
            /\ (forall m, max = Some m -> String.length w <= m).
Proof.
  assert (Hstop : forall min max rest (t : string),
    rest ∈ (match min with O => [t] | S _ => [] end) ->
    exists w, t = w +:+ rest /\ Strings.all c w = true
              /\ min <= String.length w
              /\ (forall m, max = Some m -> String.length w <= m)).
  { intros [|min] max rest t Hin; [|by apply elem_of_nil in Hin].
    apply list_elem_of_singleton in Hin as ->.
    exists EmptyString. repeat split; simpl; try done; lia. }
  induction s as [|a s IH]; intros min max rest Hin; simpl in Hin.
  - by apply Hstop.
  - destruct (c a) eqn:Hca; simpl in Hin; [|by apply Hstop].
    case_bool_decide as Hmax; simpl in Hin; [by apply Hstop|].
    apply elem_of_app in Hin as [Hin|Hin]; [|by apply Hstop].
    destruct (IH _ _ _ Hin) as (w & -> & Hall & Hmin & Hm).
    exists (String a w). rewrite app_cons. simpl. rewrite Hca, Hall.
    split; [done|]. split; [done|]. split; [lia|].
    intros m ->. destruct m as [|m]; [done|].
    specialize (Hm m eq_refl). lia.
Qed.

Lemma repeat_complete c w : forall min max rest,
  Strings.all c w = true -> min <= String.length w ->
  (forall m, max = Some m -> String.length w <= m) ->
  rest ∈ repeat c min max (w +:+ rest).
Proof.
  induction w as [|a w IH]; intros min max rest Hall Hmin Hmax.
  - simpl in Hmin. assert (min = 0) as -> by lia.
    change (EmptyString +:+ rest) with rest.
    destruct rest as [|b rest]; simpl; [apply list_elem_of_singleton; done|].
    destruct (c b && negb (bool_decide (max = Some 0)));
      [apply elem_of_app; right|]; by apply list_elem_of_singleton.
  - simpl in Hall. apply andb_true_iff in Hall as [Hca Hall].
    rewrite app_cons. simpl. rewrite Hca. simpl in Hmin.
    rewrite bool_decide_eq_false_2; simpl.
    + apply elem_of_app. left. apply IH; [done|lia|].
      intros m Hm. destruct max as [k|]; [|done].
      injection Hm as <-. specialize (Hmax k eq_refl). simpl in Hmax.
      unfold Init.Nat.pred. destruct k; lia.
    + intros ->. specialize (Hmax 0 eq_refl). simpl in Hmax. lia.
Qed.

Lemma consumed_app (w rest : string) : consumed (w +:+ rest) rest = w.
Proof.
  unfold consumed. rewrite length_app.
  replace (String.length w + String.length rest - String.length rest)
    with (String.length w) by lia.
  apply take_app.
Qed.

Lemma backtrack_sound r : forall s caps rest,
  (caps, rest) ∈ backtrack r s ->
  exists w, s = w +:+ rest /\ Matches r w caps.
Proof.
  induction r as [c|c min max|r1 IH1 r2 IH2|r IH]; intros s caps rest Hin;
    simpl in Hin.
  - destruct s as [|a s]; [by apply elem_of_nil in Hin|].
    destruct (c a) eqn:Hca; [|by apply elem_of_nil in Hin].
    apply list_elem_of_singleton in Hin. simplify_eq.
    exists (String a EmptyString). split; [done|by constructor].
  - apply list_elem_of_fmap in Hin as (rest' & [= -> ->] & Hin).
    destruct (repeat_sound _ _ _ _ _ Hin) as (w & -> & ? & ? & ?).
    exists w. split; [done|by constructor].
  - apply list_elem_of_bind in Hin as ([caps1 s1] & Hin & Hin1).
    apply list_elem_of_bind in Hin as ([caps2 s2] & Hin & Hin2).
    apply list_elem_of_singleton in Hin. simplify_eq.
    destruct (IH1 _ _ _ Hin1) as (w1 & -> & HM1).
    destruct (IH2 _ _ _ Hin2) as (w2 & -> & HM2).
    exists (w1 +:+ w2). rewrite app_assoc. split; [done|by constructor].
  - apply list_elem_of_fmap in Hin as ([caps' rest'] & [= -> ->] & Hin).
    destruct (IH _ _ _ Hin) as (w & -> & HM).
    exists w. split; [done|]. rewrite consumed_app. by constructor.
Qed.

Lemma backtrack_complete r w caps :
  Matches r w caps -> forall rest, (caps, rest) ∈ backtrack r (w +:+ rest).
Proof.
  induction 1 as [c a Hca|c min max w Hall Hmin Hmax
                 |r1 r2 w1 w2 caps1 caps2 _ IH1 _ IH2|r w caps _ IH];
    intros rest; simpl.
  - rewrite Hca. by apply list_elem_of_singleton.
  - apply list_elem_of_fmap. exists rest. split; [done|].
    by apply repeat_complete.
  - apply list_elem_of_bind. exists (caps1, w2 +:+ rest).
    split; [|rewrite app_assoc; apply IH1].
    apply list_elem_of_bind. exists (caps2, rest).
    split; [by apply list_elem_of_singleton|apply IH2].
  - apply list_elem_of_fmap. exists (caps, rest).
    split; [by rewrite consumed_app|apply IH].
Qed.

(** [FindStringSubmatch] returns a match of the whole string, and finds
    one whenever there is one. *)
Lemma FindStringSubmatch_Some r s l :
  FindStringSubmatch r s = Some l ->
  exists caps, l = s :: caps /\ Matches r s caps.
Proof.
  unfold FindStringSubmatch.
  destruct (filter _ _) as [|[caps rest] ms] eqn:Hf; [done|].
  intros [= <-]. exists caps. split; [done|].
  assert (Hin : (caps, rest) ∈ filter (fun m => m.2 = EmptyString) (backtrack r s))
    by (rewrite Hf; left).
  apply list_elem_of_filter in Hin as [Hrest Hin]. simpl in Hrest. subst rest.
  destruct (backtrack_sound _ _ _ _ Hin) as (w & -> & HM).
  by rewrite app_nil_r.
Qed.

Lemma FindStringSubmatch_is_Some r s caps :
  Matches r s caps -> is_Some (FindStringSubmatch r s).
Proof.
  intros HM. unfold FindStringSubmatch.
  destruct (filter _ _) as [|[caps' rest] ms] eqn:Hf; [|done].
  pose proof (backtrack_complete _ _ _ HM EmptyString) as Hin.
  rewrite app_nil_r in Hin.
  assert (Hin' : (caps, EmptyString) ∈ filter (fun m => m.2 = EmptyString) (backtrack r s))
    by (by apply list_elem_of_filter).
  rewrite Hf in Hin'. by apply elem_of_nil in Hin'.
Qed.

Lemma MatchString_true r s :
  MatchString r s = true <-> is_Some (FindStringSubmatch r s).
Proof.
  unfold MatchString, FindStringSubmatch.
  destruct (filter _ _) as [|[caps rest] ms].
  - split; [by intros H%bool_decide_eq_true|by intros [? ?]].
  - split; [by eexists|intros _; by apply bool_decide_eq_true].
Qed.

End RegexpFacts.

(** ** Name parsing *)

Module NameFacts.

Import StringFacts RegexpFacts.

Lemma lit_true b a : lit b a = true -> a = b.
Proof. unfold lit. by intros H%Ascii.eqb_eq. Qed.

Lemma Matches_suffixPattern_inv n s caps :
  Matches (suffixPattern n) s caps ->
  exists p suf,
    s = p +:+ "-" +:+ suf /\ caps = [p] /\ p ≠ ""
    /\ Strings.all dot p = true /\ String.length suf = n
    /\ Strings.all (oneOf kubeAllowedStringAlphaNums) suf = true.
Proof.
  unfold suffixPattern. intros HM.
  inversion HM as [| |r1 r2 w1 w2 caps1 caps2 HM1 HM2|]; subst.
  inversion HM1 as [| | |r w caps HMp]; subst.
  inversion HMp as [|c min max w Hall Hmin Hmax| |]; subst.
  inversion HM2 as [| |r1 r2 w3 w4 caps3 caps4 HM3 HM4|]; subst.
  inversion HM3 as [c a Hca| | |]; subst.
  inversion HM4 as [|c min max w Hall' Hmin' Hmax'| |]; subst.
  apply lit_true in Hca as ->.
  exists w1, w4. split; [done|]. split; [done|].
  split; [by destruct w1; simpl in Hmin; [lia|]|].
  split; [done|]. split; [|done].
  specialize (Hmax' n eq_refl). lia.
Qed.

Lemma Matches_suffixPattern_intro n p suf :
  p ≠ "" -> Strings.all dot p = true -> String.length suf = n ->
  Strings.all (oneOf kubeAllowedStringAlphaNums) suf = true ->
  Matches (suffixPattern n) (p +:+ "-" +:+ suf) [p].
Proof.
  intros Hp Hdot Hlen Hall. unfold suffixPattern.
  apply (Matches_Concat _ _ p ("-" +:+ suf) [p] []).
  - constructor. constructor; [done| |done].
    destruct p; [done|simpl; lia].
  - apply (Matches_Concat _ _ "-" suf [] []).
    + by constructor.
    + constructor; [done|lia|]. intros m [= <-]. lia.
Qed.

(** What [FindStringSubmatch] returns on a name pattern. *)
Lemma FindStringSubmatch_suffixPattern n s :
  FindStringSubmatch (suffixPattern n) s =
    None /\
    (forall q suf, s = q +:+ "-" +:+ suf -> String.length suf = n ->
       Strings.all (oneOf kubeAllowedStringAlphaNums) suf = true ->
       q = "" \/ Strings.all dot q = false)
  \/ exists p suf,
       FindStringSubmatch (suffixPattern n) s = Some [s; p]
       /\ s = p +:+ "-" +:+ suf /\ p ≠ "" /\ Strings.all dot p = true
       /\ String.length suf = n
       /\ Strings.all (oneOf kubeAllowedStringAlphaNums) suf = true.
Proof.
  destruct (FindStringSubmatch (suffixPattern n) s) as [l|] eqn:HF.
  - right. apply FindStringSubmatch_Some in HF as (caps & -> & HM).
    apply Matches_suffixPattern_inv in HM as (p & suf & ? & -> & ?).
    exists p, suf. done.
  - left. split; [done|]. intros q suf -> Hlen Hall.
    destruct (decide (q = "")) as [|Hq]; [by left|right].
    destruct (Strings.all dot q) eqn:Hdot; [|done].
    pose proof (Matches_suffixPattern_intro n q suf Hq Hdot Hlen Hall) as HM.
    apply FindStringSubmatch_is_Some in HM as [l Hl]. congruence.
Qed.

Lemma extract_suffixPattern_Some n p suf :
  p ≠ "" -> Strings.all dot p = true -> String.length suf = n ->
  Strings.all (oneOf kubeAllowedStringAlphaNums) suf = true ->
  FindStringSubmatch (suffixPattern n) (p +:+ "-" +:+ suf)
  = Some [p +:+ "-" +:+ suf; p].
Proof.
  intros Hp Hdot Hlen Hall.
  destruct (FindStringSubmatch_suffixPattern n (p +:+ "-" +:+ suf))
    as [[_ Hno]|(p' & suf' & -> & Heq & _ & _ & Hlen' & _)].
  - destruct (Hno p suf eq_refl Hlen Hall) as [?|?]; congruence.
  - do 2 f_equal. f_equal.
    apply app_inv_length_r in Heq as [? _]; [done|].
    by rewrite !length_app, Hlen, Hlen'.
Qed.

Lemma extract_suffixPattern_None n s :
  (forall q suf, s = q +:+ "-" +:+ suf -> String.length suf = n ->
     Strings.all (oneOf kubeAllowedStringAlphaNums) suf = false) ->
  FindStringSubmatch (suffixPattern n) s = None.
Proof.
  intros Hno.
  destruct (FindStringSubmatch_suffixPattern n s)
    as [[? _]|(p & suf & _ & Heq & _ & _ & Hlen & Hall)]; [done|].
  rewrite (Hno _ _ Heq Hlen) in Hall. done.
Qed.

End NameFacts.

(** C7, as the code has it.  A ReplicaSet name made of a non-empty prefix
    without line feed, a dash and ten characters of the vowel-free alphabet
    parses to the prefix; a name that is not some prefix, a dash and ten
    characters of that alphabet is rejected. *)
Theorem extractWorkloadNameFromRS_spec (p suffix name : string) :
  (p ≠ "" -> Strings.all dot p = true -> String.length suffix = 10 ->
   Strings.all (oneOf kubeAllowedStringAlphaNums) suffix = true ->
   extractWorkloadNameFromRS (p +:+ "-" +:+ suffix) = Some p)
  /\ ((forall q suf, name = q +:+ "-" +:+ suf -> String.length suf = 10 ->
         Strings.all (oneOf kubeAllowedStringAlphaNums) suf = false) ->
      extractWorkloadNameFromRS name = None).
Proof.
  unfold extractWorkloadNameFromRS.
  change deploymentFromReplicaSetPattern with (suffixPattern 10).
  split.
  - intros Hp Hdot Hlen Hall.
    by rewrite (NameFacts.extract_suffixPattern_Some 10 p suffix).
  - intros Hno. by rewrite (NameFacts.extract_suffixPattern_None 10 name).
Qed.

(** X20.  [extractWorkloadNameFromPodName] returns the prefix of a pod name
    made of a non-empty prefix without line feed, a dash and five
    characters of the alphabet, and nothing for a name that does not end
    in a dash and five characters of the alphabet. *)
Lemma extractWorkloadNameFromPodName_spec (p suffix name : string) :
  (p ≠ "" -> Strings.all dot p = true -> String.length suffix = 5 ->
   Strings.all (oneOf kubeAllowedStringAlphaNums) suffix = true ->
   extractWorkloadNameFromPodName (p +:+ "-" +:+ suffix) = Some p)
  /\ ((forall q suf, name = q +:+ "-" +:+ suf -> String.length suf = 5 ->
         Strings.all (oneOf kubeAllowedStringAlphaNums) suf = false) ->
      extractWorkloadNameFromPodName name = None).
Proof.
  unfold extractWorkloadNameFromPodName.
  change replicaSetFromPodPattern with (suffixPattern 5).
  split.
  - intros Hp Hdot Hlen Hall.
    by rewrite (NameFacts.extract_suffixPattern_Some 5 p suffix).
  - intros Hno. by rewrite (NameFacts.extract_suffixPattern_None 5 name).
Qed.

Lemma extractWorkloadNameFromRS_spec_witness :
  ("cart" ≠ "" /\ Strings.all dot "cart" = true
   /\ String.length "6d9f7c4b8z" = 10
   /\ Strings.all (oneOf kubeAllowedStringAlphaNums) "6d9f7c4b8z" = true
   /\ extractWorkloadNameFromRS ("cart" +:+ "-" +:+ "6d9f7c4b8z") = Some "cart")
  /\ ((forall q suf, "cart-6d9f7c4b8a" = q +:+ "-" +:+ suf ->
         String.length suf = 10 ->
         Strings.all (oneOf kubeAllowedStringAlphaNums) suf = false)
      /\ extractWorkloadNameFromRS "cart-6d9f7c4b8a" = None).
Proof.
  assert (H : forall q suf, "cart-6d9f7c4b8a" = q +:+ "-" +:+ suf ->
                String.length suf = 10 ->
                Strings.all (oneOf kubeAllowedStringAlphaNums) suf = false).
  { intros q suf Heq Hlen.
    change "cart-6d9f7c4b8a" with ("cart" +:+ "-" +:+ "6d9f7c4b8a") in Heq.
    apply StringFacts.app_inv_length_r in Heq as [_ Heq].
    - cbv in Heq. injection Heq as <-. reflexivity.
    - rewrite !StringFacts.length_app, Hlen. reflexivity. }
  split.
  - split; [done|]. split; [reflexivity|]. split; [reflexivity|].
    split; [reflexivity|].
    apply (extractWorkloadNameFromRS_spec "cart" "6d9f7c4b8z" "");
      [done|reflexivity|reflexivity|reflexivity].
  - split; [exact H|].
    apply (extractWorkloadNameFromRS_spec "" "" "cart-6d9f7c4b8a"). exact H.
Defined.

(** A prefix with a line feed is not matched by [.+]: the name is rejected
    although it is a non-empty prefix, a dash and ten characters of the
    alphabet. *)
Lemma extractWorkloadNameFromRS_line_feed :
  let p := String "a" (String "010" "b") in
  let suffix := "6d9f7c4b8z" in
  p ≠ "" /\ String.length suffix = 10
  /\ Strings.all (oneOf kubeAllowedStringAlphaNums) suffix = true
  /\ extractWorkloadNameFromRS (p +:+ "-" +:+ suffix) = None
  /\ extractWorkloadNameFromRS (p +:+ "-" +:+ suffix) ≠ Some p.
Proof. vm_compute. repeat split; done. Qed.

(** ** Resolution by IP *)

Lemma GetWorkloadAndNamespaceByIP_chains e ip :
  GetWorkloadAndNamespaceByIP e ip =
    extractResourceAndNamespace <$>
      (match podChain e ip with
       | Some wk => Some wk
       | None => serviceChain e ip
       end).
Proof.
  unfold GetWorkloadAndNamespaceByIP, podChain, serviceChain.
  destruct (ipToPod e !! ip) as [pod|]; simpl;
    [destruct (podToWorkloadAndNamespace e !! pod); simpl; [done|]|];
    (destruct (ipToServiceAndNamespace e !! ip) as [svc|]; simpl; [|done];
     by destruct (serviceToWorkload e !! svc)).
Qed.

(** C1.  The pod chain is tried first and wins when both of its lookups
    hit; otherwise the service chain is tried; the lookup fails exactly
    when neither chain hits fully, so a pod entry whose pod has no workload
    yet gives no answer rather than a wrong one. *)
Theorem GetWorkloadAndNamespaceByIP_spec (e : State) (ip : string) :
  (forall pod wk,
     ipToPod e !! ip = Some pod -> podToWorkloadAndNamespace e !! pod = Some wk ->
     GetWorkloadAndNamespaceByIP e ip = Some (extractResourceAndNamespace wk))
  /\ (forall svc wk,
        podChain e ip = None ->
        ipToServiceAndNamespace e !! ip = Some svc ->
        serviceToWorkload e !! svc = Some wk ->
        GetWorkloadAndNamespaceByIP e ip = Some (extractResourceAndNamespace wk))
  /\ (GetWorkloadAndNamespaceByIP e ip = None
      <-> podChain e ip = None /\ serviceChain e ip = None)
  /\ (forall pod,
        ipToPod e !! ip = Some pod -> podToWorkloadAndNamespace e !! pod = None ->
        serviceChain e ip = None ->
        GetWorkloadAndNamespaceByIP e ip = None)
  /\ (forall answer,
        GetWorkloadAndNamespaceByIP e ip = Some answer ->
        exists wk, answer = extractResourceAndNamespace wk
                   /\ (podChain e ip = Some wk
                       \/ podChain e ip = None /\ serviceChain e ip = Some wk)).
Proof.
  rewrite GetWorkloadAndNamespaceByIP_chains.
  repeat split.
  - intros pod wk Hpod Hwk. unfold podChain. by rewrite Hpod; simpl; rewrite Hwk.
  - intros svc wk -> Hsvc Hwk. unfold serviceChain.
    by rewrite Hsvc; simpl; rewrite Hwk.
  - by destruct (podChain e ip).
  - destruct (podChain e ip); [done|]. by destruct (serviceChain e ip).
  - intros [-> ->]. done.
  - intros pod Hpod Hwk ->. unfold podChain.
    by rewrite Hpod; simpl; rewrite Hwk.
  - intros answer Hans. destruct (podChain e ip) as [wk|] eqn:Hp; simpl in Hans.
    + exists wk. split; [congruence|by left].
    + destruct (serviceChain e ip) as [wk|]; simpl in Hans; [|done].
      exists wk. split; [congruence|by right].
Qed.

Lemma GetWorkloadAndNamespaceByIP_spec_witness :
  (ipToPod resolvedPodState !! "10.1.0.5" = Some "cart-6d9f7c4b8z-ab3k9"
   /\ podToWorkloadAndNamespace resolvedPodState !! "cart-6d9f7c4b8z-ab3k9"
      = Some "cart@shop"
   /\ GetWorkloadAndNamespaceByIP resolvedPodState "10.1.0.5"
      = Some (extractResourceAndNamespace "cart@shop"))
  /\ (ipToPod halfKnownPodState !! "10.1.0.5" = Some "cart-6d9f7c4b8z-ab3k9"
      /\ podToWorkloadAndNamespace halfKnownPodState !! "cart-6d9f7c4b8z-ab3k9"
         = None
      /\ serviceChain halfKnownPodState "10.1.0.5" = None
      /\ GetWorkloadAndNamespaceByIP halfKnownPodState "10.1.0.5" = None).
Proof.
  split.
  - split; [reflexivity|]. split; [reflexivity|].
    apply (proj1 (GetWorkloadAndNamespaceByIP_spec resolvedPodState "10.1.0.5")
             "cart-6d9f7c4b8z-ab3k9" "cart@shop"); reflexivity.
  - split; [reflexivity|]. split; [reflexivity|]. split; [reflexivity|].
    apply (proj1 (proj2 (proj2 (proj2
             (GetWorkloadAndNamespaceByIP_spec halfKnownPodState "10.1.0.5"))))
             "cart-6d9f7c4b8z-ab3k9"); reflexivity.
Defined.

(** ** The [IP:port] shape *)

Module IPPortFacts.

Import StringFacts RegexpFacts.

Lemma Matches_octet_inv w caps :
  Matches octet w caps -> caps = [] /\ isOctet w.
Proof.
  unfold octet. intros HM.
  inversion HM as [|c min max w' Hall Hmin Hmax| |]; subst.
  specialize (Hmax 3 eq_refl). done.
Qed.

Lemma Matches_lit_inv b w caps :
  Matches (Class (lit b)) w caps -> caps = [] /\ w = String b "".
Proof.
  intros HM. inversion HM as [c a Hca| | |]; subst.
  apply NameFacts.lit_true in Hca as ->. done.
Qed.

Lemma Matches_Concat_inv r1 r2 w caps :
  Matches (Concat r1 r2) w caps ->
  exists w1 w2 caps1 caps2,
    w = w1 +:+ w2 /\ caps = caps1 ++ caps2
    /\ Matches r1 w1 caps1 /\ Matches r2 w2 caps2.
Proof. intros HM. inversion HM; subst. by eexists _, _, _, _. Qed.

Lemma Matches_Capture_inv r w caps :
  Matches (Capture r) w caps ->
  exists caps', caps = w :: caps' /\ Matches r w caps'.
Proof. intros HM. inversion HM; subst. by eexists. Qed.

Lemma Matches_ipPortRegex_inv s caps :
  Matches ipPortRegex s caps ->
  exists ip port,
    s = ip +:+ ":" +:+ port /\ caps = [ip; port] /\ IPPortShape ip port.
Proof.
  unfold ipPortRegex. intros HM.
  apply Matches_Concat_inv in HM as (ip & rest & c1 & c2 & -> & -> & HM1 & HM2).
  apply Matches_Capture_inv in HM1 as (c1' & -> & HM1).
  apply Matches_Concat_inv in HM1 as (a & r1 & ? & ? & -> & -> & Ha & HM1).
  apply Matches_octet_inv in Ha as [-> Ha].
  apply Matches_Concat_inv in HM1 as (? & r2 & ? & ? & -> & -> & Hd & HM1).
  apply Matches_lit_inv in Hd as [-> ->].
  apply Matches_Concat_inv in HM1 as (b & r3 & ? & ? & -> & -> & Hb & HM1).
  apply Matches_octet_inv in Hb as [-> Hb].
  apply Matches_Concat_inv in HM1 as (? & r4 & ? & ? & -> & -> & Hd & HM1).
  apply Matches_lit_inv in Hd as [-> ->].
  apply Matches_Concat_inv in HM1 as (c & r5 & ? & ? & -> & -> & Hc & HM1).
  apply Matches_octet_inv in Hc as [-> Hc].
  apply Matches_Concat_inv in HM1 as (? & d & ? & ? & -> & -> & Hd & HM1).
  apply Matches_lit_inv in Hd as [-> ->].
  apply Matches_octet_inv in HM1 as [-> Hd].
  apply Matches_Concat_inv in HM2 as (? & port & ? & ? & -> & -> & Hcolon & HM2).
  apply Matches_lit_inv in Hcolon as [-> ->].
  apply Matches_Capture_inv in HM2 as (? & -> & HM2).
  inversion HM2 as [|? ? ? ? Hall Hmin _| |]; subst.
  eexists _, port. split; [done|]. split; [done|].
  split; [by exists a, b, c, d|].
  split; [by destruct port; simpl in Hmin; [lia|]|done].
Qed.

Lemma Matches_ipPortRegex_intro ip port :
  IPPortShape ip port -> Matches ipPortRegex (ip +:+ ":" +:+ port) [ip; port].
Proof.
  intros [(a & b & c & d & -> & Ha & Hb & Hc & Hd) [Hport Hdig]].
  assert (Hoct : forall w, isOctet w -> Matches octet w []).
  { intros w [Hall [Hmin Hmax]]. constructor; [done..|]. by intros m [= <-]. }
  unfold ipPortRegex.
  apply (Matches_Concat _ _ _ _ [_] [_]).
  - constructor.
    apply (Matches_Concat _ _ a _ [] []); [by apply Hoct|].
    apply (Matches_Concat _ _ "." _ [] []); [by constructor|].
    apply (Matches_Concat _ _ b _ [] []); [by apply Hoct|].
    apply (Matches_Concat _ _ "." _ [] []); [by constructor|].
    apply (Matches_Concat _ _ c _ [] []); [by apply Hoct|].
    apply (Matches_Concat _ _ "." _ [] []); [by constructor|].
    by apply Hoct.
  - apply (Matches_Concat _ _ ":" _ [] [_]); [by constructor|].
    constructor. constructor; [done| |done].
    destruct port; [done|simpl; lia].
Qed.

Lemma digits_no_colon w : Strings.all digit w = true -> Strings.count ":" w = 0.
Proof.
  induction w as [|a w IH]; simpl; [done|].
  intros [Ha Hw]%andb_true_iff. rewrite IH by done.
  destruct (Ascii.eqb a ":") eqn:E; [|done].
  apply Ascii.eqb_eq in E as ->. done.
Qed.

Lemma shape_no_colon ip port : IPPortShape ip port -> Strings.count ":" ip = 0.
Proof.
  intros [(a & b & c & d & -> & [Ha _] & [Hb _] & [Hc _] & [Hd _]) _].
  rewrite !count_app, (digits_no_colon a), (digits_no_colon b),
    (digits_no_colon c), (digits_no_colon d) by done.
  reflexivity.
Qed.

Lemma split_at_first_colon (a b c d : string) :
  a +:+ ":" +:+ b = c +:+ ":" +:+ d ->
  Strings.count ":" a = 0 -> Strings.count ":" c = 0 -> a = c /\ b = d.
Proof.
  revert c. induction a as [|x a IH]; intros [|y c] Heq Ha Hc.
  - by injection Heq.
  - injection Heq as <- _. simpl in Hc. done.
  - injection Heq as -> _. simpl in Ha. done.
  - rewrite !app_cons in Heq. injection Heq as -> Heq.
    simpl in Ha, Hc. destruct (Ascii.eqb y ":"); [done|].
    destruct (IH c Heq Ha Hc) as [-> ->]. done.
Qed.

End IPPortFacts.

(** [extractIPPort] succeeds exactly on the strings of the shape
    [IP:port], and returns the two parts. *)
Lemma extractIPPort_Some_inv s ip port :
  extractIPPort s = Some (ip, port) ->
  s = ip +:+ ":" +:+ port /\ IPPortShape ip port.
Proof.
  unfold extractIPPort. destruct (MatchString ipPortRegex s); simpl; [|done].
  destruct (FindStringSubmatch ipPortRegex s) as [l|] eqn:HF; [|done].
  apply RegexpFacts.FindStringSubmatch_Some in HF as (caps & -> & HM).
  apply IPPortFacts.Matches_ipPortRegex_inv in HM as (ip' & port' & ? & -> & ?).
  by intros [= <- <-].
Qed.

Lemma extractIPPort_shape ip port :
  IPPortShape ip port -> extractIPPort (ip +:+ ":" +:+ port) = Some (ip, port).
Proof.
  intros Hshape. unfold extractIPPort.
  pose proof (IPPortFacts.Matches_ipPortRegex_intro _ _ Hshape) as HM.
  pose proof (RegexpFacts.FindStringSubmatch_is_Some _ _ _ HM) as Hsome.
  rewrite (proj2 (RegexpFacts.MatchString_true _ _) Hsome). simpl.
  destruct Hsome as [l HF]. rewrite HF.
  apply RegexpFacts.FindStringSubmatch_Some in HF as (caps & -> & HM').
  apply IPPortFacts.Matches_ipPortRegex_inv in HM'
    as (ip' & port' & Heq & -> & Hshape').
  apply IPPortFacts.split_at_first_colon in Heq as [-> ->];
    [done|by eapply IPPortFacts.shape_no_colon..].
Qed.

Lemma extractIPPort_None s :
  extractIPPort s = None <->
  forall ip port, s = ip +:+ ":" +:+ port -> ~ IPPortShape ip port.
Proof.
  split.
  - intros Hnone ip port -> Hshape.
    by rewrite (extractIPPort_shape _ _ Hshape) in Hnone.
  - intros Hno. destruct (extractIPPort s) as [[ip port]|] eqn:HE; [|done].
    apply extractIPPort_Some_inv in HE as [-> Hshape].
    by destruct (Hno _ _ eq_refl).
Qed.

(** ** Attribute enrichment *)

Section EnrichFacts.

Variable ParseIP : string -> option (list Z).

(** [net.ParseIP] rejects the empty string. *)
Hypothesis ParseIP_empty : ParseIP "" = None.

Lemma AttributeRemote_ne : AttributeRemoteService ≠ AttributeRemoteNamespace.
Proof. done. Qed.

Lemma extractIPPort_ip_ne_empty s ip port :
  extractIPPort s = Some (ip, port) -> ip ≠ "".
Proof.
  intros [_ [(a & b & c & d & -> & [_ Ha] & _) _]]%extractIPPort_Some_inv.
  destruct a; simpl in Ha; [lia|done].
Qed.

Lemma isIP_ne_empty s : isIP ParseIP s = true -> s ≠ "".
Proof. unfold isIP. intros H ->. by rewrite ParseIP_empty in H. Qed.

(** C2.  [Process] always returns a nil error.  When the service attribute
    holds an [IP:port] value for which neither the full value nor the IP
    resolves, or a bare IP that does not resolve, the attribute becomes
    [UnknownRemoteService] and the namespace attribute is as it was.  When
    the value is neither of the [IP:port] shape nor a parseable IP, the
    attributes are left as they were. *)
Theorem Process_unresolved (e : State)
    (attributes resourceAttributes : gmap string Value) :
  (Process ParseIP e attributes resourceAttributes).2 = None
  /\ (forall value,
        attributes !! AttributeRemoteService = Some value ->
        (exists ip port,
           extractIPPort (AsString value) = Some (ip, port)
           /\ GetWorkloadAndNamespaceByIP e (AsString value) = None
           /\ GetWorkloadAndNamespaceByIP e ip = None)
        \/ (extractIPPort (AsString value) = None
            /\ isIP ParseIP (AsString value) = true
            /\ GetWorkloadAndNamespaceByIP e (AsString value) = None) ->
        (Process ParseIP e attributes resourceAttributes).1.1
        = PutStr AttributeRemoteService "UnknownRemoteService" attributes
        /\ (Process ParseIP e attributes resourceAttributes).1.1
             !! AttributeRemoteNamespace
           = attributes !! AttributeRemoteNamespace)
  /\ (forall value,
        attributes !! AttributeRemoteService = Some value ->
        extractIPPort (AsString value) = None ->
        isIP ParseIP (AsString value) = false ->
        (Process ParseIP e attributes resourceAttributes).1.1 = attributes).
Proof.
  split; [|split].
  - unfold Process. destruct (attributes !! AttributeRemoteService); [|done].
    destruct (lookupFull _ _ _ _) as [attributes1 ipStr].
    case_decide; [|done].
    by destruct (GetWorkloadAndNamespaceByIP e ipStr) as [[? ?]|].
  - intros value Hvalue Hcase.
    assert (Hres : (Process ParseIP e attributes resourceAttributes).1.1
                   = PutStr AttributeRemoteService "UnknownRemoteService" attributes).
    { unfold Process, lookupFull. rewrite Hvalue.
      destruct Hcase as [(ip & port & Hx & Hfull & Hip)|(Hx & Hisip & Hfull)].
      - rewrite Hx, Hfull.
        rewrite decide_True by (by eapply extractIPPort_ip_ne_empty).
        by rewrite Hip.
      - rewrite Hx, Hisip.
        rewrite decide_True by (by apply isIP_ne_empty).
        by rewrite Hfull. }
    split; [done|]. rewrite Hres. unfold PutStr.
    apply lookup_insert_ne, AttributeRemote_ne.
  - intros value Hvalue Hx Hisip. unfold Process, lookupFull.
    by rewrite Hvalue, Hx, Hisip.
Qed.

(** C3.  A value of the [IP:port] shape is resolved as a whole first and,
    only when that misses, by its IP part; a bare IP is resolved as it is;
    the attempt that succeeds writes the workload and the namespace. *)
Theorem Process_resolved (e : State)
    (attributes resourceAttributes : gmap string Value)
    (value : Value) (workload namespace : string) :
  attributes !! AttributeRemoteService = Some value ->
  (forall ip port,
     extractIPPort (AsString value) = Some (ip, port) ->
     AsString value = ip +:+ ":" +:+ port
     /\ (GetWorkloadAndNamespaceByIP e (AsString value) = Some (workload, namespace) ->
         (Process ParseIP e attributes resourceAttributes).1.1
         = PutStr AttributeRemoteNamespace namespace
             (PutStr AttributeRemoteService workload attributes))
     /\ (GetWorkloadAndNamespaceByIP e (AsString value) = None ->
         GetWorkloadAndNamespaceByIP e ip = Some (workload, namespace) ->
         (Process ParseIP e attributes resourceAttributes).1.1
         = PutStr AttributeRemoteNamespace namespace
             (PutStr AttributeRemoteService workload attributes)))
  /\ (extractIPPort (AsString value) = None ->
      isIP ParseIP (AsString value) = true ->
      GetWorkloadAndNamespaceByIP e (AsString value) = Some (workload, namespace) ->
      (Process ParseIP e attributes resourceAttributes).1.1
      = PutStr AttributeRemoteNamespace namespace
          (PutStr AttributeRemoteService workload attributes)).
Proof.
  intros Hvalue. split.
  - intros ip port Hx. split; [by apply extractIPPort_Some_inv in Hx as [? _]|].
    split.
    + intros Hfull. unfold Process, lookupFull.
      by rewrite Hvalue, Hx, Hfull.
    + intros Hfull Hip. unfold Process, lookupFull.
      rewrite Hvalue, Hx, Hfull.
      rewrite decide_True by (by eapply extractIPPort_ip_ne_empty).
      by rewrite Hip.
  - intros Hx Hisip Hfull. unfold Process, lookupFull.
    rewrite Hvalue, Hx, Hisip.
    rewrite decide_True by (by apply isIP_ne_empty).
    by rewrite Hfull.
Qed.

End EnrichFacts.

Lemma Process_unresolved_witness :
  ParseIPv4 "" = None
  /\ (unknownIPAttributes !! AttributeRemoteService = Some (ValueStr "10.9.9.9")
      /\ extractIPPort "10.9.9.9" = None
      /\ isIP ParseIPv4 "10.9.9.9" = true
      /\ GetWorkloadAndNamespaceByIP newState "10.9.9.9" = None
      /\ (Process ParseIPv4 newState unknownIPAttributes ∅).1.1
         = PutStr AttributeRemoteService "UnknownRemoteService" unknownIPAttributes
      /\ (Process ParseIPv4 newState unknownIPAttributes ∅).1.1
           !! AttributeRemoteNamespace = None)
  /\ (hostNameAttributes !! AttributeRemoteService = Some (ValueStr "cart.shop.svc")
      /\ extractIPPort "cart.shop.svc" = None
      /\ isIP ParseIPv4 "cart.shop.svc" = false
      /\ (Process ParseIPv4 newState hostNameAttributes ∅).1.1 = hostNameAttributes).
Proof.
  assert (H0 : ParseIPv4 "" = None) by reflexivity.
  assert (H1 : unknownIPAttributes !! AttributeRemoteService
               = Some (ValueStr "10.9.9.9")) by reflexivity.
  assert (H2 : extractIPPort "10.9.9.9" = None) by (vm_compute; reflexivity).
  assert (H3 : isIP ParseIPv4 "10.9.9.9" = true) by (vm_compute; reflexivity).
  assert (H4 : GetWorkloadAndNamespaceByIP newState "10.9.9.9" = None)
    by reflexivity.
  assert (H5 : hostNameAttributes !! AttributeRemoteService
               = Some (ValueStr "cart.shop.svc")) by reflexivity.
  assert (H6 : extractIPPort "cart.shop.svc" = None) by (vm_compute; reflexivity).
  assert (H7 : isIP ParseIPv4 "cart.shop.svc" = false) by (vm_compute; reflexivity).
  split; [exact H0|]. split.
  - split; [exact H1|]. split; [exact H2|]. split; [exact H3|].
    split; [exact H4|].
    destruct (proj1 (proj2 (Process_unresolved ParseIPv4 H0 newState
                              unknownIPAttributes ∅))
                (ValueStr "10.9.9.9") H1 (or_intror (conj H2 (conj H3 H4))))
      as [Hputs Hns].
    split; [exact Hputs|]. rewrite Hns. reflexivity.
  - split; [exact H5|]. split; [exact H6|]. split; [exact H7|].
    exact (proj2 (proj2 (Process_unresolved ParseIPv4 H0 newState
                           hostNameAttributes ∅))
             (ValueStr "cart.shop.svc") H5 H6 H7).
Defined.

Lemma Process_resolved_witness :
  ParseIPv4 "" = None
  /\ hostPortAttributes !! AttributeRemoteService = Some (ValueStr "10.2.0.1:8080")
  /\ extractIPPort "10.2.0.1:8080" = Some ("10.2.0.1", "8080")
  /\ GetWorkloadAndNamespaceByIP hostNetworkState "10.2.0.1:8080"
     = Some ("agent", "kube-system")
  /\ GetWorkloadAndNamespaceByIP hostNetworkState "10.2.0.1"
     = Some ("proxy", "kube-system")
  /\ (Process ParseIPv4 hostNetworkState hostPortAttributes ∅).1.1
     = PutStr AttributeRemoteNamespace "kube-system"
         (PutStr AttributeRemoteService "agent" hostPortAttributes).
Proof.
  assert (H0 : ParseIPv4 "" = None) by reflexivity.
  assert (H1 : hostPortAttributes !! AttributeRemoteService
               = Some (ValueStr "10.2.0.1:8080")) by reflexivity.
  assert (H2 : extractIPPort "10.2.0.1:8080" = Some ("10.2.0.1", "8080"))
    by (vm_compute; reflexivity).
  assert (H3 : GetWorkloadAndNamespaceByIP hostNetworkState "10.2.0.1:8080"
               = Some ("agent", "kube-system")) by (vm_compute; reflexivity).
  assert (H4 : GetWorkloadAndNamespaceByIP hostNetworkState "10.2.0.1"
               = Some ("proxy", "kube-system")) by (vm_compute; reflexivity).
  split; [exact H0|]. split; [exact H1|]. split; [exact H2|].
  split; [exact H3|]. split; [exact H4|].
  exact (proj1 (proj2 (proj1 (Process_resolved ParseIPv4 H0 hostNetworkState
                                hostPortAttributes ∅ (ValueStr "10.2.0.1:8080")
                                "agent" "kube-system" H1)
                         "10.2.0.1" "8080" H2)) H3).
Defined.

(** ** What the handlers leave alone *)

Lemma foldl_preserve {A B} (proj : State -> B) (f : State -> A -> State) l st :
  (forall s x, proj (f s x) = proj s) -> proj (foldl f st l) = proj st.
Proof.
  intros Hf. revert st. induction l as [|x l IH]; intros st; simpl; [done|].
  by rewrite IH.
Qed.

Lemma foldl_invariant {A} (P : State -> Prop) (f : State -> A -> State) l st :
  (forall s x, P s -> P (f s x)) -> P st -> P (foldl f st l).
Proof.
  intros Hf. revert st. induction l as [|x l IH]; intros st; simpl; [done|].
  intros HP. by apply IH, Hf.
Qed.

Ltac unfold_handlers :=
  unfold step, run, onAddOrUpdatePod, onDeletePod, onAddOrUpdateService,
    onDeleteService, handlePodAdd, handlePodUpdate, updateHostNetworkRecords,
    removeHostNetworkRecords, MapServiceToWorkload, mapService, tick, wake,
    Debug, Info, DeleteWithDelay, TimedDeleter_Deleter, Delete in *.

Ltac frame :=
  repeat first
    [ reflexivity
    | rewrite foldl_preserve by (intros; frame)
    | progress simpl
    | case_decide
    | case_match ].

(** ** Service events: no headless cluster IP *)

Lemma onAddOrUpdateService_ipToServiceAndNamespace service st :
  ipToServiceAndNamespace (onAddOrUpdateService service st) =
    if decide (svc_ClusterIP service ≠ "" ∧ svc_ClusterIP service ≠ "None")
    then <[svc_ClusterIP service := getServiceAndNamespace service]>
           (ipToServiceAndNamespace st)
    else ipToServiceAndNamespace st.
Proof. unfold onAddOrUpdateService. by repeat case_decide. Qed.

Lemma onDeleteService_ipToServiceAndNamespace service (deleter : TimedDeleter) st :
  ipToServiceAndNamespace (onDeleteService service deleter st)
  = ipToServiceAndNamespace st.
Proof. unfold_handlers. frame. Qed.

Lemma wake_ipToServiceAndNamespace i st st' :
  wake i st = Some st' ->
  ipToServiceAndNamespace st' = ipToServiceAndNamespace st
  \/ exists k, ipToServiceAndNamespace st' = delete k (ipToServiceAndNamespace st).
Proof.
  unfold wake. destruct (sleeping st !! i) as [g|]; [|done].
  case_decide; [|done]. intros [= <-].
  destruct (target g); simpl; eauto.
Qed.

(** Every step other than a service Add or Update and the resumption of a
    deleter goroutine leaves [ipToServiceAndNamespace] alone. *)
Lemma step_ipToServiceAndNamespace deleter st ev :
  match ev with
  | ServiceAdd _ | ServiceUpdate _ _ | Resume _ => True
  | _ => ipToServiceAndNamespace (step deleter st ev) = ipToServiceAndNamespace st
  end.
Proof. destruct ev; try done; unfold_handlers; frame. Qed.

Lemma step_noHeadless deleter st ev : noHeadless st -> noHeadless (step deleter st ev).
Proof.
  intros [Hempty Hnone]. unfold noHeadless.
  pose proof (step_ipToServiceAndNamespace deleter st ev) as Hstep.
  destruct ev; try (by rewrite Hstep); clear Hstep; simpl.
  - rewrite onAddOrUpdateService_ipToServiceAndNamespace. simpl.
    case_decide as Hip; [|done]. destruct Hip. by rewrite !lookup_insert_ne.
  - rewrite onAddOrUpdateService_ipToServiceAndNamespace. simpl.
    case_decide as Hip; [|done]. destruct Hip. by rewrite !lookup_insert_ne.
  - destruct (wake i st) as [st'|] eqn:Hw; simpl; [|done].
    destruct (wake_ipToServiceAndNamespace _ _ _ Hw) as [->|[k ->]]; [done|].
    by rewrite !lookup_delete_None; auto.
Qed.

Lemma run_noHeadless deleter evs st :
  noHeadless st -> noHeadless (run deleter st evs).
Proof.
  unfold run. apply foldl_invariant. intros s ev. apply step_noHeadless.
Qed.

(** C8.  After any sequence of events, [ipToServiceAndNamespace] has no
    entry under the empty string or under [None]: the Add and Update
    handler only ever writes under a cluster IP that is neither, and the
    Delete handler and the deleter goroutines it starts add no key. *)
Theorem ipToServiceAndNamespace_never_headless
    (deleter : TimedDeleter) (evs : list Event) (st : State)
    (service : Service) (k : string) (i : nat) :
  (ipToServiceAndNamespace (run deleter newState evs) !! "" = None
   /\ ipToServiceAndNamespace (run deleter newState evs) !! "None" = None)
  /\ (ipToServiceAndNamespace (onAddOrUpdateService service st) !! k
        ≠ ipToServiceAndNamespace st !! k ->
      k = svc_ClusterIP service /\ k ≠ "" /\ k ≠ "None")
  /\ (is_Some (ipToServiceAndNamespace (onDeleteService service deleter st) !! k) ->
      is_Some (ipToServiceAndNamespace st !! k))
  /\ (is_Some (ipToServiceAndNamespace (step deleter st (Resume i)) !! k) ->
      is_Some (ipToServiceAndNamespace st !! k)).
Proof.
  split; [by apply run_noHeadless|]. split; [|split].
  - rewrite onAddOrUpdateService_ipToServiceAndNamespace.
    case_decide as Hip; [|done]. destruct Hip as [? ?].
    intros Hne. destruct (decide (k = svc_ClusterIP service)) as [->|Hk]; [done|].
    by rewrite lookup_insert_ne in Hne.
  - by rewrite onDeleteService_ipToServiceAndNamespace.
  - simpl. destruct (wake i st) as [st'|] eqn:Hw; simpl; [|done].
    destruct (wake_ipToServiceAndNamespace _ _ _ Hw) as [->|[k' ->]]; [done|].
    intros [v [_ Hv]%lookup_delete_Some]. by eexists.
Qed.

Lemma ipToServiceAndNamespace_never_headless_witness :
  ipToServiceAndNamespace (onAddOrUpdateService cartService newState) !! "10.100.0.9"
    ≠ ipToServiceAndNamespace newState !! "10.100.0.9"
  /\ "10.100.0.9" = svc_ClusterIP cartService
  /\ ipToServiceAndNamespace
       (run defaultDeleter newState
          [ServiceAdd headlessService; ServiceAdd cartService;
           ServiceDelete cartService; Elapse deletionDelay; Resume 0])
       !! "None" = None.
Proof.
  assert (H : ipToServiceAndNamespace (onAddOrUpdateService cartService newState)
                !! "10.100.0.9"
              ≠ ipToServiceAndNamespace newState !! "10.100.0.9")
    by (vm_compute; discriminate).
  split; [exact H|].
  pose proof (ipToServiceAndNamespace_never_headless defaultDeleter
                [ServiceAdd headlessService; ServiceAdd cartService;
                 ServiceDelete cartService; Elapse deletionDelay; Resume 0]
                newState cartService "10.100.0.9" 0) as [[_ Hnone] [Hadd _]].
  split; [exact (proj1 (Hadd H))|exact Hnone].
Defined.

Example service_delete_is_deferred :
  let before :=
    run defaultDeleter newState
      [ServiceAdd cartService; ServiceDelete cartService; Elapse Minute] in
  let after := run defaultDeleter before [Elapse Minute; Resume 0] in
  ipToServiceAndNamespace before !! "10.100.0.9" = Some "cart@shop"
  /\ ipToServiceAndNamespace (run defaultDeleter before [Resume 0]) !! "10.100.0.9"
     = Some "cart@shop"
  /\ ipToServiceAndNamespace after !! "10.100.0.9" = None.
Proof. vm_compute. done. Qed.
(** ** Pod deletion *)

Lemma foldl_DeleteWithDelay (td : TimedDeleter) m ks st :
  foldl (fun st k => DeleteWithDelay td m k st) st ks
  = with_sleeping (fun gs => gs ++ (scheduled td st m <$> ks)) st.
Proof.
  revert st. induction ks as [|k ks IH]; intros st; simpl.
  - destruct st; unfold with_sleeping; simpl. by rewrite app_nil_r.
  - rewrite IH. unfold DeleteWithDelay, TimedDeleter_Deleter, with_sleeping, scheduled.
    simpl. by rewrite <- app_assoc.
Qed.

Lemma onDeletePod_sleeping (td : TimedDeleter) pod st :
  sleeping (onDeletePod pod td st) =
    sleeping st
    ++ (scheduled td st IpToPod <$> deletedEndpoints pod)
    ++ match podToWorkloadAndNamespace st !! pod_Name pod with
       | Some w =>
           if decide (int_wrap (podCount st w - 1) = 0%Z)
           then [scheduled td st WorkloadAndNamespaceToLabels w] else []
       | None => []
       end
    ++ [scheduled td st PodToWorkloadAndNamespace (pod_Name pod)].
Proof.
  unfold onDeletePod, deletedEndpoints.
  set (st1 := if decide (pod_PodIP pod ≠ "") then _ else _).
  assert (Hst1 : st1 = with_sleeping
            (fun gs => gs ++ (scheduled td st IpToPod <$> deletedEndpoints pod)) st).
  { subst st1. unfold deletedEndpoints. repeat case_decide.
    - done.
    - apply foldl_DeleteWithDelay.
    - destruct st; unfold with_sleeping; simpl. by rewrite app_nil_r. }
  rewrite Hst1. clear Hst1 st1.
  fold (deletedEndpoints pod).
  remember (scheduled td st IpToPod <$> deletedEndpoints pod) as l eqn:Hl.
  clear Hl. unfold scheduled. simpl.
  destruct (podToWorkloadAndNamespace st !! pod_Name pod) as [w|]; simpl.
  - unfold podCount. simpl. rewrite lookup_insert_eq. simpl.
    case_decide; simpl; by rewrite <- !app_assoc.
  - by rewrite <- !app_assoc.
Qed.

Lemma onDeletePod_workloadPodCount (td : TimedDeleter) pod st :
  workloadPodCount (onDeletePod pod td st) =
    match podToWorkloadAndNamespace st !! pod_Name pod with
    | Some w => <[w := int_wrap (podCount st w - 1)]> (workloadPodCount st)
    | None => workloadPodCount st
    end.
Proof.
  unfold onDeletePod.
  set (st1 := if decide (pod_PodIP pod ≠ "") then _ else _).
  assert (H1 : podToWorkloadAndNamespace st1 = podToWorkloadAndNamespace st)
    by (subst st1; unfold_handlers; frame).
  assert (H2 : workloadPodCount st1 = workloadPodCount st)
    by (subst st1; unfold_handlers; frame).
  rewrite H1. destruct (podToWorkloadAndNamespace st !! pod_Name pod) as [w|].
  - unfold_handlers. unfold podCount. simpl. case_decide; simpl; by rewrite H2.
  - done.
Qed.

Lemma onDeletePod_maps (td : TimedDeleter) pod st :
  ipToPod (onDeletePod pod td st) = ipToPod st
  /\ podToWorkloadAndNamespace (onDeletePod pod td st) = podToWorkloadAndNamespace st
  /\ workloadAndNamespaceToLabels (onDeletePod pod td st)
     = workloadAndNamespaceToLabels st.
Proof. unfold_handlers. repeat split; frame. Qed.

(** On a host-network pod that has a pod IP, [onDeletePod] schedules the
    deletion of the bare pod IP, which [handlePodAdd] never stored, and of
    none of the [HostIP:port] keys that it did store. *)
Lemma onDeletePod_host_network pod :
  pod_HostNetwork pod = true -> pod_PodIP pod ≠ "" ->
  storedEndpoints pod = hostIPPorts pod /\ deletedEndpoints pod = [pod_PodIP pod].
Proof.
  intros HN Hip. unfold storedEndpoints, deletedEndpoints.
  rewrite HN. by rewrite decide_True.
Qed.

(** C4, at a host-network pod.  The pod is added, then deleted; the
    goroutines started by the deletion are those for the bare IP, for the
    labels of the workload and for the pod name; once all of them have run,
    the endpoint [10.2.0.1:8080] of the deleted pod is still in [ipToPod]. *)
Theorem onDeletePod_leaves_host_port :
  let added := step defaultDeleter newState (PodAdd hostNetworkPod) in
  let deleted := step defaultDeleter added (PodDelete hostNetworkPod) in
  let settled :=
    run defaultDeleter deleted [Elapse deletionDelay; Resume 0; Resume 0; Resume 0] in
  storedEndpoints hostNetworkPod = ["10.2.0.1:8080"]
  /\ ipToPod added !! "10.2.0.1:8080" = Some "agent-x2k4v"
  /\ ((fun g => (target g, key g)) <$> sleeping deleted)
     = [(IpToPod, "10.2.0.1");
        (WorkloadAndNamespaceToLabels, "agent@kube-system");
        (PodToWorkloadAndNamespace, "agent-x2k4v")]
  /\ sleeping settled = []
  /\ ipToPod settled !! "10.2.0.1:8080" = Some "agent-x2k4v".
Proof. vm_compute. done. Qed.
(** ** The reference count of a workload *)

Module CountFacts.

Lemma liveCount_insert_new live k p w :
  live !! k = None ->
  liveCount (<[k := p]> live) w
  = liveCount live w + (if decide (getWorkloadAndNamespace p = w) then 1 else 0).
Proof.
  intros Hk. unfold liveCount. rewrite map_filter_insert. simpl.
  case_decide.
  - rewrite map_size_insert_None; [lia|].
    apply map_lookup_filter_None. by left.
  - rewrite delete_id by done. lia.
Qed.

Lemma liveCount_delete live k p w :
  live !! k = Some p ->
  liveCount live w
  = liveCount (delete k live) w
    + (if decide (getWorkloadAndNamespace p = w) then 1 else 0).
Proof.
  intros Hk. rewrite <- (insert_delete_id live k p) at 1 by done.
  apply liveCount_insert_new, lookup_delete_eq.
Qed.

Lemma liveCount_insert_same live k old new w :
  live !! k = Some old ->
  getWorkloadAndNamespace new = getWorkloadAndNamespace old ->
  liveCount (<[k := new]> live) w = liveCount live w.
Proof.
  intros Hk Hw. rewrite (liveCount_delete live k old w) by done.
  rewrite <- insert_delete_eq.
  rewrite liveCount_insert_new by apply lookup_delete_eq.
  by rewrite Hw.
Qed.

Lemma liveCount_le live w : liveCount live w <= size live.
Proof. apply map_subseteq_size, map_filter_subseteq. Qed.

Lemma foldl_preserve_pending {A} (P : Deletion -> Prop)
    `{forall g, Decision (P g)} (f : State -> A -> State) l st :
  (forall s x, filter P (sleeping (f s x)) = filter P (sleeping s)) ->
  filter P (sleeping (foldl f st l)) = filter P (sleeping st).
Proof. apply (foldl_preserve (fun s => filter P (sleeping s))). Qed.

Ltac frame_sleeping :=
  repeat first
    [ reflexivity
    | rewrite foldl_preserve_pending by (intros; frame_sleeping)
    | rewrite filter_app
    | rewrite app_nil_r
    | progress simpl
    | case_decide
    | case_match ].

Lemma onAddOrUpdatePod_podToWorkloadAndNamespace
    (td : TimedDeleter) newObj oldObj isAdd st :
  podToWorkloadAndNamespace (onAddOrUpdatePod newObj oldObj isAdd td st) =
    if decide (getWorkloadAndNamespace newObj ≠ "")
    then <[pod_Name newObj := getWorkloadAndNamespace newObj]>
           (podToWorkloadAndNamespace st)
    else podToWorkloadAndNamespace st.
Proof.
  unfold onAddOrUpdatePod.
  set (st1 := if isAdd then handlePodAdd _ _ else _).
  assert (H1 : podToWorkloadAndNamespace st1 = podToWorkloadAndNamespace st)
    by (subst st1; unfold_handlers; frame).
  case_decide; [|done]. destruct isAdd; unfold_handlers; simpl;
    case_decide; simpl; by rewrite H1.
Qed.

Lemma onAddOrUpdatePod_workloadPodCount
    (td : TimedDeleter) newObj oldObj isAdd st :
  workloadPodCount (onAddOrUpdatePod newObj oldObj isAdd td st) =
    if decide (getWorkloadAndNamespace newObj ≠ "") then
      if isAdd
      then <[getWorkloadAndNamespace newObj :=
               int_wrap (podCount st (getWorkloadAndNamespace newObj) + 1)]>
             (workloadPodCount st)
      else workloadPodCount st
    else workloadPodCount st.
Proof.
  unfold onAddOrUpdatePod.
  set (st1 := if isAdd then handlePodAdd _ _ else _).
  assert (H1 : workloadPodCount st1 = workloadPodCount st)
    by (subst st1; unfold_handlers; frame).
  case_decide; [|done]. destruct isAdd; unfold_handlers; unfold podCount; simpl;
    case_decide; simpl; by rewrite H1.
Qed.

Lemma onAddOrUpdatePod_podDeletions (td : TimedDeleter) newObj oldObj isAdd st :
  podDeletions (onAddOrUpdatePod newObj oldObj isAdd td st) = podDeletions st.
Proof. unfold podDeletions. unfold_handlers. frame_sleeping. Qed.

Lemma onDeletePod_podDeletions (td : TimedDeleter) pod st :
  podDeletions (onDeletePod pod td st)
  = podDeletions st ++ [scheduled td st PodToWorkloadAndNamespace (pod_Name pod)].
Proof.
  unfold podDeletions. rewrite onDeletePod_sleeping.
  rewrite !filter_app. f_equal.
  assert (H1 : filter (fun g => target g = PodToWorkloadAndNamespace)
                 (scheduled td st IpToPod <$> deletedEndpoints pod) = []).
  { induction (deletedEndpoints pod); [done|]. simpl.
    rewrite filter_cons_False by done. done. }
  rewrite H1. simpl.
  destruct (podToWorkloadAndNamespace st !! pod_Name pod); [case_decide|]; done.
Qed.

(** The steps that are not pod events and not the resumption of a deleter
    goroutine touch neither the pod names nor the counts. *)
Lemma step_other_pods deleter st ev :
  match ev with
  | PodAdd _ | PodUpdate _ _ | PodDelete _ | Resume _ => True
  | _ =>
      podToWorkloadAndNamespace (step deleter st ev) = podToWorkloadAndNamespace st
      /\ workloadPodCount (step deleter st ev) = workloadPodCount st
      /\ podDeletions (step deleter st ev) = podDeletions st
  end.
Proof.
  destruct ev; try done; unfold podDeletions; unfold_handlers;
    (split; [frame|split; [frame|frame_sleeping]]).
Qed.

Lemma wake_pods i st st' :
  wake i st = Some st' ->
  workloadPodCount st' = workloadPodCount st
  /\ podDeletions st' ⊆ podDeletions st
  /\ (podToWorkloadAndNamespace st' = podToWorkloadAndNamespace st
      \/ exists g, g ∈ podDeletions st
                   /\ podToWorkloadAndNamespace st'
                      = delete (key g) (podToWorkloadAndNamespace st)).
Proof.
  unfold wake. destruct (sleeping st !! i) as [g|] eqn:Hg; [|done].
  case_decide; [|done]. intros [= <-].
  assert (Hin : g ∈ sleeping st) by (by eapply list_elem_of_lookup_2).
  split; [by destruct (target g)|]. split.
  - unfold podDeletions. intros g' Hg'.
    apply list_elem_of_filter in Hg' as [Ht Hg'].
    apply list_elem_of_filter. split; [done|].
    assert (Hs : sleeping (Delete (target g) (key g) (with_sleeping (delete i) st))
                 = delete i (sleeping st)) by (by destruct (target g)).
    rewrite Hs in Hg'. by eapply list_elem_of_delete_inv.
  - destruct (target g) eqn:Ht; simpl; auto.
    right. exists g. split; [|done].
    unfold podDeletions. by apply list_elem_of_filter.
Qed.

Lemma int_wrap_small z : (- 2 ^ 63 <= z < 2 ^ 63)%Z -> int_wrap z = z.
Proof.
  intros Hz. unfold int_wrap.
  rewrite Z.mod_small by lia. lia.
Qed.

Lemma consistent_newState : consistent newState ∅.
Proof.
  split; [|split].
  - intros name pod H. by rewrite lookup_empty in H.
  - intros g H. by apply elem_of_nil in H.
  - intros w _. unfold podCount, liveCount. simpl.
    by rewrite lookup_empty, map_filter_empty, map_size_empty.
Qed.

Lemma size_liveStep live ev : size (liveStep live ev) <= S (size live).
Proof.
  destruct ev; simpl; try lia.
  - rewrite map_size_insert. destruct (live !! _); simpl; lia.
  - rewrite map_size_insert. destruct (live !! _); simpl; lia.
  - rewrite map_size_delete. destruct (live !! _); simpl; lia.
Qed.

Lemma step_consistent deleter st live ev :
  consistent st live -> orderly st live ev ->
  (Z.of_nat (size live) < 2 ^ 63 - 1)%Z ->
  consistent (step deleter st ev) (liveStep live ev).
Proof.
  intros (I1 & I2 & I3) Hord Hsize.
  pose proof (step_other_pods deleter st ev) as Hother.
  destruct ev as [pod|oldPod newPod|pod| | | | | |i]; simpl in Hord;
    try (destruct Hother as (E1 & E2 & E3);
         unfold consistent, podCount; rewrite E1, E2, E3; done);
    clear Hother; simpl.
  - (* Add *)
    destruct Hord as (Hlive & Hstale & Hpending).
    set (st0 := Debug _ _ st).
    split; [|split].
    + intros name p Hp. rewrite onAddOrUpdatePod_podToWorkloadAndNamespace.
      change (podToWorkloadAndNamespace st0) with (podToWorkloadAndNamespace st).
      destruct (decide (name = pod_Name pod)) as [->|Hne].
      * rewrite lookup_insert_eq in Hp. injection Hp as <-.
        repeat case_decide; try done. by rewrite lookup_insert_eq.
      * rewrite lookup_insert_ne in Hp by done.
        case_decide; [rewrite lookup_insert_ne by done|]; by apply I1.
    + intros g Hg. rewrite onAddOrUpdatePod_podDeletions in Hg.
      change (podDeletions st0) with (podDeletions st) in Hg.
      rewrite lookup_insert_ne; [by apply I2|].
      apply list_elem_of_filter in Hg as [Ht Hg].
      rewrite Forall_forall in Hpending. intros Heq.
      by apply (Hpending g Hg).
    + intros w Hw. unfold podCount.
      rewrite onAddOrUpdatePod_workloadPodCount.
      change (workloadPodCount st0) with (workloadPodCount st).
      change (podCount st0) with (podCount st).
      rewrite CountFacts.liveCount_insert_new by done.
      pose proof (CountFacts.liveCount_le live w).
      case_decide as Hd.
      * destruct (decide (getWorkloadAndNamespace pod = w)) as [->|Hne].
        -- rewrite lookup_insert_eq. simpl. rewrite I3 by done.
           rewrite int_wrap_small by lia. lia.
        -- rewrite lookup_insert_ne by done. fold (podCount st w).
           rewrite I3 by done. lia.
      * fold (podCount st w). rewrite I3 by done.
        rewrite decide_False; [lia|]. intros <-. by apply Hw.
  - (* Update *)
    destruct Hord as (Hlive & Hsame).
    set (st0 := Debug _ _ st).
    split; [|split].
    + intros name p Hp. rewrite onAddOrUpdatePod_podToWorkloadAndNamespace.
      change (podToWorkloadAndNamespace st0) with (podToWorkloadAndNamespace st).
      destruct (decide (name = pod_Name newPod)) as [->|Hne].
      * rewrite lookup_insert_eq in Hp. injection Hp as <-.
        repeat case_decide; try done; [by rewrite lookup_insert_eq|].
        rewrite (I1 _ _ Hlive). rewrite decide_True; [done|congruence].
      * rewrite lookup_insert_ne in Hp by done.
        case_decide; [rewrite lookup_insert_ne by done|]; by apply I1.
    + intros g Hg. rewrite onAddOrUpdatePod_podDeletions in Hg.
      change (podDeletions st0) with (podDeletions st) in Hg.
      rewrite lookup_insert_ne; [by apply I2|].
      intros Heq. specialize (I2 g Hg). rewrite <- Heq in I2. congruence.
    + intros w Hw. unfold podCount.
      rewrite onAddOrUpdatePod_workloadPodCount.
      change (workloadPodCount st0) with (workloadPodCount st).
      rewrite (CountFacts.liveCount_insert_same live _ oldPod) by done.
      case_decide; by apply I3.
  - (* Delete *)
    destruct Hord as [q Hq].
    set (st0 := Debug _ _ st).
    split; [|split].
    + intros name p [Hne Hp]%lookup_delete_Some.
      destruct (onDeletePod_maps deleter pod st0) as (_ & -> & _).
      by apply I1.
    + intros g Hg. rewrite onDeletePod_podDeletions in Hg.
      change (podDeletions st0) with (podDeletions st) in Hg.
      apply lookup_delete_None.
      apply elem_of_app in Hg as [Hg|Hg]; [right; by apply I2|left].
      apply list_elem_of_singleton in Hg as ->. done.
    + intros w Hw. unfold podCount. rewrite onDeletePod_workloadPodCount.
      change (workloadPodCount st0) with (workloadPodCount st).
      change (podToWorkloadAndNamespace st0) with (podToWorkloadAndNamespace st).
      change (podCount st0) with (podCount st).
      rewrite (I1 _ _ Hq).
      pose proof (CountFacts.liveCount_delete live _ q w Hq) as Hdel.
      pose proof (CountFacts.liveCount_le live w).
      assert (Hsame : getWorkloadAndNamespace q = w ->
                      liveCount live w
                      = liveCount (delete (pod_Name pod) live) w + 1)
        by (intros E; by rewrite decide_True in Hdel).
      assert (Hdiff : getWorkloadAndNamespace q ≠ w ->
                      liveCount live w
                      = liveCount (delete (pod_Name pod) live) w)
        by (intros E; rewrite decide_False in Hdel by done; lia).
      clear Hdel.
      destruct (decide (getWorkloadAndNamespace q = "")) as [Hd|Hd].
      * fold (podCount st w). rewrite I3 by done.
        rewrite Hdiff; [done|congruence].
      * destruct (decide (getWorkloadAndNamespace q = w)) as [E|Hne].
        -- rewrite E, lookup_insert_eq. simpl. rewrite I3 by done.
           rewrite int_wrap_small by (specialize (Hsame E); lia).
           specialize (Hsame E). lia.
        -- rewrite lookup_insert_ne by done. fold (podCount st w).
           rewrite I3 by done. by rewrite Hdiff.
  - (* Resume *)
    destruct (wake i st) as [st'|] eqn:Hw; simpl; [|done].
    destruct (wake_pods _ _ _ Hw) as (Ec & Hsub & Hpods).
    split; [|split].
    + intros name p Hp. destruct Hpods as [->|(g & Hg & ->)]; [by apply I1|].
      rewrite lookup_delete_ne; [by apply I1|].
      intros Heq. specialize (I2 g Hg). rewrite Heq in I2. congruence.
    + intros g Hg. by apply I2, Hsub.
    + intros w Hw'. unfold podCount. rewrite Ec. by apply I3.
Qed.

Lemma run_consistent deleter evs : forall st live n,
  consistent st live -> size live <= n ->
  (Z.of_nat (n + length evs) < 2 ^ 63)%Z ->
  orderlyRun deleter st live evs ->
  consistent (run deleter st evs) (foldl liveStep live evs).
Proof.
  induction evs as [|ev evs IH]; intros st live n Hc Hn Hlen Hord; simpl;
    [done|].
  destruct Hord as [Hev Hord]. simpl in Hlen.
  apply (IH _ _ (S n)); [|pose proof (size_liveStep live ev); lia|lia|done].
  apply step_consistent; [done..|lia].
Qed.

End CountFacts.

(** How each step changes the counts: an Add of a pod with a derived
    workload adds one to the count of that workload, a Delete of a pod
    whose name is in [podToWorkloadAndNamespace] takes one from the count
    of the workload found there, and nothing else changes a count. *)
Lemma step_workloadPodCount deleter st ev :
  workloadPodCount (step deleter st ev) =
    match ev with
    | PodAdd pod =>
        if decide (getWorkloadAndNamespace pod ≠ "")
        then <[getWorkloadAndNamespace pod :=
                 int_wrap (podCount st (getWorkloadAndNamespace pod) + 1)]>
               (workloadPodCount st)
        else workloadPodCount st
    | PodDelete pod =>
        match podToWorkloadAndNamespace st !! pod_Name pod with
        | Some w => <[w := int_wrap (podCount st w - 1)]> (workloadPodCount st)
        | None => workloadPodCount st
        end
    | _ => workloadPodCount st
    end.
Proof.
  pose proof (CountFacts.step_other_pods deleter st ev) as Hother.
  destruct ev as [pod|oldPod newPod|pod| | | | | |i];
    try (by destruct Hother as (_ & -> & _)); clear Hother; unfold step.
  - by rewrite CountFacts.onAddOrUpdatePod_workloadPodCount.
  - rewrite CountFacts.onAddOrUpdatePod_workloadPodCount. by case_decide.
  - by rewrite onDeletePod_workloadPodCount.
  - destruct (wake i st) as [st'|] eqn:Hw; simpl; [|done].
    by destruct (CountFacts.wake_pods _ _ _ Hw) as (-> & _).
Qed.

(** C6, as the code has it.  Along a run in which a pod is added only
    under a name that is neither live nor left over from an earlier pod,
    pods are updated and deleted only while live, no update changes the
    derived workload, and fewer than 2^63 events occur, the count of a
    workload is the number of live pods whose derived workload it is. *)
Theorem workloadPodCount_counts_live_pods
    (deleter : TimedDeleter) (evs : list Event) (w : string) :
  orderlyRun deleter newState ∅ evs ->
  (Z.of_nat (length evs) < 2 ^ 63)%Z ->
  w ≠ "" ->
  podCount (run deleter newState evs) w = Z.of_nat (liveCount (livePods evs) w).
Proof.
  intros Hord Hlen Hw.
  destruct (CountFacts.run_consistent deleter evs newState ∅ 0) as (_ & _ & I3);
    [apply CountFacts.consistent_newState|by rewrite map_size_empty|done|done|].
  by apply I3.
Qed.

Lemma workloadPodCount_counts_live_pods_witness :
  orderlyRun defaultDeleter newState ∅ cartEvents
  /\ (Z.of_nat (length cartEvents) < 2 ^ 63)%Z
  /\ "cart@shop" ≠ ""
  /\ podCount (run defaultDeleter newState cartEvents) "cart@shop"
     = Z.of_nat (liveCount (livePods cartEvents) "cart@shop").
Proof.
  assert (H1 : orderlyRun defaultDeleter newState ∅ cartEvents).
  { split; [|split; [|split; [done|split; [done|split; [|split; [|done]]]]]].
    - split; [reflexivity|]. split; [reflexivity|]. constructor.
    - split; [vm_compute; reflexivity|]. split; [vm_compute; reflexivity|].
      constructor.
    - split; vm_compute; reflexivity.
    - exists canaryPod. vm_compute. reflexivity. }
  assert (H2 : (Z.of_nat (length cartEvents) < 2 ^ 63)%Z) by (vm_compute; reflexivity).
  assert (H3 : "cart@shop" ≠ "") by discriminate.
  split; [exact H1|]. split; [exact H2|]. split; [exact H3|].
  exact (workloadPodCount_counts_live_pods defaultDeleter cartEvents "cart@shop"
           H1 H2 H3).
Defined.

Lemma workloadPodCount_misses_adopted_pod :
  let evs := [PodAdd orphanPod; PodUpdate orphanPod adoptedPod] in
  let st := run defaultDeleter newState evs in
  livePods evs !! "db-0" = Some adoptedPod
  /\ getWorkloadAndNamespace adoptedPod = "db@prod"
  /\ podToWorkloadAndNamespace st !! "db-0" = Some "db@prod"
  /\ liveCount (livePods evs) "db@prod" = 1
  /\ podCount st "db@prod" = 0%Z
  /\ podCount st "db@prod" ≠ Z.of_nat (liveCount (livePods evs) "db@prod").
Proof. vm_compute. repeat split; done. Qed.
(** ** The service to workload mapper *)

Module MapperFacts.

Lemma elem_of_matchingWorkloads st ns sel w :
  w ∈ matchingWorkloads ns sel st <-> candidate st ns sel w.
Proof.
  unfold matchingWorkloads, candidate. rewrite list_elem_of_bind. split.
  - intros ([w' labels] & Hin & Hkv). simpl in Hin.
    case_decide as Hd; [|by apply elem_of_nil in Hin].
    apply list_elem_of_singleton in Hin as ->.
    apply elem_of_map_to_list in Hkv. destruct Hd as (Hns & Hne & Hsub).
    exists labels. split; [done|]. split; [done|].
    split; [by rewrite <- Hns|done].
  - intros (labels & Hl & Hns & Hne & Hsub).
    exists (w, labels). split; [|by apply elem_of_map_to_list].
    simpl. rewrite decide_True; [by apply list_elem_of_singleton|].
    split; [done|]. split; [by rewrite Hns|done].
Qed.

Lemma NoDup_matchingWorkloads st ns sel : NoDup (matchingWorkloads ns sel st).
Proof.
  unfold matchingWorkloads.
  pose proof (NoDup_fst_map_to_list (workloadAndNamespaceToLabels st)) as Hnd.
  induction (map_to_list (workloadAndNamespaceToLabels st)) as [|[w labels] l IH];
    simpl in *; [constructor|].
  apply NoDup_cons in Hnd as [Hw Hnd]. specialize (IH Hnd).
  case_decide; simpl; [|done].
  constructor; [|done]. intros Hin. apply Hw.
  apply list_elem_of_bind in Hin as ([w' labels'] & Hin & Hkv). simpl in Hin.
  case_decide; [|by apply elem_of_nil in Hin].
  apply list_elem_of_singleton in Hin as ->.
  apply list_elem_of_fmap. by exists (w', labels').
Qed.

(** One, none or several candidates. *)
Lemma matchingWorkloads_one st ns sel w :
  matchingWorkloads ns sel st = [w]
  <-> candidate st ns sel w /\ forall w', candidate st ns sel w' -> w' = w.
Proof.
  pose proof (NoDup_matchingWorkloads st ns sel) as Hnd.
  pose proof (elem_of_matchingWorkloads st ns sel) as Hin.
  destruct (matchingWorkloads ns sel st) as [|a [|b l]].
  - split; [done|]. intros [Hw _]. apply Hin in Hw. by apply elem_of_nil in Hw.
  - split.
    + intros [= ->]. split; [apply Hin; left|].
      intros w' Hw'%Hin. by apply list_elem_of_singleton in Hw'.
    + intros [Hw _]. apply Hin, list_elem_of_singleton in Hw. by subst.
  - split; [done|]. intros [_ Hall].
    assert (a = w) as -> by (apply Hall, Hin; left).
    assert (b = w) as -> by (apply Hall, Hin; right; left).
    apply NoDup_cons in Hnd as [Hnd _]. destruct Hnd. left.
Qed.

Lemma matchingWorkloads_none st ns sel :
  matchingWorkloads ns sel st = [] <-> forall w, ~ candidate st ns sel w.
Proof.
  pose proof (elem_of_matchingWorkloads st ns sel) as Hin.
  destruct (matchingWorkloads ns sel st) as [|a l].
  - split; [|done]. intros _ w Hw%Hin. by apply elem_of_nil in Hw.
  - split; [done|]. intros Hno. destruct (Hno a). apply Hin. left.
Qed.

Lemma matchingWorkloads_several st ns sel :
  2 <= length (matchingWorkloads ns sel st)
  <-> exists w1 w2, w1 ≠ w2 /\ candidate st ns sel w1 /\ candidate st ns sel w2.
Proof.
  pose proof (NoDup_matchingWorkloads st ns sel) as Hnd.
  pose proof (elem_of_matchingWorkloads st ns sel) as Hin.
  destruct (matchingWorkloads ns sel st) as [|a [|b l]]; simpl.
  - split; [lia|]. intros (w1 & _ & _ & Hw & _). apply Hin in Hw.
    by apply elem_of_nil in Hw.
  - split; [lia|]. intros (w1 & w2 & Hne & H1%Hin & H2%Hin).
    apply list_elem_of_singleton in H1, H2. congruence.
  - split; [|lia]. intros _. exists a, b.
    apply NoDup_cons in Hnd as [Hnd _].
    split; [|split; apply Hin; [left|right; left]].
    intros ->. apply Hnd. left.
Qed.

Lemma matchingWorkloads_ext st1 st2 ns sel :
  workloadAndNamespaceToLabels st1 = workloadAndNamespaceToLabels st2 ->
  matchingWorkloads ns sel st1 = matchingWorkloads ns sel st2.
Proof. unfold matchingWorkloads. by intros ->. Qed.

Lemma foldl_Debug_found s ws st :
  let st1 := foldl (fun st w =>
                      Debug "Found workload for service"
                        [("service", s); ("workload", w)] st) st ws in
  workloadAndNamespaceToLabels st1 = workloadAndNamespaceToLabels st
  /\ clock st1 = clock st
  /\ serviceToWorkload st1 = serviceToWorkload st
  /\ sleeping st1 = sleeping st
  /\ (forall e, e ∈ logged st -> e ∈ logged st1).
Proof.
  simpl. revert st. induction ws as [|w ws IH]; intros st; simpl; [done|].
  destruct (IH (Debug "Found workload for service"
                  [("service", s); ("workload", w)] st))
    as (-> & -> & -> & -> & Hlog).
  repeat split; try done. intros e He. apply Hlog. simpl.
  apply elem_of_app. by left.
Qed.

(** What the body of the outer loop does for one service. *)
Lemma mapService_effect (td : TimedDeleter) st kv :
  let ws := matchingWorkloads (extractResourceAndNamespace kv.1).2 kv.2 st in
  let st' := mapService td st kv in
  workloadAndNamespaceToLabels st' = workloadAndNamespaceToLabels st
  /\ clock st' = clock st
  /\ serviceToWorkload st'
     = match ws with
       | [w] => <[kv.1 := w]> (serviceToWorkload st)
       | _ => serviceToWorkload st
       end
  /\ sleeping st'
     = sleeping st ++ match ws with
                      | [] => [scheduled td st ServiceToWorkload kv.1]
                      | _ => []
                      end
  /\ (forall e, e ∈ logged st -> e ∈ logged st')
  /\ (2 <= length ws -> ambiguityEntry kv.1 ∈ logged st').
Proof.
  simpl. unfold mapService.
  destruct (foldl_Debug_found kv.1
              (matchingWorkloads (extractResourceAndNamespace kv.1).2 kv.2 st) st)
    as (E1 & E2 & E3 & E4 & Hlog).
  destruct (matchingWorkloads _ _ st) as [|a [|b l]]; simpl in *.
  - clear E1 E2 E3 E4 Hlog. split; [done|]. split; [done|]. split; [done|]. split; [done|].
    split; [|lia]. intros e He. apply elem_of_app. by left.
  - rewrite app_nil_r.
    split; [done|]. split; [done|]. split; [done|]. split; [done|].
    split; [done|lia].
  - rewrite app_nil_r.
    split; [done|]. split; [done|]. split; [done|]. split; [done|]. split.
    + intros e He. apply elem_of_app. left. by apply Hlog.
    + intros _. apply elem_of_app. right. by apply list_elem_of_singleton.
Qed.

Lemma foldl_mapService (td : TimedDeleter) l : forall st,
  NoDup l.*1 ->
  let st' := foldl (mapService td) st l in
  workloadAndNamespaceToLabels st' = workloadAndNamespaceToLabels st
  /\ clock st' = clock st
  /\ (forall s,
        serviceToWorkload st' !! s
        = match (list_to_map l : gmap string (gset string)) !! s with
          | Some sel =>
              match matchingWorkloads (extractResourceAndNamespace s).2 sel st with
              | [w] => Some w
              | _ => serviceToWorkload st !! s
              end
          | None => serviceToWorkload st !! s
          end)
  /\ sleeping st'
     = sleeping st
       ++ (scheduled td st ServiceToWorkload
             <$> (filter
                    (fun kv =>
                       matchingWorkloads (extractResourceAndNamespace kv.1).2
                         kv.2 st = []) l).*1)
  /\ (forall e, e ∈ logged st -> e ∈ logged st')
  /\ (forall s sel,
        (s, sel) ∈ l ->
        2 <= length (matchingWorkloads (extractResourceAndNamespace s).2 sel st) ->
        ambiguityEntry s ∈ logged st').
Proof.
  induction l as [|[k v] l IH]; intros st Hnd; simpl.
  - rewrite app_nil_r. repeat split; try done.
    intros s sel Hin. by apply elem_of_nil in Hin.
  - simpl in Hnd. apply NoDup_cons in Hnd as [Hk Hnd].
    destruct (mapService_effect td st (k, v)) as (M1 & M2 & M3 & M4 & M5 & M6).
    simpl in M3, M4, M6.
    destruct (IH (mapService td st (k, v)) Hnd) as (F1 & F2 & F3 & F4 & F5 & F6).
    assert (Hext : forall ns sel,
              matchingWorkloads ns sel (mapService td st (k, v))
              = matchingWorkloads ns sel st)
      by (intros; by apply matchingWorkloads_ext).
    split; [congruence|]. split; [congruence|]. split; [|split; [|split]].
    + intros s. rewrite F3. destruct (decide (s = k)) as [->|Hne].
      * rewrite lookup_insert_eq.
        rewrite (not_elem_of_list_to_map_1 _ _ Hk). rewrite M3.
        destruct (matchingWorkloads _ v st) as [|a [|b l']]; try done.
        by rewrite lookup_insert_eq.
      * rewrite lookup_insert_ne by done.
        assert (Hs : serviceToWorkload (mapService td st (k, v)) !! s
                     = serviceToWorkload st !! s).
        { rewrite M3. destruct (matchingWorkloads _ v st) as [|a [|b l']];
            try done. by rewrite lookup_insert_ne. }
        rewrite Hs. destruct (list_to_map l !! s) as [sel|]; [|done].
        by rewrite Hext.
    + rewrite F4, M4. unfold scheduled. rewrite M2.
      rewrite filter_cons. simpl.
      erewrite (list_filter_iff _ (fun kv =>
                  matchingWorkloads (extractResourceAndNamespace kv.1).2 kv.2 st
                  = [])) by (intros kv; by rewrite Hext).
      case_decide as Hd.
      * rewrite Hd. simpl. by rewrite <- app_assoc.
      * destruct (matchingWorkloads _ v st); [done|].
        by rewrite app_nil_r.
    + intros e He. by apply F5, M5.
    + intros s sel Hin Hlen. apply elem_of_cons in Hin as [[= -> ->]|Hin].
      * by apply F5, M6.
      * apply (F6 s sel Hin). by rewrite Hext.
Qed.

End MapperFacts.

Lemma elem_of_unmatchedServices st s sel :
  serviceAndNamespaceToSelectors st !! s = Some sel ->
  s ∈ unmatchedServices st
  <-> matchingWorkloads (extractResourceAndNamespace s).2 sel st = [].
Proof.
  intros Hs. unfold unmatchedServices. rewrite list_elem_of_fmap. split.
  - intros ([s' sel'] & -> & Hf).
    apply list_elem_of_filter in Hf as [Hno Hin]. simpl in *.
    apply elem_of_map_to_list in Hin. congruence.
  - intros Hno. exists (s, sel). split; [done|].
    apply list_elem_of_filter. split; [done|]. by apply elem_of_map_to_list.
Qed.

(** C5, as the code has it.  For a service with selectors on record, a run
    of the mapper stores the workload when exactly one workload of the
    service's namespace has labels containing the selectors, and changes
    the entry of the service in no other case; with several such workloads
    it leaves the entry as it was, schedules nothing for the service and
    logs at info level; with none it schedules the deferred deletion of
    the entry.  The deletions scheduled by a run are those of the services
    without any such workload. *)
Theorem MapServiceToWorkload_spec (td : TimedDeleter) (st : State)
    (s : string) (sel : gset string) :
  serviceAndNamespaceToSelectors st !! s = Some sel ->
  let ns := (extractResourceAndNamespace s).2 in
  let st' := MapServiceToWorkload td st in
  (forall w,
     candidate st ns sel w -> (forall w', candidate st ns sel w' -> w' = w) ->
     serviceToWorkload st' !! s = Some w)
  /\ (serviceToWorkload st' !! s ≠ serviceToWorkload st !! s ->
      exists w, candidate st ns sel w
                /\ (forall w', candidate st ns sel w' -> w' = w)
                /\ serviceToWorkload st' !! s = Some w)
  /\ ((exists w1 w2, w1 ≠ w2 /\ candidate st ns sel w1 /\ candidate st ns sel w2) ->
      serviceToWorkload st' !! s = serviceToWorkload st !! s
      /\ (s ∉ unmatchedServices st)
      /\ ambiguityEntry s ∈ logged st')
  /\ ((forall w, ~ candidate st ns sel w) ->
      serviceToWorkload st' !! s = serviceToWorkload st !! s
      /\ scheduled td st ServiceToWorkload s ∈ sleeping st')
  /\ sleeping st'
     = sleeping st ++ (scheduled td st ServiceToWorkload <$> unmatchedServices st).
Proof.
  intros Hs ns st'.
  destruct (MapperFacts.foldl_mapService td
              (map_to_list (serviceAndNamespaceToSelectors st))
              (Debug "Map service to workload at:" [] st)
              (NoDup_fst_map_to_list _))
    as (_ & _ & F3 & F4 & _ & F6).
  fold (MapServiceToWorkload td st) in F3, F4, F6. fold st' in F3, F4, F6.
  rewrite list_to_map_to_list in F3. specialize (F3 s). rewrite Hs in F3.
  assert (Hext : forall ns sel,
            matchingWorkloads ns sel (Debug "Map service to workload at:" [] st)
            = matchingWorkloads ns sel st) by done.
  rewrite Hext in F3. fold ns in F3.
  assert (Hsleep : sleeping st'
            = sleeping st
              ++ (scheduled td st ServiceToWorkload <$> unmatchedServices st))
    by exact F4.
  pose proof (MapperFacts.matchingWorkloads_none st ns sel) as Hnone.
  pose proof (MapperFacts.matchingWorkloads_several st ns sel) as Hsev.
  split; [|split; [|split; [|split]]].
  - intros w Hw Huniq.
    rewrite (proj2 (MapperFacts.matchingWorkloads_one st ns sel w)) in F3; done.
  - intros Hne.
    destruct (matchingWorkloads ns sel st) as [|w [|b l]] eqn:Hws; try done.
    apply MapperFacts.matchingWorkloads_one in Hws as [Hw Huniq].
    by exists w.
  - intros Hsome. apply Hsev in Hsome.
    split; [|split].
    + destruct (matchingWorkloads ns sel st) as [|w [|b l]]; simpl in *;
        try done; lia.
    + rewrite (elem_of_unmatchedServices st s sel Hs). fold ns.
      destruct (matchingWorkloads ns sel st); simpl in *; [lia|done].
    + apply (F6 s sel); [by apply elem_of_map_to_list|].
      by rewrite Hext.
  - intros Hno. apply Hnone in Hno. split; [by rewrite Hno in F3|].
    rewrite Hsleep. apply elem_of_app. right.
    apply list_elem_of_fmap. exists s. split; [done|].
    by apply (elem_of_unmatchedServices st s sel Hs).
  - done.
Qed.

(** A service without selectors on record is left alone by the mapper. *)
Lemma MapServiceToWorkload_other (td : TimedDeleter) st s :
  serviceAndNamespaceToSelectors st !! s = None ->
  serviceToWorkload (MapServiceToWorkload td st) !! s = serviceToWorkload st !! s.
Proof.
  intros Hs.
  destruct (MapperFacts.foldl_mapService td
              (map_to_list (serviceAndNamespaceToSelectors st))
              (Debug "Map service to workload at:" [] st)
              (NoDup_fst_map_to_list _))
    as (_ & _ & F3 & _).
  fold (MapServiceToWorkload td st) in F3.
  rewrite list_to_map_to_list in F3. specialize (F3 s). by rewrite Hs in F3.
Qed.

(** Scenario 4 of the specification, after an earlier run of the mapper:
    with two candidate workloads the run schedules no removal, and the
    service is still mapped afterwards. *)
Lemma MapServiceToWorkload_ambiguous_keeps_mapping :
  let st' := MapServiceToWorkload defaultDeleter ambiguousState in
  serviceAndNamespaceToSelectors ambiguousState !! "cart@shop" = Some {[ "app=cart" ]}
  /\ length (matchingWorkloads "shop" {[ "app=cart" ]} ambiguousState) = 2
  /\ sleeping ambiguousState = []
  /\ sleeping st' = []
  /\ serviceToWorkload st' !! "cart@shop" = Some "cart@shop"
  /\ filter (fun e => level e = InfoLevel) (logged st') = [ambiguityEntry "cart@shop"].
Proof. vm_compute. repeat split; done. Qed.

Lemma MapServiceToWorkload_spec_witness :
  serviceAndNamespaceToSelectors ambiguousState !! "cart@shop" = Some {[ "app=cart" ]}
  /\ (exists w1 w2,
        w1 ≠ w2
        /\ candidate ambiguousState "shop" {[ "app=cart" ]} w1
        /\ candidate ambiguousState "shop" {[ "app=cart" ]} w2)
  /\ serviceToWorkload (MapServiceToWorkload defaultDeleter ambiguousState) !! "cart@shop"
     = serviceToWorkload ambiguousState !! "cart@shop"
  /\ ambiguityEntry "cart@shop"
     ∈ logged (MapServiceToWorkload defaultDeleter ambiguousState).
Proof.
  assert (H1 : serviceAndNamespaceToSelectors ambiguousState !! "cart@shop"
               = Some {[ "app=cart" ]}) by (vm_compute; reflexivity).
  assert (H2 : exists w1 w2,
             w1 ≠ w2
             /\ candidate ambiguousState "shop" {[ "app=cart" ]} w1
             /\ candidate ambiguousState "shop" {[ "app=cart" ]} w2).
  { exists "cart@shop", "cart-canary@shop". split; [discriminate|]. split.
    - exists {[ "app=cart" ]}. split; [vm_compute; reflexivity|].
      split; [vm_compute; reflexivity|]. split; [discriminate|done].
    - exists (labelSet (pod_Labels canaryPod)).
      split; [vm_compute; reflexivity|].
      split; [vm_compute; reflexivity|]. split; [discriminate|].
      apply (bool_decide_unpack _). vm_compute. exact I. }
  split; [exact H1|]. split; [exact H2|].
  destruct (proj1 (proj2 (proj2
              (MapServiceToWorkload_spec defaultDeleter ambiguousState
                 "cart@shop" {[ "app=cart" ]} H1))) H2) as (Hkept & _ & Hlog).
  split; [exact Hkept|exact Hlog].
Defined.
(** ** Deferred deletion *)

Module DeleterFacts.

Lemma grows_refl td s : grows td s s.
Proof. split; [done|]. split; [by left|done]. Qed.

Lemma grows_snoc td s s' m k :
  grows td s s' ->
  grows td s
    (with_sleeping
       (fun gs => gs ++ [{| due := clock s' + Delay td; target := m; key := k |}]) s').
Proof.
  intros (Hc & Hs & Hl). split; [done|]. split; [|done].
  intros g [Hg|Hg]%elem_of_app; [by apply Hs|right].
  apply list_elem_of_singleton in Hg as ->. simpl. by rewrite Hc.
Qed.

Lemma grows_logged td s s' f : grows td s s' -> grows td s (with_logged f s').
Proof. done. Qed.

Lemma grows_workloadPodCount td s s' f :
  grows td s s' -> grows td s (with_workloadPodCount f s').
Proof. done. Qed.

Lemma is_Some_fmap_insert {A B} (f : A -> B) (m : gmap string A) k v k' :
  is_Some (f <$> m !! k') -> is_Some (f <$> <[k := v]> m !! k').
Proof.
  rewrite !fmap_is_Some. intros H.
  destruct (decide (k = k')) as [->|Hne].
  - rewrite lookup_insert_eq. by eexists.
  - by rewrite lookup_insert_ne.
Qed.

Ltac grows_insert :=
  let Hc := fresh in let Hs := fresh in let Hl := fresh in
  let m := fresh "m" in let k := fresh "k" in let H := fresh in
  intros (Hc & Hs & Hl); split; [done|]; split; [done|];
  intros m k H; specialize (Hl m k H);
  destruct m; simpl in *; try done; by apply is_Some_fmap_insert.

Lemma grows_ipToPod td s s' k v :
  grows td s s' -> grows td s (with_ipToPod <[k := v]> s').
Proof. grows_insert. Qed.

Lemma grows_podToWorkloadAndNamespace td s s' k v :
  grows td s s' -> grows td s (with_podToWorkloadAndNamespace <[k := v]> s').
Proof. grows_insert. Qed.

Lemma grows_workloadAndNamespaceToLabels td s s' k v :
  grows td s s' -> grows td s (with_workloadAndNamespaceToLabels <[k := v]> s').
Proof. grows_insert. Qed.

Lemma grows_ipToServiceAndNamespace td s s' k v :
  grows td s s' -> grows td s (with_ipToServiceAndNamespace <[k := v]> s').
Proof. grows_insert. Qed.

Lemma grows_serviceAndNamespaceToSelectors td s s' k v :
  grows td s s' -> grows td s (with_serviceAndNamespaceToSelectors <[k := v]> s').
Proof. grows_insert. Qed.

Lemma grows_serviceToWorkload td s s' k v :
  grows td s s' -> grows td s (with_serviceToWorkload <[k := v]> s').
Proof. grows_insert. Qed.

Ltac grows :=
  repeat
    lazymatch goal with
    | H : grows _ ?s ?s' |- grows _ ?s ?s' => exact H
    | |- grows _ ?s ?s => apply grows_refl
    | |- grows _ _ (with_sleeping _ _) => apply grows_snoc
    | |- grows _ _ (with_logged _ _) => apply grows_logged
    | |- grows _ _ (with_workloadPodCount _ _) => apply grows_workloadPodCount
    | |- grows _ _ (with_ipToPod _ _) => apply grows_ipToPod
    | |- grows _ _ (with_podToWorkloadAndNamespace _ _) =>
        apply grows_podToWorkloadAndNamespace
    | |- grows _ _ (with_workloadAndNamespaceToLabels _ _) =>
        apply grows_workloadAndNamespaceToLabels
    | |- grows _ _ (with_ipToServiceAndNamespace _ _) =>
        apply grows_ipToServiceAndNamespace
    | |- grows _ _ (with_serviceAndNamespaceToSelectors _ _) =>
        apply grows_serviceAndNamespaceToSelectors
    | |- grows _ _ (with_serviceToWorkload _ _) => apply grows_serviceToWorkload
    | |- grows _ _ (foldl _ _ _) => apply foldl_invariant; [intros ? ? ?|]
    | |- grows _ _ (if ?c then _ else _) => destruct c
    | |- grows _ _ (match ?x with _ => _ end) => destruct x
    end.

(** Every handler, and a run of the mapper, only grows the store. *)
Lemma step_grows td s ev :
  match ev with
  | Elapse _ | Resume _ => True
  | _ => grows td s (step td s ev)
  end.
Proof. destruct ev; try done; unfold_handlers; grows. Qed.

Lemma Load_Delete m k m' k' st :
  Load m' k' (Delete m k st)
  = if decide (m' = m /\ k' = k) then None else Load m' k' st.
Proof.
  case_decide as Hd.
  - destruct Hd as [-> ->]. destruct m; simpl; by rewrite lookup_delete_eq.
  - destruct (decide (m' = m)) as [->|Hm].
    + assert (k ≠ k') by (intros ->; by apply Hd).
      destruct m; simpl; by rewrite lookup_delete_ne.
    + by destruct m, m'.
Qed.

(** A goroutine resumes only once its sleep is over, and then removes its
    key from its map and nothing else. *)
Lemma wake_effect i st st' :
  wake i st = Some st' ->
  exists g,
    sleeping st !! i = Some g /\ (due g <= clock st)%Z
    /\ clock st' = clock st
    /\ sleeping st' = delete i (sleeping st)
    /\ (forall m k,
          Load m k st'
          = if decide (m = target g /\ k = key g) then None else Load m k st).
Proof.
  unfold wake. destruct (sleeping st !! i) as [g|]; [|done].
  case_decide; [|done]. intros [= <-]. exists g.
  split; [done|]. split; [done|].
  split; [by destruct (target g)|]. split; [by destruct (target g)|].
  intros m k. rewrite Load_Delete. case_decide; [done|]. by destruct m.
Qed.

Lemma Load_tick dt m k st : Load m k (tick dt st) = Load m k st.
Proof. by destruct m. Qed.







End DeleterFacts.




(** * Further properties *)

(** ** Parsing *)

(** X1.  [extractIPPort] succeeds on exactly the strings made of four
    dot-separated fields of one to three digits, a colon and at least one
    digit, and returns what stands before and after the colon; the fields
    are not checked against 255. *)
Theorem extractIPPort_exactly (s ip port : string) :
  extractIPPort s = Some (ip, port)
  <-> s = ip +:+ ":" +:+ port /\ IPPortShape ip port.
Proof.
  split.
  - apply extractIPPort_Some_inv.
  - intros [-> Hshape]. by apply extractIPPort_shape.
Qed.

(** The loop over the owner references stops at the first owner that
    yields a workload. *)
Lemma ownerLoop_break pod w refs : w ≠ "" -> ownerLoop pod w refs = w.
Proof. intros Hw. destruct refs; simpl; [done|]. by rewrite decide_True. Qed.

Lemma ownerLoop_first pod refs :
  ownerLoop pod "" refs
  = default "" (head (filter (fun w => w ≠ "") (ownerStep pod "" <$> refs))).
Proof.
  induction refs as [|r refs IH]; simpl; [done|].
  rewrite filter_cons. case_decide as Hw; simpl.
  - by apply ownerLoop_break.
  - rewrite Hw. apply IH.
Qed.

Lemma ownerStep_shape pod r :
  ownerStep pod "" r = ""
  \/ exists name, ownerStep pod "" r = attachNamespace name (pod_Namespace pod).
Proof.
  unfold ownerStep. repeat case_decide; repeat case_match; eauto.
Qed.

(** X2.  The derived workload of a pod is what its first owner that yields
    one gives, later owners are not consulted, and a pod none of whose
    owners yields one has the empty workload; a derived workload is a name
    attached to the namespace of the pod. *)
Theorem getWorkloadAndNamespace_first_owner (pod : Pod) :
  getWorkloadAndNamespace pod
  = default "" (head (filter (fun w => w ≠ "")
                        (ownerStep pod "" <$> pod_OwnerReferences pod)))
  /\ (getWorkloadAndNamespace pod = ""
      \/ exists name,
           getWorkloadAndNamespace pod = attachNamespace name (pod_Namespace pod)).
Proof.
  unfold getWorkloadAndNamespace. rewrite ownerLoop_first. split; [done|].
  induction (pod_OwnerReferences pod) as [|r refs IH]; simpl; [by left|].
  rewrite filter_cons. case_decide; simpl; [|done].
  destruct (ownerStep_shape pod r) as [?|?]; [done|by right].
Qed.


(** ** Pod events and the endpoints *)

Module EndpointFacts.

Lemma foldl_insert (v : string) (P : string -> Prop) `{forall k, Decision (P k)}
    l : forall st,
  let st' := foldl (fun st k => if decide (P k)
                                then with_ipToPod (insert k v) st else st) st l in
  sleeping st' = sleeping st /\ clock st' = clock st
  /\ forall k, ipToPod st' !! k
               = if decide (k ∈ l /\ P k) then Some v else ipToPod st !! k.
Proof.
  induction l as [|a l IH]; intros st; cbn [foldl].
  - split; [done|]. split; [done|]. intros k.
    destruct (decide (k ∈ [] /\ P k)) as [[Hk _]|_]; [|done].
    by apply elem_of_nil in Hk.
  - destruct (IH (if decide (P a) then with_ipToPod (insert a v) st else st))
      as (Hs & Hc & Hl).
    split; [rewrite Hs; by destruct (decide (P a))|].
    split; [rewrite Hc; by destruct (decide (P a))|].
    intros k. rewrite Hl.
    destruct (decide (k ∈ l /\ P k)) as [[Hin HP]|Hno];
      destruct (decide (k ∈ a :: l /\ P k)) as [[Hin' HP']|Hno']; try done.
    + destruct Hno'. split; [by right|done].
    + apply elem_of_cons in Hin' as [->|Hin']; [|by destruct Hno].
      destruct (decide (P a)); [|done]. simpl. by rewrite lookup_insert_eq.
    + destruct (decide (P a)) as [HP|HP]; [|done]. simpl.
      rewrite lookup_insert_ne; [done|]. intros <-. destruct Hno'.
      split; [by left|done].
Qed.

Lemma foldl_insert_all (v : string) l st k :
  ipToPod (foldl (fun st k => with_ipToPod (insert k v) st) st l) !! k
  = if decide (k ∈ l) then Some v else ipToPod st !! k.
Proof.
  revert st. induction l as [|a l IH]; intros st; cbn [foldl].
  - destruct (decide (k ∈ [])) as [Hk|_]; [by apply elem_of_nil in Hk|done].
  - rewrite IH.
    destruct (decide (k ∈ l)) as [Hin|Hno];
      destruct (decide (k ∈ a :: l)) as [Hin'|Hno']; try done.
    + destruct Hno'. by right.
    + apply elem_of_cons in Hin' as [->|Hin']; [|done].
      simpl. by rewrite lookup_insert_eq.
    + simpl. rewrite lookup_insert_ne; [done|]. intros <-. destruct Hno'. by left.
Qed.

Lemma foldl_insert_all_frame (v : string) l st :
  sleeping (foldl (fun st k => with_ipToPod (insert k v) st) st l) = sleeping st
  /\ clock (foldl (fun st k => with_ipToPod (insert k v) st) st l) = clock st.
Proof.
  revert st. induction l as [|a l IH]; intros st; simpl; [done|].
  destruct (IH (with_ipToPod (insert a v) st)) as [-> ->]. done.
Qed.

Lemma foldl_schedule (td : TimedDeleter) m (P : string -> Prop)
    `{forall k, Decision (P k)} l : forall st,
  let st' := foldl (fun st k => if decide (P k)
                                then DeleteWithDelay td m k st else st) st l in
  ipToPod st' = ipToPod st /\ clock st' = clock st
  /\ sleeping st' = sleeping st ++ (scheduled td st m <$> filter P l).
Proof.
  induction l as [|a l IH]; intros st; simpl.
  - by rewrite app_nil_r.
  - destruct (IH (if decide (P a) then DeleteWithDelay td m a st else st))
      as (Hi & Hc & Hs).
    rewrite Hi, Hc, Hs. rewrite filter_cons. unfold scheduled.
    case_decide; simpl; [|done]. by rewrite <- app_assoc.
Qed.

(** The keys of [ipToPod] and the goroutines after [handlePodAdd]. *)
Lemma handlePodAdd_effect pod st :
  sleeping (handlePodAdd pod st) = sleeping st
  /\ clock (handlePodAdd pod st) = clock st
  /\ forall k, ipToPod (handlePodAdd pod st) !! k
               = if decide (k ∈ storedEndpoints pod) then Some (pod_Name pod)
                 else ipToPod st !! k.
Proof.
  unfold handlePodAdd, storedEndpoints. destruct (pod_HostNetwork pod).
  - destruct (foldl_insert_all_frame (pod_Name pod) (hostIPPorts pod) st)
      as [-> ->].
    split; [done|]. split; [done|]. intros k. apply foldl_insert_all.
  - destruct (decide (pod_PodIP pod ≠ "")) as [Hip|Hip]; simpl;
      (split; [done|]; split; [done|]); intros k.
    + destruct (decide (k ∈ [pod_PodIP pod])) as [Hk|Hk].
      * apply list_elem_of_singleton in Hk as ->. by rewrite lookup_insert_eq.
      * rewrite lookup_insert_ne; [done|]. intros <-. destruct Hk.
        by apply list_elem_of_singleton.
    + destruct (decide (k ∈ [])) as [Hk|_]; [by apply elem_of_nil in Hk|done].
Qed.

Lemma onAddOrUpdatePod_ipToPod_add (td : TimedDeleter) pod st :
  ipToPod (onAddOrUpdatePod pod None true td st) = ipToPod (handlePodAdd pod st).
Proof.
  unfold onAddOrUpdatePod. unfold Debug. repeat case_decide; done.
Qed.

End EndpointFacts.

(** X4.  Once a pod with a derived workload has been added, every one of
    its endpoints (its IP, or each [HostIP:port] on the host network)
    resolves to that workload. *)
Theorem PodAdd_resolves (td : TimedDeleter) (st : State) (pod : Pod) (k : string) :
  k ∈ storedEndpoints pod ->
  getWorkloadAndNamespace pod ≠ "" ->
  GetWorkloadAndNamespaceByIP (step td st (PodAdd pod)) k
  = Some (extractResourceAndNamespace (getWorkloadAndNamespace pod)).
Proof.
  intros Hk Hw. rewrite GetWorkloadAndNamespaceByIP_chains. unfold podChain.
  unfold step.
  rewrite EndpointFacts.onAddOrUpdatePod_ipToPod_add.
  destruct (EndpointFacts.handlePodAdd_effect pod
              (Debug "list and watch for pods: ADD" [] st)) as (_ & _ & ->).
  rewrite decide_True by done. simpl.
  rewrite CountFacts.onAddOrUpdatePod_podToWorkloadAndNamespace.
  rewrite decide_True by done. by rewrite lookup_insert_eq.
Qed.

Lemma PodAdd_resolves_witness :
  "10.1.0.5" ∈ storedEndpoints cartPod
  /\ getWorkloadAndNamespace cartPod ≠ ""
  /\ GetWorkloadAndNamespaceByIP (step defaultDeleter newState (PodAdd cartPod))
       "10.1.0.5"
     = Some (extractResourceAndNamespace (getWorkloadAndNamespace cartPod)).
Proof.
  assert (H1 : "10.1.0.5" ∈ storedEndpoints cartPod)
    by (apply list_elem_of_singleton; reflexivity).
  assert (H2 : getWorkloadAndNamespace cartPod ≠ "")
    by (vm_compute; discriminate).
  split; [exact H1|]. split; [exact H2|].
  exact (PodAdd_resolves defaultDeleter newState cartPod "10.1.0.5" H1 H2).
Defined.

Module UpdateFacts.

Import EndpointFacts.

Lemma filter_all {A} (l : list A) : filter (fun _ => True) l = l.
Proof. induction l as [|a l IH]; [done|]. by rewrite filter_cons_True, IH. Qed.

(** What [handlePodUpdate] does to [ipToPod] and to the goroutines, in
    each of its cases. *)
Lemma handlePodUpdate_effect (td : TimedDeleter) newPod oldPod st :
  let st' := handlePodUpdate newPod oldPod td st in
  (exists ks,
     sleeping st' = sleeping st ++ (scheduled td st IpToPod <$> ks)
     /\ (forall k, k ∈ ks -> k ∈ storedEndpoints oldPod)
     /\ (forall k, k ∈ storedEndpoints oldPod -> k ∉ storedEndpoints newPod ->
                   k ∈ ks)
     /\ (pod_HostNetwork oldPod = pod_HostNetwork newPod ->
         forall k, k ∈ ks -> k ∉ storedEndpoints newPod))
  /\ (forall k,
        ipToPod st' !! k = ipToPod st !! k
        \/ k ∈ storedEndpoints newPod /\ ipToPod st' !! k = Some (pod_Name newPod))
  /\ (forall k, k ∈ storedEndpoints newPod -> k ∉ storedEndpoints oldPod ->
                ipToPod st' !! k = Some (pod_Name newPod)).
Proof.
  unfold handlePodUpdate, storedEndpoints.
  destruct (pod_HostNetwork oldPod) eqn:Ho, (pod_HostNetwork newPod) eqn:Hn;
    simpl.
  - (* both on the host network *)
    unfold updateHostNetworkRecords.
    set (newSet := list_to_set (hostIPPorts newPod) : gset string).
    set (oldSet := list_to_set (hostIPPorts oldPod) : gset string).
    destruct (foldl_schedule td IpToPod (fun k => k ∉ newSet)
                (elements oldSet) st) as (Hi & Hc & Hs).
    destruct (foldl_insert (pod_Name newPod) (fun k => k ∉ oldSet)
                (elements newSet)
                (foldl (fun st k => if decide (k ∉ newSet)
                                    then DeleteWithDelay td IpToPod k st else st)
                   st (elements oldSet))) as (Hs' & Hc' & Hl).
    assert (Hin : forall (l : list string) k,
              k ∈ elements (list_to_set l : gset string) <-> k ∈ l)
      by (intros l k; by rewrite elem_of_elements, elem_of_list_to_set).
    assert (Hnin : forall (l : list string) k,
              k ∉ (list_to_set l : gset string) <-> k ∉ l)
      by (intros l k; by rewrite elem_of_list_to_set).
    split; [|split].
    + exists (filter (fun k => k ∉ newSet) (elements oldSet)).
      split; [by rewrite Hs', Hs|]. split; [|split].
      * intros k [_ Hk]%list_elem_of_filter. exact (proj1 (Hin _ k) Hk).
      * intros k Hk Hnk. apply list_elem_of_filter.
        split; [exact (proj2 (Hnin _ k) Hnk)|exact (proj2 (Hin _ k) Hk)].
      * intros _ k [Hk _]%list_elem_of_filter. exact (proj1 (Hnin _ k) Hk).
    + intros k. rewrite Hl, Hi.
      destruct (decide (k ∈ elements newSet /\ k ∉ oldSet)) as [[Hd _]|_];
        [right|by left].
      split; [exact (proj1 (Hin _ k) Hd)|done].
    + intros k Hk Hnk. rewrite Hl.
      destruct (decide (k ∈ elements newSet /\ k ∉ oldSet)) as [_|Hd]; [done|].
      destruct Hd.
      split; [exact (proj2 (Hin _ k) Hk)|exact (proj2 (Hnin _ k) Hnk)].
  - (* the host network is left *)
    unfold removeHostNetworkRecords.
    destruct (foldl_schedule td IpToPod (fun _ => True) (hostIPPorts oldPod) st)
      as (Hi & Hc & Hs).
    assert (Hfold :
      foldl (fun st k => DeleteWithDelay td IpToPod k st) st (hostIPPorts oldPod)
      = foldl (fun st k => if decide True
                           then DeleteWithDelay td IpToPod k st else st)
          st (hostIPPorts oldPod)) by done.
    rewrite Hfold. clear Hfold.
    rewrite filter_all in Hs.
    split; [|split].
    + exists (hostIPPorts oldPod).
      split; [by destruct (decide (pod_PodIP newPod ≠ ""))|].
      split; [intros k Hk; exact Hk|]. split; [intros k Hk _; exact Hk|]. done.
    + intros k. destruct (decide (pod_PodIP newPod ≠ "")) as [Hip|Hip];
        [|left; exact (f_equal (fun m => m !! k) Hi)].
      destruct (decide (k = pod_PodIP newPod)) as [->|Hne].
      * right. simpl. rewrite lookup_insert_eq. split; [|done].
        by apply list_elem_of_singleton.
      * left. simpl. rewrite lookup_insert_ne by done.
        exact (f_equal (fun m => m !! k) Hi).
    + intros k Hk _.
      destruct (decide (pod_PodIP newPod ≠ "")) as [Hip|Hip];
        [|by apply elem_of_nil in Hk].
      apply list_elem_of_singleton in Hk as ->. simpl.
      by rewrite lookup_insert_eq.
  - (* the host network is joined *)
    set (st1 := if decide (pod_PodIP oldPod ≠ "")
                then DeleteWithDelay td IpToPod (pod_PodIP oldPod) st else st).
    assert (H1 : ipToPod st1 = ipToPod st) by (subst st1; by case_decide).
    assert (H2 : sleeping st1
                 = sleeping st
                   ++ (scheduled td st IpToPod
                         <$> (if decide (pod_PodIP oldPod ≠ "")
                              then [pod_PodIP oldPod] else [])))
      by (subst st1; case_decide; simpl; [done|by rewrite app_nil_r]).
    destruct (foldl_insert_all_frame (pod_Name newPod) (hostIPPorts newPod) st1)
      as [Hs _].
    split; [|split].
    + exists (if decide (pod_PodIP oldPod ≠ "") then [pod_PodIP oldPod] else []).
      split; [by rewrite Hs|]. split; [|split; [|done]].
      * intros k Hk. exact Hk.
      * intros k Hk _. exact Hk.
    + intros k. rewrite foldl_insert_all, H1.
      destruct (decide (k ∈ hostIPPorts newPod)); [by right|by left].
    + intros k Hk _. rewrite foldl_insert_all.
      by destruct (decide (k ∈ hostIPPorts newPod)).
  - (* both off the host network *)
    case_bool_decide as Hdiff; simpl.
    + set (st1 := if decide (pod_PodIP oldPod ≠ "")
                  then DeleteWithDelay td IpToPod (pod_PodIP oldPod) st else st).
      assert (H1 : ipToPod st1 = ipToPod st) by (subst st1; by case_decide).
      assert (H2 : sleeping st1
                   = sleeping st
                     ++ (scheduled td st IpToPod
                           <$> (if decide (pod_PodIP oldPod ≠ "")
                                then [pod_PodIP oldPod] else [])))
        by (subst st1; case_decide; simpl; [done|by rewrite app_nil_r]).
      split; [|split].
      * exists (if decide (pod_PodIP oldPod ≠ "") then [pod_PodIP oldPod] else []).
        split; [by destruct (decide (pod_PodIP newPod ≠ ""))|].
        split; [intros k Hk; exact Hk|]. split; [intros k Hk _; exact Hk|].
        intros _ k Hk. destruct (decide (pod_PodIP oldPod ≠ "")); [|by apply elem_of_nil in Hk].
        apply list_elem_of_singleton in Hk as ->.
        destruct (decide (pod_PodIP newPod ≠ ""));
          [by intros ?%list_elem_of_singleton|by intros ?%elem_of_nil].
      * intros k. destruct (decide (pod_PodIP newPod ≠ "")) as [Hip|Hip]; simpl;
          rewrite ?H1; [|by left].
        destruct (decide (k = pod_PodIP newPod)) as [->|Hne].
        -- right. rewrite lookup_insert_eq. split; [|done].
           by apply list_elem_of_singleton.
        -- left. by rewrite lookup_insert_ne.
      * intros k Hk _.
        destruct (decide (pod_PodIP newPod ≠ "")); [|by apply elem_of_nil in Hk].
        apply list_elem_of_singleton in Hk as ->. simpl.
        by rewrite lookup_insert_eq.
    + rewrite Hdiff.
      split; [|split].
      * exists []. simpl. rewrite app_nil_r. split; [done|].
        split; [by intros k ?%elem_of_nil|]. split; [done|].
        by intros _ k ?%elem_of_nil.
      * intros k. by left.
      * done.
Qed.

End UpdateFacts.

(** X5.  An update keeps the endpoints of a pod known: when every endpoint
    of the old object is in [ipToPod] under the name of the pod, every
    endpoint of the new object is after [handlePodUpdate]. *)
Theorem handlePodUpdate_knowsEndpoints (td : TimedDeleter)
    (newPod oldPod : Pod) (st : State) :
  pod_Name oldPod = pod_Name newPod ->
  knowsEndpoints st oldPod ->
  knowsEndpoints (handlePodUpdate newPod oldPod td st) newPod.
Proof.
  intros Hname Hknows k Hk.
  destruct (UpdateFacts.handlePodUpdate_effect td newPod oldPod st)
    as (_ & Hany & Hnew).
  destruct (decide (k ∈ storedEndpoints oldPod)) as [Hold|Hold];
    [|by apply Hnew].
  destruct (Hany k) as [->|[_ ->]]; [|done].
  rewrite <- Hname. by apply Hknows.
Qed.

(** X6.  [handlePodUpdate] removes nothing at once and schedules the
    deletion of endpoints of the old object only, among them every
    endpoint that the new object no longer has; when the pod did not
    change network it schedules no endpoint that the new object still has;
    it writes under endpoints of the new object only. *)
Theorem handlePodUpdate_footprint (td : TimedDeleter)
    (newPod oldPod : Pod) (st : State) :
  let st' := handlePodUpdate newPod oldPod td st in
  (forall g, g ∈ sleeping st' ->
     g ∈ sleeping st
     \/ exists k, g = scheduled td st IpToPod k /\ k ∈ storedEndpoints oldPod
                  /\ (pod_HostNetwork oldPod = pod_HostNetwork newPod ->
                      k ∉ storedEndpoints newPod))
  /\ (forall k, k ∈ storedEndpoints oldPod -> k ∉ storedEndpoints newPod ->
                scheduled td st IpToPod k ∈ sleeping st')
  /\ (forall k, k ∉ storedEndpoints newPod ->
                ipToPod st' !! k = ipToPod st !! k)
  /\ (forall k, is_Some (ipToPod st !! k) -> is_Some (ipToPod st' !! k)).
Proof.
  destruct (UpdateFacts.handlePodUpdate_effect td newPod oldPod st)
    as ((ks & Hs & Hold & Hgone & Hsame) & Hany & _).
  simpl. split; [|split; [|split]].
  - intros g. rewrite Hs. intros [Hg|Hg]%elem_of_app; [by left|right].
    apply list_elem_of_fmap in Hg as (k & -> & Hk).
    exists k. split; [done|]. split; [by apply Hold|].
    intros Hnet. by apply Hsame.
  - intros k Hk Hnk. rewrite Hs. apply elem_of_app. right.
    apply list_elem_of_fmap. exists k. split; [done|]. by apply Hgone.
  - intros k Hk. by destruct (Hany k) as [?|[? _]].
  - intros k Hsome. destruct (Hany k) as [->|[_ ->]]; [done|by eexists].
Qed.

Lemma handlePodUpdate_knowsEndpoints_witness :
  pod_Name cartPod = pod_Name cartPodRelabelled
  /\ knowsEndpoints knownPodState cartPod
  /\ knowsEndpoints
       (handlePodUpdate cartPodRelabelled cartPod defaultDeleter knownPodState)
       cartPodRelabelled.
Proof.
  assert (H1 : pod_Name cartPod = pod_Name cartPodRelabelled) by reflexivity.
  assert (H2 : knowsEndpoints knownPodState cartPod).
  { intros k Hk. apply list_elem_of_singleton in Hk as ->.
    vm_compute. reflexivity. }
  split; [exact H1|]. split; [exact H2|].
  exact (handlePodUpdate_knowsEndpoints defaultDeleter cartPodRelabelled cartPod
           knownPodState H1 H2).
Defined.

(** ** Labels and selectors *)

Module LabelFacts.

Lemma elem_of_labelSet (labels : gmap string string) x :
  x ∈ labelSet labels
  <-> exists k v, labels !! k = Some v /\ x = k +:+ "=" +:+ v.
Proof.
  unfold labelSet. rewrite elem_of_list_to_set, list_elem_of_fmap. split.
  - intros ([k v] & -> & Hkv). apply elem_of_map_to_list in Hkv. by exists k, v.
  - intros (k & v & Hkv & ->). exists (k, v). split; [done|].
    by apply elem_of_map_to_list.
Qed.

Lemma labelSet_nonempty (labels : gmap string string) :
  0 < size (labelSet labels) <-> labels ≠ ∅.
Proof.
  split.
  - intros Hsize ->.
    assert (He : labelSet ∅ = ∅)
      by (unfold labelSet; by rewrite map_to_list_empty).
    rewrite He, size_empty in Hsize. lia.
  - intros Hne. apply map_choose in Hne as (k & v & Hkv).
    assert (Hin : k +:+ "=" +:+ v ∈ labelSet labels)
      by (apply elem_of_labelSet; by exists k, v).
    destruct (decide (size (labelSet labels) = 0)) as [Hz|Hz]; [|lia].
    apply size_empty_iff in Hz. rewrite Hz in Hin. by apply elem_of_empty in Hin.
Qed.

End LabelFacts.

(** X7.  An Add or an Update of a pod with a derived workload and with
    labels replaces the label set on record for the workload by the labels
    of that pod, each as [key=value]: the labels of the other pods of the
    workload are not kept.  A pod without derived workload or without
    labels leaves the record as it was. *)
Theorem onAddOrUpdatePod_labels (td : TimedDeleter) (newObj : Pod)
    (oldObj : option Pod) (isAdd : bool) (st : State) :
  workloadAndNamespaceToLabels (onAddOrUpdatePod newObj oldObj isAdd td st)
  = (if decide (getWorkloadAndNamespace newObj ≠ "" /\ pod_Labels newObj ≠ ∅)
     then <[getWorkloadAndNamespace newObj := labelSet (pod_Labels newObj)]>
            (workloadAndNamespaceToLabels st)
     else workloadAndNamespaceToLabels st)
  /\ (forall x, x ∈ labelSet (pod_Labels newObj)
                <-> exists k v, pod_Labels newObj !! k = Some v
                                /\ x = k +:+ "=" +:+ v).
Proof.
  split; [|apply LabelFacts.elem_of_labelSet].
  unfold onAddOrUpdatePod.
  set (st1 := if isAdd then handlePodAdd _ _ else _).
  assert (H1 : workloadAndNamespaceToLabels st1 = workloadAndNamespaceToLabels st)
    by (subst st1; unfold_handlers; frame).
  pose proof (LabelFacts.labelSet_nonempty (pod_Labels newObj)) as Hsize.
  destruct (decide (getWorkloadAndNamespace newObj ≠ "")) as [Hw|Hw].
  - destruct (decide (0 < size (labelSet (pod_Labels newObj)))) as [Hl|Hl].
    + rewrite decide_True by (split; [done|by apply Hsize]).
      destruct isAdd; simpl; by rewrite H1.
    + rewrite decide_False by (intros [_ ?]; by apply Hl, Hsize).
      destruct isAdd; simpl; by rewrite H1.
  - rewrite decide_False by (by intros [? _]). done.
Qed.

(** ** Counting and deleting *)

(** X8.  Adding a pod with a derived workload and deleting it again leaves
    every count as it was; when the count of its workload was zero before,
    the deletion schedules the removal of the labels of the workload. *)
Theorem PodAdd_PodDelete_count (td : TimedDeleter) (st : State) (pod : Pod)
    (w : string) :
  getWorkloadAndNamespace pod ≠ "" ->
  (- 2 ^ 63 <= podCount st (getWorkloadAndNamespace pod) < 2 ^ 63 - 1)%Z ->
  podCount (run td st [PodAdd pod; PodDelete pod]) w = podCount st w
  /\ (podCount st (getWorkloadAndNamespace pod) = 0%Z ->
      scheduled td st WorkloadAndNamespaceToLabels (getWorkloadAndNamespace pod)
      ∈ sleeping (run td st [PodAdd pod; PodDelete pod])).
Proof.
  intros Hw Hrange.
  change (run td st [PodAdd pod; PodDelete pod])
    with (step td (step td st (PodAdd pod)) (PodDelete pod)).
  set (st1 := step td st (PodAdd pod)).
  assert (Hpod : podToWorkloadAndNamespace st1 !! pod_Name pod
                 = Some (getWorkloadAndNamespace pod)).
  { subst st1. unfold step.
    rewrite CountFacts.onAddOrUpdatePod_podToWorkloadAndNamespace.
    rewrite decide_True by done. by rewrite lookup_insert_eq. }
  assert (Hcount : workloadPodCount st1
                   = <[getWorkloadAndNamespace pod :=
                         (podCount st (getWorkloadAndNamespace pod) + 1)%Z]>
                       (workloadPodCount st)).
  { subst st1. rewrite step_workloadPodCount. rewrite decide_True by done.
    by rewrite CountFacts.int_wrap_small by lia. }
  assert (Hc1 : podCount st1 (getWorkloadAndNamespace pod)
                = (podCount st (getWorkloadAndNamespace pod) + 1)%Z)
    by (unfold podCount at 1; by rewrite Hcount, lookup_insert_eq).
  split.
  - unfold podCount at 1. rewrite step_workloadPodCount, Hpod, Hc1, Hcount.
    replace (podCount st (getWorkloadAndNamespace pod) + 1 - 1)%Z
      with (podCount st (getWorkloadAndNamespace pod)) by lia.
    rewrite CountFacts.int_wrap_small by lia.
    destruct (decide (w = getWorkloadAndNamespace pod)) as [->|Hne].
    + by rewrite lookup_insert_eq.
    + by rewrite !lookup_insert_ne.
  - intros Hzero. unfold step at 1. rewrite onDeletePod_sleeping.
    change (podToWorkloadAndNamespace
              (Debug "list and watch for pods: DELETE" [] st1))
      with (podToWorkloadAndNamespace st1).
    change (podCount (Debug "list and watch for pods: DELETE" [] st1))
      with (podCount st1).
    rewrite Hpod, Hc1, Hzero. simpl.
    rewrite !elem_of_app. right. right. apply elem_of_cons. left.
    assert (Hclock : clock st1 = clock st)
      by (destruct (DeleterFacts.step_grows td st (PodAdd pod)) as [? _]; done).
    unfold scheduled. simpl. by rewrite Hclock.
Qed.

Lemma PodAdd_PodDelete_count_witness :
  getWorkloadAndNamespace cartPod ≠ ""
  /\ (- 2 ^ 63 <= podCount newState (getWorkloadAndNamespace cartPod) < 2 ^ 63 - 1)%Z
  /\ podCount (run defaultDeleter newState [PodAdd cartPod; PodDelete cartPod])
       "cart@shop"
     = podCount newState "cart@shop".
Proof.
  assert (H1 : getWorkloadAndNamespace cartPod ≠ "") by (vm_compute; discriminate).
  assert (H2 : (- 2 ^ 63 <= podCount newState (getWorkloadAndNamespace cartPod)
                < 2 ^ 63 - 1)%Z) by (vm_compute; split; [discriminate|reflexivity]).
  split; [exact H1|]. split; [exact H2|].
  exact (proj1 (PodAdd_PodDelete_count defaultDeleter newState cartPod "cart@shop"
                  H1 H2)).
Defined.

(** X9.  A deferred deletion does happen: once the delay has passed and
    the goroutine started by [DeleteWithDelay] has resumed, the key is no
    longer in its index, every other entry is as it was, and the goroutine
    is gone. *)
Theorem DeleteWithDelay_eventually (td : TimedDeleter) (m : Index) (k : string)
    (st : State) :
  let later :=
    run td (DeleteWithDelay td m k st)
      [Elapse (Delay td); Resume (length (sleeping st))] in
  Load m k later = None
  /\ (forall m' k', m' ≠ m \/ k' ≠ k -> Load m' k' later = Load m' k' st)
  /\ sleeping later = sleeping st.
Proof.
  simpl. unfold wake. simpl.
  rewrite lookup_app_r by lia. rewrite Nat.sub_diag. simpl.
  rewrite decide_True by lia. simpl.
  split; [|split].
  - rewrite DeleterFacts.Load_Delete. by rewrite decide_True.
  - intros m' k' Hne. rewrite DeleterFacts.Load_Delete.
    rewrite decide_False by (intros [-> ->]; by destruct Hne).
    by destruct m'.
  - assert (Hs : forall s, sleeping (Delete m k s) = sleeping s)
      by (intros s; by destruct m).
    rewrite Hs. simpl.
    rewrite delete_take_drop, take_app_length.
    rewrite drop_ge by (rewrite length_app; simpl; lia).
    by rewrite app_nil_r.
Qed.

(** ** The mapper and the services *)

Module ServiceFacts.

Lemma onAddOrUpdateService_selectors service st :
  serviceAndNamespaceToSelectors (onAddOrUpdateService service st)
  = if decide (svc_Selector service ≠ ∅)
    then <[getServiceAndNamespace service := labelSet (svc_Selector service)]>
           (serviceAndNamespaceToSelectors st)
    else serviceAndNamespaceToSelectors st.
Proof.
  unfold onAddOrUpdateService.
  pose proof (LabelFacts.labelSet_nonempty (svc_Selector service)) as Hsize.
  destruct (decide (svc_ClusterIP service ≠ ""
                    /\ svc_ClusterIP service ≠ "None")) as [Hip|Hip];
    destruct (decide (0 < size (labelSet (svc_Selector service)))) as [Hl|Hl];
    destruct (decide (svc_Selector service ≠ ∅)) as [Hs|Hs];
    try reflexivity;
    solve [ exfalso; apply Hs; by apply Hsize
          | exfalso; apply Hl; by apply Hsize ].
Qed.

Lemma onAddOrUpdateService_frame service st :
  let st' := onAddOrUpdateService service st in
  ipToPod st' = ipToPod st
  /\ podToWorkloadAndNamespace st' = podToWorkloadAndNamespace st
  /\ workloadAndNamespaceToLabels st' = workloadAndNamespaceToLabels st
  /\ serviceToWorkload st' = serviceToWorkload st.
Proof. simpl. unfold onAddOrUpdateService. repeat split; frame. Qed.

Lemma MapServiceToWorkload_frame (td : TimedDeleter) st :
  let st' := MapServiceToWorkload td st in
  ipToPod st' = ipToPod st
  /\ podToWorkloadAndNamespace st' = podToWorkloadAndNamespace st
  /\ ipToServiceAndNamespace st' = ipToServiceAndNamespace st
  /\ serviceAndNamespaceToSelectors st' = serviceAndNamespaceToSelectors st
  /\ workloadAndNamespaceToLabels st' = workloadAndNamespaceToLabels st
  /\ workloadPodCount st' = workloadPodCount st.
Proof. simpl. repeat split; unfold_handlers; frame. Qed.

Lemma MapServiceToWorkload_lookup (td : TimedDeleter) st s :
  serviceToWorkload (MapServiceToWorkload td st) !! s
  = match serviceAndNamespaceToSelectors st !! s with
    | Some sel =>
        match matchingWorkloads (extractResourceAndNamespace s).2 sel st with
        | [w] => Some w
        | _ => serviceToWorkload st !! s
        end
    | None => serviceToWorkload st !! s
    end.
Proof.
  destruct (MapperFacts.foldl_mapService td
              (map_to_list (serviceAndNamespaceToSelectors st))
              (Debug "Map service to workload at:" [] st)
              (NoDup_fst_map_to_list _))
    as (_ & _ & F3 & _).
  fold (MapServiceToWorkload td st) in F3.
  rewrite list_to_map_to_list in F3. apply F3.
Qed.

End ServiceFacts.

(** X10.  A run of the mapper changes nothing but the index of services to
    workloads, the pending deletions and the log: the other five indexes
    and the pod counts are as before.  A second run right after the first
    leaves the index of services to workloads as the first run left it. *)
Theorem MapServiceToWorkload_idempotent (td : TimedDeleter) (st : State) :
  let st' := MapServiceToWorkload td st in
  serviceToWorkload (MapServiceToWorkload td st') = serviceToWorkload st'
  /\ ipToPod st' = ipToPod st
  /\ podToWorkloadAndNamespace st' = podToWorkloadAndNamespace st
  /\ ipToServiceAndNamespace st' = ipToServiceAndNamespace st
  /\ serviceAndNamespaceToSelectors st' = serviceAndNamespaceToSelectors st
  /\ workloadAndNamespaceToLabels st' = workloadAndNamespaceToLabels st
  /\ workloadPodCount st' = workloadPodCount st.
Proof.
  intros st'. split; [|apply ServiceFacts.MapServiceToWorkload_frame].
  destruct (ServiceFacts.MapServiceToWorkload_frame td st)
    as (_ & _ & _ & Hsel & Hlab & _). fold st' in Hsel, Hlab.
  apply map_eq. intros s.
  rewrite (ServiceFacts.MapServiceToWorkload_lookup td st' s), Hsel.
  destruct (serviceAndNamespaceToSelectors st !! s) as [sel|] eqn:Hs; [|done].
  rewrite (MapperFacts.matchingWorkloads_ext st' st _ _ Hlab).
  destruct (matchingWorkloads _ sel st) as [|w [|w' ws]] eqn:Hm; try done.
  unfold st'. rewrite ServiceFacts.MapServiceToWorkload_lookup, Hs, Hm. done.
Qed.

(** X11.  A service with a cluster IP and selectors resolves after the next
    run of the mapper: once the service has been added and the mapper has
    run, a lookup of the cluster IP returns the one workload of the
    namespace of the service whose labels contain the selectors, provided
    that the IP is not the endpoint of a known pod. *)
Theorem ServiceAdd_resolves (td : TimedDeleter) (st : State) (service : Service)
    (w : string) :
  let ns := (extractResourceAndNamespace (getServiceAndNamespace service)).2 in
  let sel := labelSet (svc_Selector service) in
  svc_ClusterIP service ≠ "" ->
  svc_ClusterIP service ≠ "None" ->
  svc_Selector service ≠ ∅ ->
  podChain st (svc_ClusterIP service) = None ->
  candidate st ns sel w ->
  (forall w', candidate st ns sel w' -> w' = w) ->
  GetWorkloadAndNamespaceByIP (run td st [ServiceAdd service; MapperRun])
    (svc_ClusterIP service)
  = Some (extractResourceAndNamespace w).
Proof.
  intros ns sel Hip Hnone Hsel Hpod Hcand Huniq.
  change (run td st [ServiceAdd service; MapperRun])
    with (MapServiceToWorkload td
            (onAddOrUpdateService service
               (Debug "list and watch for services: ADD" [] st))).
  set (st0 := Debug "list and watch for services: ADD" [] st).
  set (st1 := onAddOrUpdateService service st0).
  destruct (ServiceFacts.onAddOrUpdateService_frame service st0)
    as (A1 & A2 & A3 & _). fold st1 in A1, A2, A3.
  destruct (ServiceFacts.MapServiceToWorkload_frame td st1)
    as (M1 & M2 & M3 & _).
  assert (Hkey : ipToServiceAndNamespace st1 !! svc_ClusterIP service
                 = Some (getServiceAndNamespace service)).
  { unfold st1. rewrite onAddOrUpdateService_ipToServiceAndNamespace.
    rewrite decide_True by done. by rewrite lookup_insert_eq. }
  assert (Hsels : serviceAndNamespaceToSelectors st1
                    !! getServiceAndNamespace service = Some sel).
  { unfold st1. rewrite ServiceFacts.onAddOrUpdateService_selectors.
    rewrite decide_True by done. by rewrite lookup_insert_eq. }
  assert (Hm : matchingWorkloads ns sel st1 = [w]).
  { rewrite (MapperFacts.matchingWorkloads_ext st1 st) by (by rewrite A3).
    by apply MapperFacts.matchingWorkloads_one. }
  rewrite GetWorkloadAndNamespaceByIP_chains.
  assert (Hp : podChain (MapServiceToWorkload td st1) (svc_ClusterIP service)
               = None).
  { unfold podChain in *. by rewrite M1, M2, A1, A2. }
  rewrite Hp. unfold serviceChain. rewrite M3, Hkey. simpl.
  rewrite ServiceFacts.MapServiceToWorkload_lookup, Hsels. fold ns.
  by rewrite Hm.
Qed.

Lemma ServiceAdd_resolves_witness :
  GetWorkloadAndNamespaceByIP
    (run defaultDeleter (run defaultDeleter newState [PodAdd cartPod])
       [ServiceAdd cartService; MapperRun])
    (svc_ClusterIP cartService)
  = Some (extractResourceAndNamespace "cart@shop").
Proof.
  pose (st := run defaultDeleter newState [PodAdd cartPod]).
  assert (Hm : matchingWorkloads
                 (extractResourceAndNamespace (getServiceAndNamespace cartService)).2
                 (labelSet (svc_Selector cartService)) st = ["cart@shop"])
    by (vm_compute; reflexivity).
  apply MapperFacts.matchingWorkloads_one in Hm as [Hcand Huniq].
  apply (ServiceAdd_resolves defaultDeleter st cartService "cart@shop").
  - vm_compute. discriminate.
  - vm_compute. discriminate.
  - intros Hempty.
    assert (H : svc_Selector cartService !! "app" = None)
      by (rewrite Hempty; apply lookup_empty).
    vm_compute in H. discriminate.
  - vm_compute. reflexivity.
  - exact Hcand.
  - exact Huniq.
Defined.

(** ** The attributes that [Process] touches *)

Section ProcessFacts.

Variable ParseIP : string -> option (list Z).

Lemma lookupFull_cases e valueStr attributes :
  (exists workload namespace,
     GetWorkloadAndNamespaceByIP e valueStr = Some (workload, namespace)
     /\ lookupFull ParseIP e valueStr attributes
        = (PutStr AttributeRemoteNamespace namespace
             (PutStr AttributeRemoteService workload attributes), ""))
  \/ (lookupFull ParseIP e valueStr attributes).1 = attributes.
Proof.
  unfold lookupFull. destruct (extractIPPort valueStr) as [[ip port]|].
  - destruct (GetWorkloadAndNamespaceByIP e valueStr) as [[workload namespace]|];
      [left; by eexists _, _|by right].
  - right. by destruct (isIP ParseIP valueStr).
Qed.

(** X12.  [Process] writes to the two remote attributes only and removes
    no attribute; without a service attribute it changes nothing.  It
    changes the namespace attribute only together with the service
    attribute, to a pair that the resolver returns.  It leaves every index
    of the resolver and the pending deletions as they were. *)
Theorem Process_footprint (e : State)
    (attributes resourceAttributes : gmap string Value) :
  let after := (Process ParseIP e attributes resourceAttributes).1.1 in
  let e' := (Process ParseIP e attributes resourceAttributes).1.2 in
  (forall k, k ≠ AttributeRemoteService -> k ≠ AttributeRemoteNamespace ->
             after !! k = attributes !! k)
  /\ (forall k, is_Some (attributes !! k) -> is_Some (after !! k))
  /\ (attributes !! AttributeRemoteService = None ->
      after = attributes /\ e' = e)
  /\ (after !! AttributeRemoteNamespace ≠ attributes !! AttributeRemoteNamespace ->
      exists key workload namespace,
        GetWorkloadAndNamespaceByIP e key = Some (workload, namespace)
        /\ after !! AttributeRemoteService = Some (ValueStr workload)
        /\ after !! AttributeRemoteNamespace = Some (ValueStr namespace))
  /\ (forall m k, Load m k e' = Load m k e)
  /\ sleeping e' = sleeping e.
Proof.
  simpl. unfold Process.
  destruct (attributes !! AttributeRemoteService) as [value|] eqn:Hv;
    [|by repeat split].
  assert (Hput2 : forall workload namespace k,
            PutStr AttributeRemoteNamespace namespace
              (PutStr AttributeRemoteService workload attributes) !! k
            = if decide (k = AttributeRemoteNamespace)
              then Some (ValueStr namespace)
              else if decide (k = AttributeRemoteService)
                   then Some (ValueStr workload) else attributes !! k).
  { intros workload namespace k. unfold PutStr. repeat case_decide; subst.
    - by rewrite lookup_insert_eq.
    - rewrite lookup_insert_ne by done. by rewrite lookup_insert_eq.
    - by rewrite !lookup_insert_ne. }
  assert (Hput1 : forall v k,
            PutStr AttributeRemoteService v attributes !! k
            = if decide (k = AttributeRemoteService)
              then Some (ValueStr v) else attributes !! k).
  { intros v k. unfold PutStr. case_decide; subst.
    - by rewrite lookup_insert_eq.
    - by rewrite lookup_insert_ne. }
  destruct (lookupFull_cases e (AsString value) attributes)
    as [(workload & namespace & Hres & ->)|Hsame].
  - simpl. split; [|split; [|split; [|split]]]; try done.
    + intros k H1 H2. rewrite Hput2. by rewrite !decide_False.
    + intros k Hk. rewrite Hput2. repeat case_decide; done.
    + intros _. exists (AsString value), workload, namespace.
      split; [done|]. rewrite !Hput2. by split.
  - destruct (lookupFull ParseIP e (AsString value) attributes)
      as [attributes1 ipStr]. simpl in Hsame. subst attributes1.
    case_decide as Hip; [|by repeat split].
    destruct (GetWorkloadAndNamespaceByIP e ipStr) as [[workload namespace]|]
      eqn:Hres; simpl.
    + split; [|split; [|split; [|split]]]; try done.
      * intros k H1 H2. rewrite Hput2. by rewrite !decide_False.
      * intros k Hk. rewrite Hput2. repeat case_decide; done.
      * intros _. exists ipStr, workload, namespace.
        split; [done|]. rewrite !Hput2. by split.
    + split; [|split; [|split; [|split; [|split]]]]; try done.
      * intros k H1 H2. rewrite Hput1. by rewrite decide_False.
      * intros k Hk. rewrite Hput1. case_decide; done.
      * intros Hne. exfalso. apply Hne. rewrite Hput1. by rewrite decide_False.
Qed.

End ProcessFacts.

(** ** The keys of host-network pods *)

Module HostPortFacts.

Lemma string_of_uint_digits d :
  Strings.all digit (NilEmpty.string_of_uint d) = true.
Proof. induction d; simpl; [done|by rewrite IHd..]. Qed.

Lemma Itoa_digits z :
  (0 <= z)%Z -> Strings.all digit (Itoa z) = true /\ Itoa z ≠ "".
Proof.
  intros Hz. destruct z as [|p|p]; [done| |lia].
  unfold Itoa. simpl.
  pose proof (string_of_uint_digits (Pos.to_uint p)) as Hd.
  destruct (Pos.to_uint p); simpl in *; done.
Qed.

Lemma elem_of_getHostNetworkPorts pod port :
  port ∈ getHostNetworkPorts pod
  <-> pod_HostNetwork pod = true
      /\ exists container p,
           container ∈ pod_Containers pod /\ p ∈ Ports container
           /\ HostPort p ≠ 0%Z /\ port = Itoa (HostPort p).
Proof.
  unfold getHostNetworkPorts. destruct (pod_HostNetwork pod); simpl.
  - rewrite list_elem_of_bind. split.
    + intros (container & Hin & Hc). apply list_elem_of_bind in Hin as (p & Hin & Hp).
      case_decide; [|by apply elem_of_nil in Hin].
      apply list_elem_of_singleton in Hin as ->.
      split; [done|]. by exists container, p.
    + intros (_ & container & p & Hc & Hp & Hne & ->).
      exists container. split; [|done]. apply list_elem_of_bind.
      exists p. split; [|done]. rewrite decide_True by done.
      by apply list_elem_of_singleton.
  - split; [by intros ?%elem_of_nil|]. by intros [? _].
Qed.

End HostPortFacts.

(** X13.  The keys stored for a pod on the host network are read back by
    [extractIPPort]: when the host IP consists of four dot-separated
    fields of one to three digits and no host port is negative, every
    stored endpoint of the pod splits into the host IP and the decimal
    form of a nonzero host port of one of its containers. *)
Theorem hostNetwork_endpoints_parse (pod : Pod) (k : string) :
  pod_HostNetwork pod = true ->
  dottedQuad (pod_HostIP pod) ->
  (forall container p,
     container ∈ pod_Containers pod -> p ∈ Ports container ->
     (0 <= HostPort p)%Z) ->
  k ∈ storedEndpoints pod ->
  exists container p,
    container ∈ pod_Containers pod /\ p ∈ Ports container
    /\ HostPort p ≠ 0%Z
    /\ extractIPPort k = Some (pod_HostIP pod, Itoa (HostPort p)).
Proof.
  intros Hhost Hquad Hpos Hk. unfold storedEndpoints in Hk.
  rewrite Hhost in Hk. unfold hostIPPorts in Hk.
  apply list_elem_of_fmap in Hk as (port & -> & Hport).
  apply HostPortFacts.elem_of_getHostNetworkPorts in Hport
    as (_ & container & p & Hc & Hp & Hne & ->).
  exists container, p. split; [done|]. split; [done|]. split; [done|].
  apply extractIPPort_shape. split; [exact Hquad|].
  destruct (HostPortFacts.Itoa_digits (HostPort p)) as [Hd Hn]; [by eapply Hpos|].
  by split.
Qed.

Lemma hostNetwork_endpoints_parse_witness :
  exists container p,
    container ∈ pod_Containers hostNetworkPod /\ p ∈ Ports container
    /\ HostPort p ≠ 0%Z
    /\ extractIPPort "10.2.0.1:8080"
       = Some (pod_HostIP hostNetworkPod, Itoa (HostPort p)).
Proof.
  apply (hostNetwork_endpoints_parse hostNetworkPod "10.2.0.1:8080").
  - reflexivity.
  - exists "10", "2", "0", "1". split; [reflexivity|].
    repeat split; simpl; lia.
  - intros container p Hc Hp.
    apply list_elem_of_singleton in Hc as ->.
    apply list_elem_of_singleton in Hp as ->. simpl. lia.
  - vm_compute. left.
Defined.

(** ** Stopping the resolver *)

(** X14.  [Stop] can be called again: on a channel whose flag tells
    whether it has been closed, as that of a new resolver does, neither
    the first call nor a later one panics, each returns a nil error, and
    the channel is closed after the first. *)
Theorem Stop_again (sc : safeChannel) :
  closed sc = negb (ch_open sc) ->
  exists sc',
    Stop sc = Some (sc', None)
    /\ ch_open sc' = false /\ closed sc' = true
    /\ Stop sc' = Some (sc', None).
Proof.
  destruct sc as [[] []]; simpl; try discriminate; intros _; by eexists.
Qed.

Lemma Stop_again_witness :
  exists sc',
    Stop newSafeChannel = Some (sc', None)
    /\ ch_open sc' = false /\ closed sc' = true
    /\ Stop sc' = Some (sc', None).
Proof. apply (Stop_again newSafeChannel). reflexivity. Defined.

(** ** The hosted-in attributes *)

Module PrefixFacts.

Lemma substring_all s : String.substring 0 (String.length s) s = s.
Proof. induction s as [|a s IH]; simpl; [done|by rewrite IH]. Qed.

Lemma prefix_split p : forall s,
  String.prefix p s = true ->
  s = p +:+ String.substring (String.length p)
              (String.length s - String.length p) s.
Proof.
  induction p as [|a p IH]; intros s Hp.
  - simpl. rewrite Nat.sub_0_r. by rewrite substring_all.
  - destruct s as [|b s]; [done|]. simpl in Hp.
    destruct (ascii_dec a b) as [->|]; [|done].
    rewrite StringFacts.app_cons. simpl. f_equal. by apply IH.
Qed.

Lemma TrimPrefix_split s p : HasPrefix s p = true -> s = p +:+ TrimPrefix s p.
Proof.
  intros Hp. unfold TrimPrefix. rewrite Hp. by apply prefix_split.
Qed.

End PrefixFacts.

Section HostedInFacts.

Variables HostedInAttributeK8SNamespace HostedInAttributeClusterName : string.
Variable invalidAsString : option string.

Lemma findClusterName_first resourceAttributes name :
  findClusterName resourceAttributes = Some name ->
  exists before after,
    resourceAttributes
    = before ++ ("ec2.tag.kubernetes.io/cluster/" +:+ name, ValueStr "owned")
                  :: after
    /\ findClusterName before = None.
Proof.
  induction resourceAttributes as [|[k value] rest IH]; simpl; [done|].
  destruct (HasPrefix k "ec2.tag.kubernetes.io/cluster/"
            && match value with
               | ValueStr s => bool_decide (s = "owned")
               | ValueOther _ => false
               end) eqn:Htest.
  - intros [= <-]. apply andb_true_iff in Htest as [Hp Hv].
    destruct value as [s|]; [|done]. apply bool_decide_eq_true in Hv as ->.
    exists [], rest. split; [|done]. simpl. f_equal. f_equal.
    by apply PrefixFacts.TrimPrefix_split.
  - intros (before & after & -> & Hb)%IH.
    exists ((k, value) :: before), after. split; [done|].
    simpl. by rewrite Htest.
Qed.

(** X15.  The hosted-in [Process] returns a nil error and keeps the
    attribute mapping.  A cluster name that is set is written to the
    cluster attribute, whatever the resource attributes are, and stays.
    A cluster name is set only when the cloud provider of the resource
    is [aws], to what follows the tag prefix in the key of the first
    resource attribute with that prefix and the string value [owned];
    it is then written to the cluster attribute. *)
Theorem HostedIn_Process_clusterName (h h' : eksHostedInAttributeResolver)
    (attributes after : gmap string Value)
    (resourceAttributes : list (string * Value)) (err : error) :
  HostedIn_Process HostedInAttributeClusterName invalidAsString
    h attributes resourceAttributes = Some (after, h', err) ->
  err = None
  /\ attributeMap h' = attributeMap h
  /\ (clusterName h ≠ "" ->
      h' = h
      /\ after !! HostedInAttributeClusterName = Some (ValueStr (clusterName h)))
  /\ (clusterName h' ≠ clusterName h ->
      platformOf invalidAsString resourceAttributes = Some AttributeCloudProviderAWS
      /\ after !! HostedInAttributeClusterName = Some (ValueStr (clusterName h'))
      /\ exists before rest,
           resourceAttributes
           = before ++ ("ec2.tag.kubernetes.io/cluster/" +:+ clusterName h',
                         ValueStr "owned") :: rest
           /\ findClusterName before = None).
Proof.
  unfold HostedIn_Process.
  set (attributes1 := foldl _ attributes _).
  case_decide as Hname.
  - intros [= <- <- <-]. split; [done|]. split; [done|]. split; [|done].
    intros _. split; [done|]. unfold PutStr. by rewrite lookup_insert_eq.
  - destruct (platformOf invalidAsString resourceAttributes) as [platform|]
      eqn:Hplatform; [|done].
    case_decide as Haws; [|intros [= <- <- <-]; by repeat split].
    destruct (findClusterName resourceAttributes) as [name|] eqn:Hfind;
      [|intros [= <- <- <-]; by repeat split].
    intros [= <- <- <-]. simpl.
    split; [done|]. split; [done|]. split; [done|].
    intros _. split; [by rewrite Haws|].
    split; [unfold PutStr; by rewrite lookup_insert_eq|].
    by apply findClusterName_first.
Qed.

(** X16.  With the attribute mapping of a new hosted-in resolver, a call
    of [Process] copies the namespace of the resource, rendered as a
    string, to the namespace attribute, and leaves that attribute as it
    was when the resource has none. *)
Theorem HostedIn_Process_namespace (h h' : eksHostedInAttributeResolver)
    (attributes after : gmap string Value)
    (resourceAttributes : list (string * Value)) (err : error) :
  attributeMap h
  = attributeMap (newEKSHostedInAttributeResolver HostedInAttributeK8SNamespace) ->
  HostedInAttributeK8SNamespace ≠ HostedInAttributeClusterName ->
  HostedIn_Process HostedInAttributeClusterName invalidAsString
    h attributes resourceAttributes = Some (after, h', err) ->
  after !! HostedInAttributeK8SNamespace
  = match Get resourceAttributes AttributeK8SNamespaceName with
    | Some val => Some (ValueStr (AsString val))
    | None => attributes !! HostedInAttributeK8SNamespace
    end.
Proof.
  intros Hmap Hkeys. unfold HostedIn_Process. rewrite Hmap. simpl.
  rewrite map_to_list_singleton. simpl.
  set (attributes1 := match Get resourceAttributes AttributeK8SNamespaceName with
                      | Some val => _ | None => _ end).
  assert (H1 : attributes1 !! HostedInAttributeK8SNamespace
               = match Get resourceAttributes AttributeK8SNamespaceName with
                 | Some val => Some (ValueStr (AsString val))
                 | None => attributes !! HostedInAttributeK8SNamespace
                 end).
  { subst attributes1.
    destruct (Get resourceAttributes AttributeK8SNamespaceName); [|done].
    unfold PutStr. by rewrite lookup_insert_eq. }
  assert (H2 : forall name,
            PutStr HostedInAttributeClusterName name attributes1
              !! HostedInAttributeK8SNamespace
            = attributes1 !! HostedInAttributeK8SNamespace)
    by (intros; unfold PutStr; by rewrite lookup_insert_ne).
  case_decide.
  - intros [= <- <- <-]. by rewrite H2.
  - destruct (platformOf invalidAsString resourceAttributes); [|done].
    case_decide; [|by intros [= <- <- <-]].
    destruct (findClusterName resourceAttributes).
    + intros [= <- <- <-]. by rewrite H2.
    + by intros [= <- <- <-].
Qed.

End HostedInFacts.

Lemma HostedIn_Process_clusterName_witness :
  let h := newEKSHostedInAttributeResolver "HostedIn.K8s.Namespace" in
  let resourceAttributes :=
    [("cloud.provider", ValueStr "aws");
     ("ec2.tag.kubernetes.io/cluster/prod", ValueStr "owned")] in
  exists after h',
    HostedIn_Process "HostedIn.EKS.Cluster" None h ∅ resourceAttributes
    = Some (after, h', None)
    /\ clusterName h' = "prod"
    /\ after !! "HostedIn.EKS.Cluster" = Some (ValueStr "prod").
Proof.
  simpl.
  destruct (HostedIn_Process_clusterName "HostedIn.EKS.Cluster" None
              (newEKSHostedInAttributeResolver "HostedIn.K8s.Namespace") _ ∅ _
              [("cloud.provider", ValueStr "aws");
               ("ec2.tag.kubernetes.io/cluster/prod", ValueStr "owned")] None
              eq_refl) as (_ & _ & _ & Hset).
  destruct Hset as (_ & Hafter & _); [simpl; discriminate|].
  eexists _, _. split; [reflexivity|]. split; [reflexivity|]. exact Hafter.
Defined.

Lemma HostedIn_Process_namespace_witness :
  let h := newEKSHostedInAttributeResolver "HostedIn.K8s.Namespace" in
  let resourceAttributes :=
    [("cloud.provider", ValueStr "aws"); ("k8s.namespace.name", ValueStr "shop")] in
  exists after h',
    HostedIn_Process "HostedIn.EKS.Cluster" None h ∅ resourceAttributes
    = Some (after, h', None)
    /\ after !! "HostedIn.K8s.Namespace" = Some (ValueStr "shop").
Proof.
  simpl. eexists _, _. split; [reflexivity|].
  exact (HostedIn_Process_namespace "HostedIn.K8s.Namespace"
           "HostedIn.EKS.Cluster" None
           (newEKSHostedInAttributeResolver "HostedIn.K8s.Namespace") _ ∅ _
           [("cloud.provider", ValueStr "aws");
            ("k8s.namespace.name", ValueStr "shop")] None
           eq_refl ltac:(discriminate) eq_refl).
Defined.

(** ** The drop rules *)

Section DropperFacts.

Variables ActionItem Matchers : Type.
Variable SelectorMatchers : ActionItem -> Matchers.
Variable matchesSelectors : gmap string Value -> Matchers -> bool -> bool * error.

Lemma dropLoop_spec actions attributes :
  let result := dropLoop SelectorMatchers matchesSelectors actions attributes in
  let test element := matchesSelectors attributes (SelectorMatchers element) false in
  (result = (true, None)
   /\ exists before element rest,
        actions = before ++ element :: rest
        /\ (test element).1 = true
        /\ Forall (fun a => test a = (false, None)) before)
  \/ (exists e before element rest,
        result = (false, Some e)
        /\ actions = before ++ element :: rest
        /\ test element = (false, Some e)
        /\ Forall (fun a => test a = (false, None)) before)
  \/ (result = (false, None)
      /\ Forall (fun a => test a = (false, None)) actions).
Proof.
  simpl. induction actions as [|a actions IH]; simpl.
  - right. right. by split.
  - destruct (matchesSelectors attributes (SelectorMatchers a) false)
      as [isMatched err] eqn:Ha.
    destruct isMatched.
    + left. split; [done|]. exists [], a, actions. by rewrite Ha.
    + destruct err as [e|].
      * right. left. exists e, [], a, actions. by rewrite Ha.
      * destruct IH as [[Hr (before & element & rest & -> & Hm & Hall)]
                       |[(e & before & element & rest & Hr & -> & Hm & Hall)
                        |[Hr Hall]]].
        -- left. split; [done|]. exists (a :: before), element, rest.
           split; [done|]. split; [done|]. by constructor.
        -- right. left. exists e, (a :: before), element, rest.
           split; [done|]. split; [done|]. split; [done|]. by constructor.
        -- right. right. split; [done|]. by constructor.
Qed.

(** X17.  [ShouldBeDropped] answers by the first action whose selectors
    either match or fail with an error: it returns true, with a nil
    error, when that action matches, even if the match comes with an
    error; it returns false with the error when that action fails
    without matching; and it returns false with a nil error when there
    is no such action, in particular without actions.  It never returns
    true together with an error. *)
Theorem ShouldBeDropped_spec (Actions : list ActionItem)
    (attributes : gmap string Value) :
  let result := ShouldBeDropped SelectorMatchers matchesSelectors Actions attributes in
  let test element := matchesSelectors attributes (SelectorMatchers element) false in
  let undecided := Forall (fun a => test a = (false, None)) in
  (result.1 = true
   <-> exists before element rest,
         Actions = before ++ element :: rest
         /\ (test element).1 = true /\ undecided before)
  /\ (forall e,
        result.2 = Some e
        <-> exists before element rest,
              Actions = before ++ element :: rest
              /\ test element = (false, Some e) /\ undecided before)
  /\ (result.1 = true -> result.2 = None)
  /\ (undecided Actions -> result = (false, None)).
Proof.
  simpl.
  assert (Hloop : ShouldBeDropped SelectorMatchers matchesSelectors Actions attributes
                  = dropLoop SelectorMatchers matchesSelectors Actions attributes)
    by (by destruct Actions).
  rewrite Hloop. clear Hloop.
  set (test := fun element =>
                 matchesSelectors attributes (SelectorMatchers element) false).
  assert (Hfirst : forall before element rest before' element' rest',
            before ++ element :: rest = before' ++ element' :: rest' ->
            Forall (fun a => test a = (false, None)) before ->
            Forall (fun a => test a = (false, None)) before' ->
            test element ≠ (false, None) -> test element' ≠ (false, None) ->
            element = element').
  { induction before as [|b before IH]; intros element rest [|b' before']
      element' rest' Heq Hb Hb' Hne Hne'; simpl in Heq.
    - by injection Heq.
    - injection Heq as -> _. apply Forall_cons in Hb' as [Hb' _]. done.
    - injection Heq as <- _. apply Forall_cons in Hb as [Hb _]. done.
    - injection Heq as <- Heq. apply Forall_cons in Hb as [_ Hb].
      apply Forall_cons in Hb' as [_ Hb']. by eapply IH. }
  assert (Hin : forall before element rest,
            Forall (fun a => test a = (false, None)) (before ++ element :: rest) ->
            test element = (false, None)).
  { intros before element rest Hall. apply Forall_app in Hall as [_ Hall].
    by apply Forall_cons in Hall as [? _]. }
  subst test. cbv beta in *.
  destruct (dropLoop_spec Actions attributes)
    as [[Hr (before & element & rest & HA & Hm & Hall)]
       |[(e & before & element & rest & Hr & HA & Hm & Hall)
        |[Hr Hall]]]; rewrite Hr; simpl.
  - split; [|split; [|split]].
    + split; [|done]. intros _. by exists before, element, rest.
    + intros e. split; [done|].
      intros (before' & element' & rest' & HA' & Hm' & Hall').
      rewrite HA in HA'.
      assert (element = element') as <-.
      { eapply Hfirst; [done..| |]; intros Hx.
        - by rewrite Hx in Hm.
        - by rewrite Hx in Hm'. }
      by rewrite Hm' in Hm.
    + done.
    + intros HallA. rewrite HA in HallA. apply Hin in HallA.
      by rewrite HallA in Hm.
  - split; [|split; [|split]].
    + split; [done|].
      intros (before' & element' & rest' & HA' & Hm' & Hall').
      rewrite HA in HA'.
      assert (element = element') as <-.
      { eapply Hfirst; [done..| |]; intros Hx.
        - by rewrite Hx in Hm.
        - by rewrite Hx in Hm'. }
      by rewrite Hm in Hm'.
    + intros e'. split.
      * intros [= <-]. by exists before, element, rest.
      * intros (before' & element' & rest' & HA' & Hm' & Hall').
        rewrite HA in HA'.
        assert (element = element') as <-.
        { eapply Hfirst; [done..| |]; intros Hx.
          - by rewrite Hx in Hm.
          - by rewrite Hx in Hm'. }
        rewrite Hm in Hm'. by injection Hm' as ->.
    + done.
    + intros HallA. rewrite HA in HallA. apply Hin in HallA.
      by rewrite HallA in Hm.
  - split; [|split; [|split]].
    + split; [done|].
      intros (before' & element' & rest' & HA' & Hm' & _).
      rewrite HA' in Hall. apply Hin in Hall. by rewrite Hall in Hm'.
    + intros e. split; [done|].
      intros (before' & element' & rest' & HA' & Hm' & _).
      rewrite HA' in Hall. apply Hin in Hall. by rewrite Hall in Hm'.
    + done.
    + done.
Qed.

End DropperFacts.

(** ** Deletions take effect later *)

Module DeferFacts.

(** The goroutines at the end of [sleeping] resume, the oldest first. *)
Lemma resume_all (td : TimedDeleter) gs : forall l0 s,
  sleeping s = l0 ++ gs ->
  Forall (fun g => (due g <= clock s)%Z) gs ->
  let s' := run td s (replicate (length gs) (Resume (length l0))) in
  sleeping s' = l0
  /\ clock s' = clock s
  /\ (forall m k,
        Load m k s'
        = if decide (Exists (fun g => target g = m /\ key g = k) gs)
          then None else Load m k s).
Proof.
  induction gs as [|g gs IH]; intros l0 s Hs Hdue; simpl.
  - rewrite app_nil_r in Hs. split; [done|]. split; [done|].
    intros m k.
    first [ done | case_decide as He; [by apply Exists_nil in He|done] ].
  - apply Forall_cons in Hdue as [Hg Hdue].
    assert (Hi : sleeping s !! length l0 = Some g).
    { rewrite Hs, lookup_app_r by lia. by rewrite Nat.sub_diag. }
    destruct (wake (length l0) s) as [s1|] eqn:Hw; simpl;
      [|unfold wake in Hw; rewrite Hi in Hw; by rewrite decide_True in Hw].
    apply DeleterFacts.wake_effect in Hw as (g' & Hi' & _ & Hc & Hs1 & Hl).
    rewrite Hi in Hi'. injection Hi' as <-.
    assert (Hs1' : sleeping s1 = l0 ++ gs).
    { rewrite Hs1, Hs, delete_take_drop, take_app_length.
      rewrite drop_app_ge by lia.
      by replace (S (length l0) - length l0) with 1 by lia. }
    destruct (IH l0 s1 Hs1') as (I1 & I2 & I3); [by rewrite Hc|].
    split; [done|]. split; [congruence|].
    intros m k. rewrite I3, Hl.
    destruct (decide (Exists (fun g0 => target g0 = m /\ key g0 = k) gs))
      as [He|He].
    + rewrite decide_True; [done|]. by apply Exists_cons_tl.
    + destruct (decide (m = target g /\ k = key g)) as [[-> ->]|Hne].
      * rewrite decide_True; [done|]. by apply Exists_cons_hd.
      * rewrite decide_False; [done|].
        intros [[<- <-]|?]%Exists_cons; [by apply Hne|done].
Qed.

(** An event [ev] that only starts the goroutines [gs], followed by the
    delay and by the resumption of those goroutines. *)
Lemma deferred_run (td : TimedDeleter) st st1 gs :
  sleeping st1 = sleeping st ++ gs ->
  clock st1 = clock st ->
  (forall g, g ∈ gs -> due g = (clock st + Delay td)%Z) ->
  (forall m k, Load m k st1 = Load m k st) ->
  let later :=
    run td st1
      (Elapse (Delay td)
       :: replicate (length (sleeping st1) - length (sleeping st))
            (Resume (length (sleeping st)))) in
  sleeping later = sleeping st
  /\ (forall m k,
        Load m k later
        = if decide (Exists (fun g => target g = m /\ key g = k) gs)
          then None else Load m k st).
Proof.
  intros Hsleep Hclock Hdue Hloads.
  assert (Hstarted : length (sleeping st1) - length (sleeping st) = length gs)
    by (rewrite Hsleep, length_app; lia).
  rewrite Hstarted. cbv zeta.
  change (run td st1
            (Elapse (Delay td)
             :: replicate (length gs) (Resume (length (sleeping st)))))
    with (run td (tick (Delay td) st1)
            (replicate (length gs) (Resume (length (sleeping st))))).
  destruct (resume_all td gs (sleeping st) (tick (Delay td) st1))
    as (R1 & _ & R3).
  - exact Hsleep.
  - apply Forall_forall. intros g Hg. rewrite (Hdue g Hg).
    change (clock (tick (Delay td) st1))
      with (clock st1 + Z.max 0 (Delay td))%Z.
    rewrite Hclock. lia.
  - split; [exact R1|]. intros m k. rewrite R3.
    by rewrite DeleterFacts.Load_tick, Hloads.
Qed.

Lemma step_PodDelete_sleeping (td : TimedDeleter) st pod :
  sleeping (step td st (PodDelete pod))
  = sleeping st
    ++ ((scheduled td st IpToPod <$> deletedEndpoints pod)
        ++ match podToWorkloadAndNamespace st !! pod_Name pod with
           | Some w =>
               if decide (int_wrap (podCount st w - 1) = 0%Z)
               then [scheduled td st WorkloadAndNamespaceToLabels w] else []
           | None => []
           end
        ++ [scheduled td st PodToWorkloadAndNamespace (pod_Name pod)]).
Proof. unfold step. rewrite onDeletePod_sleeping. reflexivity. Qed.

Lemma onDeletePod_services (td : TimedDeleter) pod st :
  ipToServiceAndNamespace (onDeletePod pod td st) = ipToServiceAndNamespace st
  /\ serviceAndNamespaceToSelectors (onDeletePod pod td st)
     = serviceAndNamespaceToSelectors st
  /\ serviceToWorkload (onDeletePod pod td st) = serviceToWorkload st.
Proof. unfold_handlers. repeat split; frame. Qed.

Lemma step_PodDelete_Load (td : TimedDeleter) st pod m k :
  Load m k (step td st (PodDelete pod)) = Load m k st.
Proof.
  unfold step.
  destruct (onDeletePod_maps td pod
              (Debug "list and watch for pods: DELETE" [] st))
    as (M1 & M2 & M3).
  destruct (onDeletePod_services td pod
              (Debug "list and watch for pods: DELETE" [] st))
    as (M4 & M5 & M6).
  unfold Load. destruct m; by rewrite ?M1, ?M2, ?M3, ?M4, ?M5, ?M6.
Qed.

End DeferFacts.

(** X18.  A deleted pod is forgotten in the end: once the delay has
    passed and the goroutines that [onDeletePod] started have resumed,
    the endpoints whose deletion it scheduled are no longer keys of
    [ipToPod], the name of the pod is no longer a key of
    [podToWorkloadAndNamespace], every entry of an index is gone or as
    it was before the event, and no goroutine of the event is left. *)
Theorem PodDelete_eventually (td : TimedDeleter) (st : State) (pod : Pod) :
  let deleted := step td st (PodDelete pod) in
  let started := length (sleeping deleted) - length (sleeping st) in
  let later :=
    run td deleted
      (Elapse (Delay td) :: replicate started (Resume (length (sleeping st)))) in
  (forall k, k ∈ deletedEndpoints pod -> ipToPod later !! k = None)
  /\ podToWorkloadAndNamespace later !! pod_Name pod = None
  /\ (forall m k, Load m k later = None \/ Load m k later = Load m k st)
  /\ sleeping later = sleeping st.
Proof.
  cbv zeta.
  pose proof (DeferFacts.step_PodDelete_sleeping td st pod) as Hsleep.
  destruct (DeferFacts.deferred_run td st (step td st (PodDelete pod)) _ Hsleep)
    as [R1 R3].
  - by destruct (DeleterFacts.step_grows td st (PodDelete pod)) as [? _].
  - intros g Hg. rewrite !elem_of_app in Hg. destruct Hg as [Hg|[Hg|Hg]].
    + by apply list_elem_of_fmap in Hg as (? & -> & _).
    + destruct (podToWorkloadAndNamespace st !! pod_Name pod);
        [|by apply elem_of_nil in Hg].
      case_decide; [|by apply elem_of_nil in Hg].
      by apply list_elem_of_singleton in Hg as ->.
    + by apply list_elem_of_singleton in Hg as ->.
  - apply DeferFacts.step_PodDelete_Load.
  - split; [|split; [|split]].
    + intros k Hk.
      specialize (R3 IpToPod k). rewrite decide_True in R3.
      * by apply fmap_None in R3.
      * apply Exists_exists. exists (scheduled td st IpToPod k).
        split; [|done]. rewrite elem_of_app. left.
        apply list_elem_of_fmap. by exists k.
    + specialize (R3 PodToWorkloadAndNamespace (pod_Name pod)).
      rewrite decide_True in R3.
      * by apply fmap_None in R3.
      * apply Exists_exists.
        exists (scheduled td st PodToWorkloadAndNamespace (pod_Name pod)).
        split; [|done]. rewrite !elem_of_app. right. right.
        by apply list_elem_of_singleton.
    + intros m k. rewrite R3. case_decide; [by left|by right].
    + exact R1.
Qed.

(** X19.  A Delete of a service removes nothing at once: every index is
    as before, and what is scheduled is the deletion of the cluster IP,
    unless the service is headless, and then that of the selectors.  No
    deletion of the entry of the service in the index of services to
    workloads is scheduled. *)
Theorem ServiceDelete_defers (td : TimedDeleter) (st : State) (service : Service) :
  let deleted := step td st (ServiceDelete service) in
  (forall m k, Load m k deleted = Load m k st)
  /\ sleeping deleted
     = sleeping st
       ++ (if decide (svc_ClusterIP service ≠ "" /\ svc_ClusterIP service ≠ "None")
           then [scheduled td st IpToServiceAndNamespace (svc_ClusterIP service)]
           else [])
       ++ [scheduled td st ServiceAndNamespaceToSelectors
             (getServiceAndNamespace service)]
  /\ (forall g, g ∈ sleeping deleted -> g ∉ sleeping st ->
                target g ≠ ServiceToWorkload).
Proof.
  intros deleted.
  assert (Hs : sleeping deleted
     = sleeping st
       ++ (if decide (svc_ClusterIP service ≠ "" /\ svc_ClusterIP service ≠ "None")
           then [scheduled td st IpToServiceAndNamespace (svc_ClusterIP service)]
           else [])
       ++ [scheduled td st ServiceAndNamespaceToSelectors
             (getServiceAndNamespace service)]).
  { unfold deleted, step, onDeleteService.
    case_decide; unfold_handlers; simpl; [|done].
    by rewrite <- app_assoc. }
  split; [|split; [exact Hs|]].
  - intros m k. unfold deleted, step, onDeleteService.
    case_decide; unfold_handlers; by destruct m.
  - intros g Hg Hold. rewrite Hs in Hg. rewrite !elem_of_app in Hg.
    destruct Hg as [Hg|[Hg|Hg]]; [done| |].
    + case_decide; [|by apply elem_of_nil in Hg].
      by apply list_elem_of_singleton in Hg as ->.
    + by apply list_elem_of_singleton in Hg as ->.
Qed.

(** ** Pod names *)

Lemma extractWorkloadNameFromPodName_spec_witness :
  ("agent" ≠ "" /\ Strings.all dot "agent" = true
   /\ String.length "x2k4v" = 5
   /\ Strings.all (oneOf kubeAllowedStringAlphaNums) "x2k4v" = true
   /\ extractWorkloadNameFromPodName ("agent" +:+ "-" +:+ "x2k4v") = Some "agent")
  /\ ((forall q suf, "cart-6d9f7c4b8z-ab3k9" = q +:+ "-" +:+ suf ->
         String.length suf = 5 ->
         Strings.all (oneOf kubeAllowedStringAlphaNums) suf = false)
      /\ extractWorkloadNameFromPodName "cart-6d9f7c4b8z-ab3k9" = None).
Proof.
  assert (H : forall q suf, "cart-6d9f7c4b8z-ab3k9" = q +:+ "-" +:+ suf ->
                String.length suf = 5 ->
                Strings.all (oneOf kubeAllowedStringAlphaNums) suf = false).
  { intros q suf Heq Hlen.
    change "cart-6d9f7c4b8z-ab3k9"
      with ("cart-6d9f7c4b8z" +:+ "-" +:+ "ab3k9") in Heq.
    apply StringFacts.app_inv_length_r in Heq as [_ Heq].
    - cbv in Heq. injection Heq as <-. reflexivity.
    - rewrite !StringFacts.length_app, Hlen. reflexivity. }
  split.
  - split; [done|]. split; [reflexivity|]. split; [reflexivity|].
    split; [reflexivity|].
    apply (extractWorkloadNameFromPodName_spec "agent" "x2k4v" "");
      [done|reflexivity|reflexivity|reflexivity].
  - split; [exact H|].
    apply (extractWorkloadNameFromPodName_spec "" "" "cart-6d9f7c4b8z-ab3k9").
    exact H.
Defined.
